(** * github-org-cloner: the batch cloning engine

    A shallow embedding of [github_org_cloner/cloner.py]
    ([clone_repository] and [clone_all_repositories]) over an explicit
    model of what the code touches: the filesystem namespace and the
    external [git] executable.  Python functions become functions from
    a world to a result (a value returned or an exception raised) and
    a new world.  Logging is not modelled; it has no influence on the
    values returned or on the filesystem.

    In parallel mode the thread scheduler decides how the calls of
    [clone_repository] interleave and in which order their futures are
    handed out by [as_completed].  Both choices are parameters of the
    model, and the properties of the parallel branch are proved for all
    of them; [max_workers] only restricts which interleavings can
    occur.

    The rest of the program is embedded in the same way: the setup
    pass of [setup_runner.py] over the same world and an external
    [bash]; [GitHubClient] of [github_client.py] over a server that
    answers requests, with [urllib.parse.urlparse] modelled for the
    URLs that [parse_org_name] passes to it; [Config.from_args] of
    [config.py]; and [main] of [cli.py] from the parsed arguments on.
    A Python string is a string of characters with code points below
    256. *)

From stdpp Require Import gmap strings list fin_maps pretty.
From Stdlib Require Import ZArith NArith.

(** ** Data model *)

(** [github_client.Repository] (a dataclass). *)
Record Repository := {
  name : string;
  clone_url : string;
  ssh_url : string;
  description : option string;
}.

(** A [pathlib.Path], as the list of its components.  [p / c] appends
    one component.  That is what [pathlib] does for a name that is one
    plain component ([plain_name] below: not empty, not [.] or [..],
    without separator); for other strings [pathlib] drops the
    component, splits it or starts again at the root, and the
    statements that depend on where a target lies are made for plain
    names. *)
Definition Path := list string.

Definition path_join (p : Path) (c : string) : Path := p ++ [c].
Declare Scope path_scope.
Infix "/" := path_join : path_scope.
Delimit Scope path_scope with path.

(** [Path.parent]. *)
Definition parent (p : Path) : Path := removelast p.

(** [str(path)]. *)
Definition path_str (p : Path) : string := String.concat "/" p.

(** The exceptions that travel through the module.  All of them derive
    from Python's [Exception]. *)
Inductive exception :=
| CloneError (msg : string)
| OSError (msg : string)
| ValueError (msg : string)
| UnboundLocalError (msg : string).

(** [str(e)]. *)
Definition str (e : exception) : string :=
  match e with
  | CloneError msg | OSError msg | ValueError msg | UnboundLocalError msg => msg
  end.

(** A Python call either returns a value or raises. *)
Inductive result (A : Type) :=
| Returned (a : A)
| Raised (e : exception).
Arguments Returned {A} a.
Arguments Raised {A} e.

(** The tuple [(repo_name, success, error_message)]. *)
Definition CloneOutcome : Type := string * bool * option string.

(** ** The world: filesystem and clone tool *)

Inductive node := File | Dir.

(** The filesystem namespace (which paths exist, and as what) and the
    log of [subprocess.run] invocations, oldest first. *)
Record World := {
  fs : gmap Path node;
  calls : list (list string);
}.

(** [Path.exists()], for a path that the operating system can look
    up: the answer of [stat].  (Up to Python 3.13 [exists] re-raises
    the [OSError]s of [stat] other than "no such file"; of these, "file
    name too long" depends on the path alone, see [within_limits]
    below.  Permissions and I/O errors are not part of the model.) *)
Definition path_exists (w : World) (p : Path) : bool :=
  bool_decide (is_Some (fs w !! p)).

(** Creating one directory level; an entry that is already there is
    left as it is. *)
Definition add_dir (p : Path) (m : gmap Path node) : gmap Path node :=
  match m !! p with
  | Some _ => m
  | None => <[p := Dir]> m
  end.

(** [Path.mkdir(parents=True, exist_ok=True)] on the levels of a path,
    outermost first ([sofar] is the prefix already walked): missing
    levels are created, existing directories are accepted, and a
    regular file in the way raises ([FileExistsError] for the path
    itself, [NotADirectoryError] for an ancestor; both are [OSError]s). *)
Fixpoint mkdir_levels (sofar : Path) (rest : list string) (m : gmap Path node)
  : result (gmap Path node) :=
  match rest with
  | [] => Returned m
  | c :: rest' =>
      let p := (sofar / c)%path in
      match m !! p with
      | Some File =>
          Raised (OSError (match rest' with
                           | [] => "[Errno 17] File exists: '"
                           | _ => "[Errno 20] Not a directory: '"
                           end +:+ path_str (sofar ++ rest) +:+ "'"))
      | Some Dir => mkdir_levels p rest' m
      | None => mkdir_levels p rest' (<[p := Dir]> m)
      end
  end.

Definition mkdir (p : Path) (w : World) : result unit * World :=
  match mkdir_levels [] p (fs w) with
  | Returned m => (Returned tt, {| fs := m; calls := calls w |})
  | Raised e => (Raised e, w)
  end.

(** What [text=True] makes of the captured output of a process that
    has exited: the text of its standard error, or the
    [UnicodeDecodeError] (with its message) for output that is not
    valid in the locale's encoding. *)
Inductive captured :=
| Text (stderr : string)
| Undecodable (msg : string).

(** What the external tool does when it is started with some argument
    vector in some world. *)
Inductive Behaviour :=
| NotFound
    (* no such executable on the search path *)
| SpawnFails (msg : string)
    (* the process could not be started ([PermissionError],
       [BlockingIOError] and other [OSError]s); [msg] is the text of
       the exception *)
| Runs (seconds : N) (returncode : Z) (stderr : string) (leaves_target : bool)
    (* a tidy clone: runs for [seconds], then exits, having printed
       text; the destination directory is all it creates, and it
       creates it when it exits with status 0; [leaves_target]: an
       unsuccessful run still leaves something at the destination *)
| Process (seconds : N) (returncode : Z) (output : captured)
    (created : gmap Path node).
    (* any process: runs for [seconds], then exits; [created] are the
       entries it has made by then (or by the time it is killed),
       wherever they are; an entry that was there before stays as it
       was *)

Definition Tool : Type := list string → World → Behaviour.

(** What [subprocess.run(..., timeout=..., check=True)] hands back to
    the [try] block of [clone_repository]. *)
Inductive run_result :=
| Completed
| CalledProcessError (stderr : string)
| TimeoutExpired
| FileNotFoundError
| OtherError (e : exception).

Definition record_call (argv : list string) (w : World) : World :=
  {| fs := fs w; calls := calls w ++ [argv] |}.

Definition touch (p : Path) (w : World) : World :=
  {| fs := add_dir p (fs w); calls := calls w |}.

Section Cloner.

(** The [git] found (or not) on this machine. *)
Variable git : Tool.

(** [subprocess.run(["git", "clone", url, str(target)],
    capture_output=True, text=True, timeout=timeout, check=True)].
    When the time is up the process is killed and [TimeoutExpired] is
    raised before anything is decoded; otherwise the output is decoded
    (a [UnicodeDecodeError] is a [ValueError]) before the exit status
    is looked at. *)
Definition subprocess_run_git_clone
    (url : string) (target : Path) (timeout : N) (w : World)
  : run_result * World :=
  let argv := ["git"; "clone"; url; path_str target] in
  let w' := record_call argv w in
  match git argv w with
  | NotFound => (FileNotFoundError, w')
  | SpawnFails msg => (OtherError (OSError msg), w')
  | Runs seconds returncode stderr leaves_target =>
      if (timeout <? seconds)%N then
        (TimeoutExpired, if leaves_target then touch target w' else w')
      else if (returncode =? 0)%Z then
        (Completed, touch target w')
      else
        (CalledProcessError stderr,
         if leaves_target then touch target w' else w')
  | Process seconds returncode output created =>
      let w'' := {| fs := fs w' ∪ created; calls := calls w' |} in
      if (timeout <? seconds)%N then (TimeoutExpired, w'')
      else
        match output with
        | Undecodable msg => (OtherError (ValueError msg), w'')
        | Text stderr =>
            if (returncode =? 0)%Z then (Completed, w'')
            else (CalledProcessError stderr, w'')
        end
  end.

(** [clone_repository], cloner.py:19-81. *)
Definition clone_repository
    (repo : Repository) (org_name : string) (base_dir : Path)
    (dry_run : bool) (w : World)
  : result CloneOutcome * World :=
  let target_path := (base_dir / org_name / name repo)%path in
  if path_exists w target_path then
    (Returned (name repo, false, Some "Already exists"), w)
  else if dry_run then
    (Returned (name repo, true, None), w)
  else
    match mkdir (parent target_path) w with
    | (Raised e, w1) => (Raised e, w1)
    | (Returned _, w1) =>
        match subprocess_run_git_clone (clone_url repo) target_path 300%N w1 with
        | (Completed, w2) =>
            (Returned (name repo, true, None), w2)
        | (CalledProcessError stderr, w2) =>
            let error_msg :=
              "Failed to clone " +:+ name repo +:+ ": " +:+ stderr in
            (Returned (name repo, false, Some error_msg), w2)
        | (TimeoutExpired, w2) =>
            let error_msg :=
              "Clone timeout for " +:+ name repo +:+ " (exceeded 5 minutes)" in
            (Returned (name repo, false, Some error_msg), w2)
        | (FileNotFoundError, w2) =>
            let error_msg :=
              "git command not found. Please ensure git is installed and in your PATH." in
            (Raised (CloneError error_msg), w2)
        | (OtherError e, w2) => (Raised e, w2)
        end
    end.

(** ** The batch *)

(** The sequential [for] loop, cloner.py:156-168.  [repo_name] is the
    local variable of that name: it is bound by the tuple assignment
    of line 159 and keeps its value from one iteration to the next;
    [None] stands for the variable while it is unbound, and reading it
    then (line 168) raises [UnboundLocalError] from inside the handler
    (the message is the one of Python 3.11 and later). *)
Fixpoint clone_sequentially
    (repos : list Repository) (org_name : string) (base_dir : Path)
    (dry_run : bool) (repo_name : option string)
    (results : gmap string (bool * option string)) (w : World)
  : result (gmap string (bool * option string)) * World :=
  match repos with
  | [] => (Returned results, w)
  | repo :: repos' =>
      match clone_repository repo org_name base_dir dry_run w with
      | (Returned (repo_name', success, error), w') =>
          clone_sequentially repos' org_name base_dir dry_run
            (Some repo_name') (<[repo_name' := (success, error)]> results) w'
      | (Raised e, w') =>
          match repo_name with
          | Some key =>
              clone_sequentially repos' org_name base_dir dry_run
                repo_name (<[key := (false, Some (str e))]> results) w'
          | None =>
              (Raised (UnboundLocalError
                 "cannot access local variable 'repo_name' where it is not associated with a value"),
               w')
          end
      end
  end.

(** A call of [clone_repository] running on a worker thread, seen
    from the other threads: it touches the shared filesystem at three
    points (the existence test of line 42, the [mkdir] of line 51,
    the tool run of line 57), and other workers may run in between. *)
Inductive task :=
| Queued
| Checked
| Prepared
| Finished (r : result CloneOutcome).

(** The handlers of the [try] statement, cloner.py:65-81. *)
Definition after_run (repo : Repository) (r : run_result) : result CloneOutcome :=
  match r with
  | Completed => Returned (name repo, true, None)
  | CalledProcessError stderr =>
      Returned (name repo, false,
                Some ("Failed to clone " +:+ name repo +:+ ": " +:+ stderr))
  | TimeoutExpired =>
      Returned (name repo, false,
                Some ("Clone timeout for " +:+ name repo +:+ " (exceeded 5 minutes)"))
  | FileNotFoundError =>
      Raised (CloneError
        "git command not found. Please ensure git is installed and in your PATH.")
  | OtherError e => Raised e
  end.

(** One step of a task, up to the next point at which another worker
    may run; a finished task stays as it is. *)
Definition step_task
    (repo : Repository) (org_name : string) (base_dir : Path)
    (dry_run : bool) (t : task) (w : World)
  : task * World :=
  let target_path := (base_dir / org_name / name repo)%path in
  match t with
  | Queued =>
      if path_exists w target_path then
        (Finished (Returned (name repo, false, Some "Already exists")), w)
      else if dry_run then
        (Finished (Returned (name repo, true, None)), w)
      else (Checked, w)
  | Checked =>
      match mkdir (parent target_path) w with
      | (Raised e, w1) => (Finished (Raised e), w1)
      | (Returned _, w1) => (Prepared, w1)
      end
  | Prepared =>
      let '(r, w2) :=
        subprocess_run_git_clone (clone_url repo) target_path 300%N w in
      (Finished (after_run repo r), w2)
  | Finished r => (Finished r, w)
  end.

(** The worker pool.  [schedule] lists, in the order in which they
    happen, the indices (positions in [repos]) of the tasks that take
    their next step; an index without a task is passed over. *)
Fixpoint run_workers
    (repos : list Repository) (org_name : string) (base_dir : Path)
    (dry_run : bool) (schedule : list nat) (tasks : list task) (w : World)
  : list task * World :=
  match schedule with
  | [] => (tasks, w)
  | i :: schedule' =>
      match repos !! i, tasks !! i with
      | Some repo, Some t =>
          let '(t', w') := step_task repo org_name base_dir dry_run t w in
          run_workers repos org_name base_dir dry_run schedule'
            (<[i := t']> tasks) w'
      | _, _ =>
          run_workers repos org_name base_dir dry_run schedule' tasks w
      end
  end.

(** Leaving the [with ThreadPoolExecutor(...)] block waits for every
    task: whatever the interleaving was, each task still takes the
    steps it has left. *)
Definition join_all (n : nat) : list nat :=
  i ← seq 0 n; [i; i; i].

(** The loop over [as_completed(future_to_repo)], cloner.py:141-151;
    [order] is the order in which the futures are handed out (by
    position of their descriptor in [repos]).  In an actual run it is a
    permutation of all positions. *)
Fixpoint collect_completed
    (repos : list Repository) (tasks : list task) (order : list nat)
    (results : gmap string (bool * option string))
  : gmap string (bool * option string) :=
  match order with
  | [] => results
  | i :: order' =>
      match repos !! i, tasks !! i with
      | Some repo, Some (Finished (Returned (repo_name, success, error))) =>
          collect_completed repos tasks order'
            (<[repo_name := (success, error)]> results)
      | Some repo, Some (Finished (Raised e)) =>
          collect_completed repos tasks order'
            (<[name repo := (false, Some (str e))]> results)
      | _, _ => collect_completed repos tasks order' results
      end
  end.

(** What the thread scheduler decides in one parallel run: how the
    workers interleave, and in which order the futures complete. *)
Record Scheduling := {
  interleaving : list nat;
  completion : list nat;
}.

(** [clone_all_repositories], cloner.py:84-176. *)
Definition clone_all_repositories
    (repos : list Repository) (org_name : string) (base_dir : Path)
    (parallel : bool) (max_workers : option Z) (dry_run : bool)
    (sched : Scheduling) (w : World)
  : result (gmap string (bool * option string)) * World :=
  match repos with
  | [] => (Returned ∅, w)
  | _ :: _ =>
      let org_dir := (base_dir / org_name)%path in
      match (if dry_run then (Returned tt, w) else mkdir org_dir w) with
      | (Raised e, w1) => (Raised e, w1)
      | (Returned _, w1) =>
          if parallel then
            if match max_workers with Some n => (n <=? 0)%Z | None => false end
            then (Raised (ValueError "max_workers must be greater than 0"), w1)
            else
              let '(tasks, w2) :=
                run_workers repos org_name base_dir dry_run
                  (interleaving sched ++ join_all (length repos))
                  (replicate (length repos) Queued) w1 in
              (Returned (collect_completed repos tasks (completion sched) ∅), w2)
          else
            clone_sequentially repos org_name base_dir dry_run None ∅ w1
      end
  end.

End Cloner.

(** ** Auxiliary notions for the proofs *)

(** The task is not in the middle of [clone_repository]. *)
Definition at_rest (t : task) : Prop :=
  match t with
  | Queued | Finished _ => True
  | Checked | Prepared => False
  end.

(** How many steps a task still has to take. *)
Definition steps_left (t : task) : nat :=
  match t with
  | Queued => 3
  | Checked => 2
  | Prepared => 1
  | Finished _ => 0
  end.

(** The key and the value that the collecting loop writes for the
    future of [repo] (cloner.py:144-145 and 150). *)
Definition entry_of (repo : Repository) (r : result CloneOutcome)
  : string * (bool * option string) :=
  match r with
  | Returned (repo_name, success, error) => (repo_name, (success, error))
  | Raised e => (name repo, (false, Some (str e)))
  end.

(** ** Sample data *)

Definition repo_a : Repository :=
  {| name := "repoA"; clone_url := "https://github.com/testorg/repoA.git";
     ssh_url := "git@github.com:testorg/repoA.git"; description := None |}.

Definition repo_b : Repository :=
  {| name := "repoB"; clone_url := "https://github.com/testorg/repoB.git";
     ssh_url := "git@github.com:testorg/repoB.git"; description := Some "B" |}.

Definition repo_c : Repository :=
  {| name := "repoC"; clone_url := "https://github.com/testorg/repoC.git";
     ssh_url := "git@github.com:testorg/repoC.git"; description := None |}.


(** The base directory [/tmp]. *)
Definition tmp : Path := [""; "tmp"].

Definition empty_world : World := {| fs := ∅; calls := [] |}.

(** A world in which a regular file sits where [repo_a] would go. *)
Definition file_at_repo_a : World :=
  {| fs := {[ [""; "tmp"] := Dir; [""; "tmp"; "testorg"] := Dir;
              [""; "tmp"; "testorg"; "repoA"] := File ]};
     calls := [] |}.

(** The world in which [repo_a], and nothing else, has been cloned. *)
Definition repo_a_cloned : World :=
  {| fs := {[ [""] := Dir; [""; "tmp"] := Dir; [""; "tmp"; "testorg"] := Dir;
              [""; "tmp"; "testorg"; "repoA"] := Dir ]};
     calls := [ ["git"; "clone"; "https://github.com/testorg/repoA.git";
                 "/tmp/testorg/repoA"] ] |}.

(** The world after [repo_b], then [repo_a], have been cloned into an
    empty one. *)
Definition both_cloned : World :=
  {| fs := {[ [""] := Dir; [""; "tmp"] := Dir; [""; "tmp"; "testorg"] := Dir;
              [""; "tmp"; "testorg"; "repoA"] := Dir;
              [""; "tmp"; "testorg"; "repoB"] := Dir ]};
     calls := [ ["git"; "clone"; "https://github.com/testorg/repoB.git";
                 "/tmp/testorg/repoB"];
                ["git"; "clone"; "https://github.com/testorg/repoA.git";
                 "/tmp/testorg/repoA"] ] |}.

(** The world after a checkout of [repo_b], then one of [repo_a], have
    been made in an empty one. *)
Definition both_checked_out : World :=
  {| fs := {[ [""] := Dir; [""; "tmp"] := Dir; [""; "tmp"; "testorg"] := Dir;
              [""; "tmp"; "testorg"; "repoA"] := Dir;
              [""; "tmp"; "testorg"; "repoA"; ".git"] := Dir;
              [""; "tmp"; "testorg"; "repoA"; "README.md"] := File;
              [""; "tmp"; "testorg"; "repoB"] := Dir;
              [""; "tmp"; "testorg"; "repoB"; ".git"] := Dir;
              [""; "tmp"; "testorg"; "repoB"; "README.md"] := File ]};
     calls := [ ["git"; "clone"; "https://github.com/testorg/repoB.git";
                 "/tmp/testorg/repoB"];
                ["git"; "clone"; "https://github.com/testorg/repoA.git";
                 "/tmp/testorg/repoA"] ] |}.

(** A tool that clones whatever it is asked for, in two seconds. *)
Definition git_ok : Tool := λ _ _, Runs 2 0 "" false.

(** A tool that exits with status 1. *)
Definition git_not_found_upstream : Tool :=
  λ _ _, Runs 1 1 "fatal: not found" false.

(** A tool that never comes back. *)
Definition git_hangs : Tool := λ _ _, Runs 1000000 0 "" true.

(** No tool at all. *)
Definition git_missing : Tool := λ _ _, NotFound.



(** What a clone leaves at its destination. *)
Definition checkout (target : Path) : gmap Path node :=
  {[ target := Dir; (target / ".git")%path := Dir;
     (target / "README.md")%path := File ]}.

(** A tool that makes a checkout at the destination of the sample
    descriptor it is asked for, and exits with status 0 after two
    seconds. *)
Definition git_real : Tool := λ argv _,
  Process 2 0 (Text "")
    (if bool_decide (argv !! 2 = Some (clone_url repo_a))
     then checkout (tmp / "testorg" / "repoA")%path
     else if bool_decide (argv !! 2 = Some (clone_url repo_b))
     then checkout (tmp / "testorg" / "repoB")%path
     else if bool_decide (argv !! 2 = Some (clone_url repo_c))
     then checkout (tmp / "testorg" / "repoC")%path
     else ∅).

(** A tool that cannot be started when asked for [repo_b] (the system
    is out of process slots at that moment) and works otherwise. *)
Definition git_flaky : Tool := λ argv _,
  if bool_decide (argv !! 2 = Some (clone_url repo_b))
  then SpawnFails "[Errno 11] Resource temporarily unavailable"
  else Runs 2 0 "" false.

(** A tool whose first run succeeds and whose later runs fail. *)
Definition git_once : Tool := λ _ w,
  match calls w with
  | [] => Runs 2 0 "" false
  | _ :: _ => Runs 1 1 "error" false
  end.

Definition git_missing_msg : string :=
  "git command not found. Please ensure git is installed and in your PATH.".

(** Schedules: tasks run one after the other and complete in the order
    of the list ... *)
Definition in_order : Scheduling :=
  {| interleaving := []; completion := [0; 1] |}.
Definition three_in_order : Scheduling :=
  {| interleaving := []; completion := [0; 1; 2] |}.
(** ... or two tasks take turns and the second one completes first. *)
Definition interleaved : Scheduling :=
  {| interleaving := [1; 0; 0; 1; 1; 0]; completion := [1; 0] |}.

(** * The rest of the program *)

(** ** The tally of a batch *)

(** [sum(1 for success, _ in results.values() if success)],
    cloner.py:171. *)
Definition successful (results : gmap string (bool * option string)) : nat :=
  size (filter (λ entry, entry.2.1 = true) results).

(** [len(results) - successful], cloner.py:172. *)
Definition failed (results : gmap string (bool * option string)) : Z :=
  (Z.of_nat (size results) - Z.of_nat (successful results))%Z.

(** ** Post-clone setup *)

(** [setup_runner.py].  What this module does for its caller is what it
    logs, so here the records handed to the logger are part of the
    result. *)
Inductive level := DEBUG | INFO | WARNING | ERROR.

Definition LogRecord : Type := level * string.

(** [Path.name]: the last component. *)
Definition path_name (p : Path) : string := default "" (last p).

(** [Path.is_dir()]. *)
Definition is_dir (w : World) (p : Path) : bool :=
  match fs w !! p with
  | Some Dir => true
  | _ => false
  end.

(** What [text=True] makes of the captured output of a script that has
    exited: the texts of its standard output and standard error, or the
    [UnicodeDecodeError] (with its message) for output that is not
    valid in the locale's encoding. *)
Inductive script_output :=
| ScriptText (stdout stderr : string)
| ScriptUndecodable (msg : string).

(** What the shell does when it is started on a script in a working
    directory; a script may leave the filesystem in any state. *)
Inductive ScriptBehaviour :=
| ShellNotFound
| ShellSpawnFails (msg : string)
| ScriptRuns (seconds : N) (returncode : Z) (output : script_output)
    (fs_after : gmap Path node).

Definition Shell : Type := list string → Path → World → ScriptBehaviour.

(** What [subprocess.run(..., cwd=..., timeout=..., check=True)] hands
    back to the [try] block of [run_optional_setup]. *)
Inductive script_result :=
| ScriptCompleted (stdout : string)
| ScriptFailed (stderr : string)
| ScriptTimedOut
| ScriptRaised (e : exception).

Section SetupRunner.

(** The [bash] found (or not) on this machine. *)
Variable bash : Shell.

(** [subprocess.run(["bash", str(script)], cwd=cwd, capture_output=True,
    text=True, timeout=timeout, check=True)].  When the time is up
    [TimeoutExpired] is raised before anything is decoded; otherwise
    the output is decoded (a [UnicodeDecodeError] is a [ValueError])
    before the exit status is looked at. *)
Definition subprocess_run_bash
    (script cwd : Path) (timeout : N) (w : World)
  : script_result * World :=
  let argv := ["bash"; path_str script] in
  let w' := record_call argv w in
  match bash argv cwd w with
  | ShellNotFound =>
      (ScriptRaised (OSError "[Errno 2] No such file or directory: 'bash'"), w')
  | ShellSpawnFails msg => (ScriptRaised (OSError msg), w')
  | ScriptRuns seconds returncode output fs_after =>
      let w'' := {| fs := fs_after; calls := calls w' |} in
      if (timeout <? seconds)%N then (ScriptTimedOut, w'')
      else
        match output with
        | ScriptUndecodable msg => (ScriptRaised (ValueError msg), w'')
        | ScriptText stdout stderr =>
            if (returncode =? 0)%Z then (ScriptCompleted stdout, w'')
            else (ScriptFailed stderr, w'')
        end
  end.

(** The project-type hints, setup_runner.py:53-106. *)
Definition project_hints (repo_path : Path) (w : World) : list LogRecord :=
  let package_json := (repo_path / "package.json")%path in
  let pyproject_toml := (repo_path / "pyproject.toml")%path in
  let requirements_txt := (repo_path / "requirements.txt")%path in
  let setup_py := (repo_path / "setup.py")%path in
  let gemfile := (repo_path / "Gemfile")%path in
  let go_mod := (repo_path / "go.mod")%path in
  let cargo_toml := (repo_path / "Cargo.toml")%path in
  let makefile := (repo_path / "Makefile")%path in
  (if path_exists w package_json then
     [(INFO, "  Detected Node.js project in " +:+ path_name repo_path +:+ ". "
             +:+ "You may want to run 'npm install' or 'yarn install'.")]
   else [])
  ++ (if path_exists w pyproject_toml || path_exists w requirements_txt
         || path_exists w setup_py then
        (INFO, "  Detected Python project in " +:+ path_name repo_path +:+ ". "
               +:+ "You may want to create a virtual environment and install dependencies:")
        :: (if path_exists w pyproject_toml then
              [(INFO, "    python -m venv venv && source venv/bin/activate && pip install -e .")]
            else if path_exists w requirements_txt then
              [(INFO, "    python -m venv venv && source venv/bin/activate && "
                      +:+ "pip install -r requirements.txt")]
            else [])
      else [])
  ++ (if path_exists w gemfile then
        [(INFO, "  Detected Ruby project in " +:+ path_name repo_path +:+ ". "
                +:+ "You may want to run 'bundle install'.")]
      else [])
  ++ (if path_exists w go_mod then
        [(INFO, "  Detected Go project in " +:+ path_name repo_path +:+ ". "
                +:+ "You may want to run 'go mod download'.")]
      else [])
  ++ (if path_exists w cargo_toml then
        [(INFO, "  Detected Rust project in " +:+ path_name repo_path +:+ ". "
                +:+ "You may want to run 'cargo build'.")]
      else [])
  ++ (if path_exists w makefile then
        [(INFO, "  Found Makefile in " +:+ path_name repo_path +:+ ". "
                +:+ "You may want to check 'make help' or run 'make'.")]
      else []).

(** [run_optional_setup], setup_runner.py:10-106: the records logged,
    how the call ends, and the world it leaves. *)
Definition run_optional_setup
    (repo_path : Path) (auto_run : bool) (w : World)
  : list LogRecord * result unit * World :=
  if negb (path_exists w repo_path) || negb (is_dir w repo_path) then
    ([(WARNING, "Repository path does not exist: " +:+ path_str repo_path)],
     Returned tt, w)
  else
    let checking :=
      (INFO, "Checking for setup options in " +:+ path_name repo_path) in
    let setup_script := (repo_path / "setup.sh")%path in
    if path_exists w setup_script then
      if auto_run then
        let running :=
          (INFO, "Found setup.sh in " +:+ path_name repo_path +:+ ", running it...") in
        match subprocess_run_bash setup_script repo_path 300%N w with
        | (ScriptCompleted stdout, w1) =>
            ([checking; running;
              (INFO, "Setup script completed successfully for " +:+ path_name repo_path)]
             ++ (if bool_decide (stdout = "") then []
                 else [(DEBUG, "Setup output: " +:+ stdout)])
             ++ project_hints repo_path w1,
             Returned tt, w1)
        | (ScriptFailed stderr, w1) =>
            ([checking; running;
              (ERROR, "Setup script failed for " +:+ path_name repo_path +:+ ": "
                      +:+ stderr)]
             ++ project_hints repo_path w1,
             Returned tt, w1)
        | (ScriptTimedOut, w1) =>
            ([checking; running;
              (ERROR, "Setup script timeout for " +:+ path_name repo_path
                      +:+ " (exceeded 5 minutes)")]
             ++ project_hints repo_path w1,
             Returned tt, w1)
        | (ScriptRaised e, w1) => ([checking; running], Raised e, w1)
        end
      else
        ([checking;
          (INFO, "  Found setup.sh in " +:+ path_name repo_path +:+ ". "
                 +:+ "Run it manually or use --run-setup flag.")]
         ++ project_hints repo_path w,
         Returned tt, w)
    else
      (checking :: project_hints repo_path w, Returned tt, w).

(** The [for] loop of [run_setup_for_all], setup_runner.py:124-125. *)
Fixpoint run_setup_each
    (repo_paths : list Path) (auto_run : bool) (w : World)
  : list LogRecord * result unit * World :=
  match repo_paths with
  | [] => ([], Returned tt, w)
  | repo_path :: repo_paths' =>
      match run_optional_setup repo_path auto_run w with
      | (records, Raised e, w1) => (records, Raised e, w1)
      | (records, Returned _, w1) =>
          let '(records', r, w2) := run_setup_each repo_paths' auto_run w1 in
          (records ++ records', r, w2)
      end
  end.

(** [run_setup_for_all], setup_runner.py:109-125. *)
Definition run_setup_for_all
    (repo_paths : list Path) (auto_run : bool) (w : World)
  : list LogRecord * result unit * World :=
  match repo_paths with
  | [] => ([], Returned tt, w)
  | _ :: _ =>
      let '(records, r, w1) := run_setup_each repo_paths auto_run w in
      ((INFO, String (Ascii.ascii_of_nat 10) "Checking setup options for "
              +:+ pretty (length repo_paths) +:+ " repositories...")
       :: records, r, w1)
  end.

End SetupRunner.

(** ** Strings *)

(** Python strings are modelled by Rocq strings, a character standing
    for the code point of the same number (below 256). *)

Definition code (a : Ascii.ascii) : N := Ascii.N_of_ascii a.

(** [c in s], for a character. *)
Fixpoint has_char (c : Ascii.ascii) (s : string) : bool :=
  match s with
  | EmptyString => false
  | String a s' => bool_decide (a = c) || has_char c s'
  end.

(** [s.replace(c, "")], for a character. *)
Fixpoint remove_char (c : Ascii.ascii) (s : string) : string :=
  match s with
  | EmptyString => EmptyString
  | String a s' =>
      if bool_decide (a = c) then remove_char c s'
      else String a (remove_char c s')
  end.

(** [s[:i]] and [s[i:]] for [i] the first position of a character with
    property [stop], or [len(s)] if there is none. *)
Fixpoint split_at (stop : Ascii.ascii → bool) (s : string) : string * string :=
  match s with
  | EmptyString => (EmptyString, EmptyString)
  | String a s' =>
      if stop a then (EmptyString, s)
      else let '(before, rest) := split_at stop s' in (String a before, rest)
  end.

(** [s.lstrip(c)] and [s.rstrip(c)] and [s.strip(c)] for a character. *)
Fixpoint lstrip_char (c : Ascii.ascii) (s : string) : string :=
  match s with
  | EmptyString => EmptyString
  | String a s' => if bool_decide (a = c) then lstrip_char c s' else s
  end.

Fixpoint rstrip_char (c : Ascii.ascii) (s : string) : string :=
  match s with
  | EmptyString => EmptyString
  | String a s' =>
      match rstrip_char c s' with
      | EmptyString => if bool_decide (a = c) then EmptyString else String a EmptyString
      | rest => String a rest
      end
  end.

Definition strip_char (c : Ascii.ascii) (s : string) : string :=
  rstrip_char c (lstrip_char c s).

(** [s.split(c)] for a character: never the empty list. *)
Fixpoint split_char (c : Ascii.ascii) (s : string) : list string :=
  match s with
  | EmptyString => [EmptyString]
  | String a s' =>
      if bool_decide (a = c) then EmptyString :: split_char c s'
      else match split_char c s' with
           | [] => [String a EmptyString]
           | part :: parts => String a part :: parts
           end
  end.

Definition slash : Ascii.ascii := Ascii.ascii_of_nat 47.
Definition semicolon : Ascii.ascii := Ascii.ascii_of_nat 59.
Definition colon : Ascii.ascii := Ascii.ascii_of_nat 58.
Definition question_mark : Ascii.ascii := Ascii.ascii_of_nat 63.
Definition hash_sign : Ascii.ascii := Ascii.ascii_of_nat 35.
Definition left_bracket : Ascii.ascii := Ascii.ascii_of_nat 91.
Definition right_bracket : Ascii.ascii := Ascii.ascii_of_nat 93.
Definition hyphen : Ascii.ascii := Ascii.ascii_of_nat 45.
Definition newline_char : Ascii.ascii := Ascii.ascii_of_nat 10.

(** The character class [[a-zA-Z0-9]]. *)
Definition is_alnum (a : Ascii.ascii) : bool :=
  let n := code a in
  ((48 <=? n) && (n <=? 57) || (65 <=? n) && (n <=? 90)
   || (97 <=? n) && (n <=? 122))%N.

(** [[a-zA-Z0-9-]*[a-zA-Z0-9]] against a whole string. *)
Fixpoint re_inner (s : string) : bool :=
  match s with
  | EmptyString => false
  | String a EmptyString => is_alnum a
  | String a s' => (is_alnum a || bool_decide (a = hyphen)) && re_inner s'
  end.

(** [^[a-zA-Z0-9]([a-zA-Z0-9-]*[a-zA-Z0-9])?] against a whole string. *)
Definition re_org_name (s : string) : bool :=
  match s with
  | EmptyString => false
  | String a EmptyString => is_alnum a
  | String a s' => is_alnum a && re_inner s'
  end.

(** [s] without a final newline, if it has one. *)
Fixpoint chomp (s : string) : string :=
  match s with
  | EmptyString => EmptyString
  | String a EmptyString =>
      if bool_decide (a = newline_char) then EmptyString else s
  | String a s' => String a (chomp s')
  end.

(** [re.match(r"^[a-zA-Z0-9]([a-zA-Z0-9-]*[a-zA-Z0-9])?$", s)]: [$]
    matches at the end and before a newline that ends the string. *)
Definition re_match_org_name (s : string) : bool :=
  re_org_name s || re_org_name (chomp s).

(** [pat in s]. *)
Definition contains (pat s : string) : bool :=
  bool_decide (is_Some (String.index 0 pat s)).

(** [str.lower()], character by character. *)
Definition lower_char (a : Ascii.ascii) : Ascii.ascii :=
  let n := code a in
  if ((65 <=? n) && (n <=? 90)
      || (192 <=? n) && (n <=? 222) && negb (n =? 215))%N
  then Ascii.ascii_of_N (n + 32) else a.

Fixpoint lower (s : string) : string :=
  match s with
  | EmptyString => EmptyString
  | String a s' => String (lower_char a) (lower s')
  end.

(** [str.isspace()] of one character. *)
Definition is_space (a : Ascii.ascii) : bool :=
  let n := code a in
  ((9 <=? n) && (n <=? 13) || (28 <=? n) && (n <=? 32)
   || (n =? 133) || (n =? 160))%N.

(** [str.strip()]. *)
Fixpoint lstrip (s : string) : string :=
  match s with
  | EmptyString => EmptyString
  | String a s' => if is_space a then lstrip s' else s
  end.

Fixpoint rstrip (s : string) : string :=
  match s with
  | EmptyString => EmptyString
  | String a s' =>
      match rstrip s' with
      | EmptyString => if is_space a then EmptyString else String a EmptyString
      | rest => String a rest
      end
  end.

Definition strip (s : string) : string := rstrip (lstrip s).

(** Truth value of an [Optional[str]]: [None] and [""] are false. *)
Definition truthy (s : option string) : bool :=
  match s with
  | None | Some EmptyString => false
  | Some _ => true
  end.

(** [a or b] on [Optional[str]]. *)
Definition or_else (a b : option string) : option string :=
  if truthy a then a else b.

(** ** The HTTP exchange *)

Module requests.

(** A [GET] as the server sees it: the URL, the query parameters and
    the headers set by [GitHubClient.__init__]. *)
Record Request := {
  url : string;
  params : list (string * string);
  headers : list (string * string);
}.

(** One element of the JSON array of a reply.  A key that is absent is
    [None]; for ["description"] so is a [null]. *)
Record RepoData := {
  rd_name : option string;
  rd_clone_url : option string;
  rd_ssh_url : option string;
  rd_description : option string;
}.

(** [response.json()]: a [ValueError] with its text, or the array. *)
Inductive Body :=
| NotJSON (msg : string)
| JSON (repos_data : list RepoData).

Record Response := {
  status_code : Z;
  text : string;
  json : Body;
  x_ratelimit_reset : option string;
  link : option string;
}.

(** [session.get(...)]: a [RequestException] with its text, or a
    response. *)
Inductive Reply :=
| RequestException (msg : string)
| Replied (response : Response).

Definition Server : Type := Request → Reply.

End requests.

(** The exceptions of [github_client.py], and the [KeyError] of a
    subscript. *)
Inductive api_exception :=
| GitHubAPIError (msg : string)
| OrganizationNotFoundError (msg : string)
| RateLimitError (msg : string)
| KeyError (key : string).

Inductive fetched (A : Type) :=
| Fetched (a : A)
| Failed (e : api_exception).
Arguments Fetched {A} a.
Arguments Failed {A} e.

Definition double_quote : string := String (Ascii.ascii_of_nat 34) EmptyString.

(** ** The GitHub client *)

Module GitHubClient.

Definition BASE_URL : string := "https://api.github.com".
Definition PER_PAGE : Z := 100.

Section Parse.

(** The check of a bracketed host that [urllib.parse] makes since
    Python 3.11.4: the message of the [ValueError] for a network
    location it refuses.  Earlier versions make no such check (the
    function that is [None] everywhere). *)
Variable check_bracketed_host : string → option string.

(** The path of a URL without the parameters of its last segment
    ([urllib.parse._splitparams]). *)
Fixpoint splitparams (url : string) : string :=
  match url with
  | EmptyString => EmptyString
  | String a url' =>
      if bool_decide (a = slash) || has_char slash url' then
        String a (splitparams url')
      else if bool_decide (a = semicolon) then EmptyString
      else String a (splitparams url')
  end.

(** [urllib.parse.urlparse(url)] for a URL that starts with [http://]
    or [https://], which is all [parse_org_name] passes to it: the
    network location and the path (Python 3.10 and later). *)
Definition urlparse (url : string) : result (string * string) :=
  let url := remove_char (Ascii.ascii_of_nat 9)
               (remove_char (Ascii.ascii_of_nat 13)
                  (remove_char newline_char url)) in
  let url := (split_at (λ a, bool_decide (a = colon)) url).2 in
  let url := match url with String _ url' => url' | EmptyString => url end in
  let '(netloc, url) :=
    if String.prefix "//" url then
      split_at (λ a, bool_decide (a = slash) || bool_decide (a = question_mark)
                     || bool_decide (a = hash_sign))
        (match url with String _ (String _ url') => url' | _ => url end)
    else (EmptyString, url) in
  if xorb (has_char left_bracket netloc) (has_char right_bracket netloc) then
    Raised (ValueError "Invalid IPv6 URL")
  else
    match (if has_char left_bracket netloc then check_bracketed_host netloc
           else None) with
    | Some msg => Raised (ValueError msg)
    | None =>
        let url := (split_at (λ a, bool_decide (a = hash_sign)) url).1 in
        let url := (split_at (λ a, bool_decide (a = question_mark)) url).1 in
        Returned (netloc, splitparams url)
    end.

(** [GitHubClient.parse_org_name], github_client.py:63-108. *)
Definition parse_org_name (url : string) : result string :=
  let url :=
    if String.prefix "http://" url || String.prefix "https://" url then url
    else "https://" +:+ url in
  match urlparse url with
  | Raised e => Raised e
  | Returned (netloc, path) =>
      if negb (bool_decide (netloc = "github.com")
               || bool_decide (netloc = "www.github.com")) then
        Raised (ValueError ("Invalid GitHub URL: " +:+ url))
      else
        let path := strip_char slash path in
        let parts := split_char slash path in
        match parts with
        | [] | EmptyString :: _ =>
            Raised (ValueError ("No organization name found in URL: " +:+ url))
        | org_name :: _ =>
            if negb (re_match_org_name org_name) then
              Raised (ValueError
                        ("Invalid organization name format: " +:+ org_name))
            else Returned org_name
        end
  end.

End Parse.

Import requests.

Section Client.

(** [self.token]. *)
Variable token : option string.
Variable server : Server.

(** The headers of [self.session], github_client.py:58-61. *)
Definition session_headers : list (string * string) :=
  (if truthy token then [("Authorization", "token " +:+ default "" token)]
   else [])
  ++ [("Accept", "application/vnd.github.v3+json")].

(** The request for one page, github_client.py:128-136. *)
Definition page_request (org_name : string) (page : Z) : Request :=
  {| url := BASE_URL +:+ "/orgs/" +:+ org_name +:+ "/repos";
     params := [("per_page", pretty PER_PAGE);
                ("page", pretty page); ("type", "all")];
     headers := session_headers |}.

(** [Repository(name=repo_data["name"], ...)], github_client.py:177-184. *)
Definition to_repository (repo_data : RepoData) : fetched Repository :=
  match rd_name repo_data with
  | None => Failed (KeyError "name")
  | Some name =>
      match rd_clone_url repo_data with
      | None => Failed (KeyError "clone_url")
      | Some clone_url =>
          match rd_ssh_url repo_data with
          | None => Failed (KeyError "ssh_url")
          | Some ssh_url =>
              Fetched {| name := name; clone_url := clone_url;
                         ssh_url := ssh_url;
                         description := rd_description repo_data |}
          end
      end
  end.

(** The [for] loop of github_client.py:176-185. *)
Fixpoint append_repositories
    (repositories : list Repository) (repos_data : list RepoData)
  : fetched (list Repository) :=
  match repos_data with
  | [] => Fetched repositories
  | repo_data :: repos_data' =>
      match to_repository repo_data with
      | Failed e => Failed e
      | Fetched repo => append_repositories (repositories ++ [repo]) repos_data'
      end
  end.

(** The status codes that end the listing, github_client.py:143-163:
    the exception raised, if any. *)
Definition check_status (org_name : string) (response : Response)
  : option api_exception :=
  if (status_code response =? 404)%Z then
    Some (OrganizationNotFoundError
      ("Organization '" +:+ org_name +:+ "' not found. "
       +:+ "Please check the organization name and try again."))
  else if (status_code response =? 403)%Z then
    if contains "rate limit" (lower (text response)) then
      let reset_time := default "unknown" (x_ratelimit_reset response) in
      Some (RateLimitError
        ("GitHub API rate limit exceeded. "
         +:+ "Rate limit resets at: " +:+ reset_time +:+ ". "
         +:+ "Consider providing a GitHub token for higher limits."))
    else
      Some (GitHubAPIError ("Access forbidden (403): " +:+ text response))
  else if negb (status_code response =? 200)%Z then
    Some (GitHubAPIError
      ("GitHub API request failed with status "
       +:+ pretty (status_code response) +:+ ": " +:+ text response))
  else None.

(** ['rel="next"' in response.headers.get("Link", "")],
    github_client.py:189-190. *)
Definition announces_next (response : Response) : bool :=
  let link_header := default "" (link response) in
  contains ("rel=" +:+ double_quote +:+ "next" +:+ double_quote) link_header.

(** The [while True] loop of [list_org_repositories],
    github_client.py:127-192; [None] when [fuel] pages were not enough
    to reach its end. *)
Fixpoint fetch_pages
    (fuel : nat) (org_name : string) (page : Z)
    (repositories : list Repository)
  : option (fetched (list Repository)) :=
  match fuel with
  | O => None
  | S fuel' =>
      match server (page_request org_name page) with
      | RequestException msg =>
          Some (Failed (GitHubAPIError ("Failed to fetch repositories: " +:+ msg)))
      | Replied response =>
          match check_status org_name response with
          | Some e => Some (Failed e)
          | None =>
              match json response with
              | NotJSON msg =>
                  Some (Failed (GitHubAPIError
                    ("Failed to parse API response: " +:+ msg)))
              | JSON [] => Some (Fetched repositories)
              | JSON repos_data =>
                  match append_repositories repositories repos_data with
                  | Failed e => Some (Failed e)
                  | Fetched repositories =>
                      if negb (announces_next response)
                      then Some (Fetched repositories)
                      else fetch_pages fuel' org_name (page + 1)%Z repositories
                  end
              end
          end
      end
  end.

(** [GitHubClient.list_org_repositories], github_client.py:110-194. *)
Definition list_org_repositories (fuel : nat) (org_name : string)
  : option (fetched (list Repository)) :=
  fetch_pages fuel org_name 1 [].

End Client.

End GitHubClient.

(** Every character of a string has a property. *)
Fixpoint all_chars (P : Ascii.ascii → bool) (s : string) : bool :=
  match s with
  | EmptyString => true
  | String a s' => P a && all_chars P s'
  end.

(** The last character of a string. *)
Fixpoint last_char (s : string) : option Ascii.ascii :=
  match s with
  | EmptyString => None
  | String a EmptyString => Some a
  | String _ s' => last_char s'
  end.

(** A name in the format of GitHub organization names: letters, digits
    and hyphens, with a letter or a digit at both ends. *)
Definition org_name_format (s : string) : Prop :=
  all_chars (λ a, is_alnum a || bool_decide (a = hyphen)) s = true
  ∧ (∃ a s', s = String a s' ∧ is_alnum a = true)
  ∧ (∃ a, last_char s = Some a ∧ is_alnum a = true).

(** ** Configuration *)

Module Config.

(** The dataclass [Config], config.py:14-32. *)
Record Config := {
  base_dir : Path;
  github_token : option string;
  parallel : bool;
  max_workers : option Z;
  run_setup : bool;
  dry_run : bool;
}.

(** [Config.from_args], config.py:34-84.  [getenv] is [os.getenv]
    (after the [.env] file has been loaded) and [resolve] is
    [Path(...).expanduser().resolve()]. *)
Definition from_args
    (getenv : string → option string) (resolve : string → Path)
    (base_dir github_token : option string) (parallel : bool)
    (max_workers : option Z) (run_setup dry_run : bool)
  : result Config :=
  let final_base_dir := or_else base_dir (getenv "GITHUB_ORG_CLONE_BASE_DIR") in
  if negb (truthy final_base_dir) then
    Raised (ValueError
      ("Base directory must be provided via --base-dir flag, "
       +:+ "GITHUB_ORG_CLONE_BASE_DIR environment variable, or .env file"))
  else
    let final_token := or_else github_token (getenv "GITHUB_TOKEN") in
    Returned {| base_dir := resolve (default "" final_base_dir);
                github_token := final_token;
                parallel := parallel;
                max_workers := max_workers;
                run_setup := run_setup;
                dry_run := dry_run |}.

End Config.

(** ** The command line *)

(** What [parse_args] returns, cli.py:68-143. *)
Record Namespace := {
  args_org_url : option string;
  args_base_dir : option string;
  args_token : option string;
  args_parallel : bool;
  args_max_workers : option Z;
  args_run_setup : bool;
  args_dry_run : bool;
  args_verbose : bool;
}.

(** A function that returns a value or ends the process with
    [sys.exit(code)]. *)
Inductive or_exit (A : Type) :=
| Value (a : A)
| Exits (code : Z).
Arguments Value {A} a.
Arguments Exits {A} code.

(** [get_github_token], cli.py:35-65.  [typed] is what the user types
    at the prompt; [None] stands for an interrupt or the end of the
    input. *)
Definition get_github_token
    (getenv : string → option string) (typed : option string)
    (token_arg : option string)
  : option string :=
  if truthy token_arg then token_arg
  else
    let env_token := getenv "GITHUB_TOKEN" in
    if truthy env_token then env_token
    else
      match typed with
      | Some token =>
          if bool_decide (strip token = "") then None else Some token
      | None => None
      end.

(** [get_org_url], cli.py:146-167. *)
Definition get_org_url (typed : option string) (org_url_arg : option string)
  : or_exit string :=
  if truthy org_url_arg then Value (default "" org_url_arg)
  else
    match typed with
    | Some org_url =>
        if bool_decide (strip org_url = "") then Exits 1
        else Value (strip org_url)
    | None => Exits 1
    end.

(** Everything around one run of the program that the program does not
    decide. *)
Record Environment := {
  environ : string → option string;
  resolve : string → Path;
  host_check : string → option string;
  typed_org_url : option string;
  typed_token : option string;
  api : requests.Server;
  git_tool : Tool;
  shell : Shell;
  (* the order in which a [dict] hands out its items (the order of
     insertion) *)
  dict_items :
    gmap string (bool * option string) → list (string * (bool * option string));
  scheduling : Scheduling;
}.

(** How a run of [main] ends. *)
Inductive ending :=
| SystemExit (code : Z)
| Completes
| Uncaught (e : exception)
| UncaughtKeyError (key : string).

(** The exit status of the process. *)
Definition exit_status (e : ending) : Z :=
  match e with
  | SystemExit code => code
  | Completes => 0
  | Uncaught _ | UncaughtKeyError _ => 1
  end.

(** The rest of [main] once the repositories are listed,
    cli.py:229-266. *)
Definition clone_and_report
    (env : Environment) (config : Config.Config) (org_name : string)
    (repos : list Repository) (w : World)
  : ending * World :=
  match repos with
  | [] => (SystemExit 0, w)
  | _ :: _ =>
      match clone_all_repositories (git_tool env) repos org_name
              (Config.base_dir config) (Config.parallel config)
              (Config.max_workers config) (Config.dry_run config)
              (scheduling env) w with
      | (Raised e, w1) => (SystemExit 1, w1)
      | (Returned results, w1) =>
          let successful_repos :=
            (λ item, (Config.base_dir config / org_name / item.1)%path)
              <$> filter (λ item, item.2.1 = true) (dict_items env results) in
          let '(setup, w2) :=
            if Config.run_setup config && negb (Config.dry_run config) then
              match successful_repos with
              | [] => (Returned tt, w1)
              | _ :: _ =>
                  let '(_, r, w2) :=
                    run_setup_for_all (shell env) successful_repos true w1 in
                  (r, w2)
              end
            else (Returned tt, w1) in
          match setup with
          | Raised e => (Uncaught e, w2)
          | Returned _ =>
              let failed_repos :=
                fst <$> filter (λ item, item.2.1 = false)
                          (dict_items env results) in
              match failed_repos with
              | [] => (Completes, w2)
              | _ :: _ => (SystemExit 1, w2)
              end
          end
      end
  end.

(** [main], cli.py:170-266, from the parsed arguments on; [None] when
    [fuel] pages were not enough to list the repositories. *)
Definition main (env : Environment) (args : Namespace) (fuel : nat) (w : World)
  : option (ending * World) :=
  match get_org_url (typed_org_url env) (args_org_url args) with
  | Exits code => Some (SystemExit code, w)
  | Value org_url =>
      let github_token :=
        get_github_token (environ env) (typed_token env) (args_token args) in
      match Config.from_args (environ env) (resolve env) (args_base_dir args)
              github_token (args_parallel args) (args_max_workers args)
              (args_run_setup args) (args_dry_run args) with
      | Raised (ValueError _) => Some (SystemExit 1, w)
      | Raised e => Some (Uncaught e, w)
      | Returned config =>
          match GitHubClient.parse_org_name (host_check env) org_url with
          | Raised (ValueError _) => Some (SystemExit 1, w)
          | Raised e => Some (Uncaught e, w)
          | Returned org_name =>
              match GitHubClient.list_org_repositories
                      (Config.github_token config) (api env) fuel org_name with
              | None => None
              | Some (Failed (KeyError key)) => Some (UncaughtKeyError key, w)
              | Some (Failed _) => Some (SystemExit 1, w)
              | Some (Fetched repos) =>
                  Some (clone_and_report env config org_name repos w)
              end
          end
      end
  end.

(** ** Auxiliary notions for the statements about the rest of the program *)

(** What a dry run reports for a name, read off the filesystem. *)
Definition dry_outcome (w : World) (org_name : string) (base_dir : Path)
    (repo_name : string) : bool * option string :=
  if path_exists w (base_dir / org_name / repo_name)%path
  then (false, Some "Already exists") else (true, None).

(** The argument vector of the clone of a descriptor, cloner.py:58. *)
Definition clone_argv (org_name : string) (base_dir : Path) (repo : Repository)
  : list string :=
  ["git"; "clone"; clone_url repo;
   path_str (base_dir / org_name / name repo)%path].

(** Whether a task may still start the tool. *)
Definition may_run (t : task) : nat :=
  match t with
  | Finished _ => 0
  | _ => 1
  end.

(** The argument vector with which the setup script of a repository is
    run, setup_runner.py:34. *)
Definition setup_argv (repo_path : Path) : list string :=
  ["bash"; path_str (repo_path / "setup.sh")%path].

(** The number of bytes of a string in the encoding of the filesystem
    (UTF-8): one for a code point below 128, two for the others of this
    model. *)
Fixpoint utf8_size (s : string) : nat :=
  match s with
  | EmptyString => 0
  | String a s' => (if (code a <? 128)%N then 1 else 2) + utf8_size s'
  end.

(** A name that [pathlib] joins to a path as one component, the name
    itself: it is not empty, not [.] or [..], and has no separator and
    no NUL in it. *)
Definition plain_name (s : string) : bool :=
  negb (bool_decide (s = "")) && negb (bool_decide (s = "."))
  && negb (bool_decide (s = ".."))
  && negb (has_char slash s) && negb (has_char (Ascii.ascii_of_nat 0) s).

(** A path that [stat] does not refuse as too long (Linux: components
    of at most 255 bytes, paths of less than 4096). *)
Definition within_limits (p : Path) : bool :=
  forallb (λ c, bool_decide (utf8_size c ≤ 255)) p
  && bool_decide (utf8_size (path_str p) < 4096).

(** The target of [repo] is where the model has it, and [exists] can
    look it up. *)
Definition well_placed (base_dir : Path) (org_name : string)
    (repo : Repository) : bool :=
  plain_name org_name && plain_name (name repo)
  && within_limits (base_dir / org_name / name repo)%path.

(** The process was started, and what it printed is text. *)
Definition legible (b : Behaviour) : Prop :=
  match b with
  | Runs _ _ _ _ | Process _ _ (Text _) _ => True
  | _ => False
  end.


(** Whatever the process creates is at [target] or below it. *)
Definition confined (target : Path) (b : Behaviour) : Prop :=
  match b with
  | Process _ _ _ created =>
      ∀ q : Path, is_Some (created !! q) → target `prefix_of` q
  | _ => True
  end.

(** A process that exits with status 0 has created [target]. *)
Definition delivers (target : Path) (b : Behaviour) : Prop :=
  match b with
  | Process _ returncode _ created =>
      returncode = 0%Z → is_Some (created !! target)
  | _ => True
  end.

(** What may follow the name of the organization in a path: nothing,
    or a slash and anything. *)
Definition path_tail (s : string) : Prop :=
  s = "" ∨ ∃ s', s = String slash s'.

(** The server answers the request for page [page] of the listing with
    the descriptors [repos] (at least one), and announces a next page
    or not. *)
Definition serves_page
    (token : option string) (server : requests.Server) (org_name : string)
    (page : nat) (repos : list Repository) (more : bool)
  : Prop :=
  repos ≠ []
  ∧ ∃ response repos_data,
      server (GitHubClient.page_request token org_name (Z.of_nat page))
      = requests.Replied response
      ∧ requests.status_code response = 200%Z
      ∧ requests.json response = requests.JSON repos_data
      ∧ Forall2 (λ repo_data repo,
                   GitHubClient.to_repository repo_data = Fetched repo)
          repos_data repos
      ∧ GitHubClient.announces_next response = more.

(** Every task of a descriptor named [k] has not started, or it has
    found the target. *)
Definition skips (k : string) (repos : list Repository) (tasks : list task)
  : Prop :=
  ∀ i repo t, repos !! i = Some repo → name repo = k → tasks !! i = Some t →
    t = Queued ∨ t = Finished (Returned (k, false, Some "Already exists")).

(** What [clone_repository] hands back for a descriptor when it is
    called in the world [w]. *)
Definition outcome_at (git : Tool) (org_name : string) (base_dir : Path)
    (dry_run : bool) (w : World) (repo : Repository) : result CloneOutcome :=
  (clone_repository git repo org_name base_dir dry_run w).1.

(** Where a task of [repo] stands with respect to the world [w0] in
    which the batch started and the world [v] that it sees now. *)
Definition on_course (git : Tool) (org_name : string) (base_dir : Path)
    (dry_run : bool) (w0 v : World) (repo : Repository) (t : task) : Prop :=
  match t with
  | Queued =>
      fs v !! (base_dir / org_name / name repo)%path
      = fs w0 !! (base_dir / org_name / name repo)%path
  | Checked | Prepared =>
      path_exists w0 (base_dir / org_name / name repo)%path = false
      ∧ dry_run = false
  | Finished r => r = outcome_at git org_name base_dir dry_run w0 repo
  end.


(** What a task of [repo] has made of its target and of what lies
    below it so far: nothing before the tool has run; after it, what
    [clone_repository] makes of it in the world [w0] in which the batch
    started. *)
Definition settled (git : Tool) (org_name : string) (base_dir : Path)
    (dry_run : bool) (w0 v : World) (repo : Repository) (t : task) : Prop :=
  let target := (base_dir / org_name / name repo)%path in
  match t with
  | Queued => ∀ q : Path, target `prefix_of` q → fs v !! q = fs w0 !! q
  | Checked | Prepared =>
      (∀ q : Path, target `prefix_of` q → fs v !! q = fs w0 !! q)
      ∧ path_exists w0 target = false ∧ dry_run = false
  | Finished _ =>
      ∀ q : Path, target `prefix_of` q →
        fs v !! q
        = fs (clone_repository git repo org_name base_dir dry_run w0).2 !! q
  end.

(** ** Sample data for the rest of the program *)

(** Python before 3.11.4: a bracketed host is not checked. *)
Definition no_host_check : string → option string := λ _, None.

(** The world in which [repo_a] has been cloned and carries a
    [setup.sh] and a [package.json]. *)
Definition repo_a_with_setup : World :=
  {| fs := {[ [""] := Dir; [""; "tmp"] := Dir; [""; "tmp"; "testorg"] := Dir;
              [""; "tmp"; "testorg"; "repoA"] := Dir;
              [""; "tmp"; "testorg"; "repoA"; "setup.sh"] := File;
              [""; "tmp"; "testorg"; "repoA"; "package.json"] := File ]};
     calls := [] |}.


(** No shell at all. *)
Definition bash_missing : Shell := λ _ _ _, ShellNotFound.

(** What the API holds of a descriptor. *)
Definition repo_data_of (repo : Repository) : requests.RepoData :=
  {| requests.rd_name := Some (name repo);
     requests.rd_clone_url := Some (clone_url repo);
     requests.rd_ssh_url := Some (ssh_url repo);
     requests.rd_description := description repo |}.

Definition page_of (repos : list Repository) (link : option string)
  : requests.Reply :=
  requests.Replied
    {| requests.status_code := 200; requests.text := "";
       requests.json := requests.JSON (repo_data_of <$> repos);
       requests.x_ratelimit_reset := None; requests.link := link |}.

Definition link_to_page_2 : string :=
  "<https://api.github.com/organizations/1/repos?page=2>; rel="
  +:+ double_quote +:+ "next" +:+ double_quote.

(** A server that holds [repo_a] and [repo_b] on the first page and
    [repo_c] on the second and last. *)
Definition two_pages : requests.Server := λ request,
  if bool_decide (requests.params request !! 1 = Some ("page", "1")) then
    page_of [repo_a; repo_b] (Some link_to_page_2)
  else page_of [repo_c] None.

(** A server that runs out of its rate limit after the first page. *)
Definition rate_limited_response : requests.Response :=
  {| requests.status_code := 403;
     requests.text := "API Rate Limit exceeded for 203.0.113.7";
     requests.json := requests.NotJSON "Expecting value";
     requests.x_ratelimit_reset := Some "1700000000";
     requests.link := None |}.

Definition rate_limited : requests.Server := λ request,
  if bool_decide (requests.params request !! 1 = Some ("page", "1")) then
    page_of [repo_a; repo_b] (Some link_to_page_2)
  else requests.Replied rate_limited_response.

(** A machine with a working [git], no shell, and the base directory
    in the environment. *)
Definition sample_environment : Environment :=
  {| environ := λ key,
       if bool_decide (key = "GITHUB_ORG_CLONE_BASE_DIR") then Some "/tmp"
       else None;
     resolve := λ _, tmp;
     host_check := no_host_check;
     typed_org_url := None;
     typed_token := Some "";
     api := two_pages;
     git_tool := git_ok;
     shell := bash_missing;
     dict_items := map_to_list;
     scheduling := interleaved |}.

(** The same machine with a [git] that makes checkouts. *)
Definition checkout_environment : Environment :=
  {| environ := environ sample_environment;
     resolve := resolve sample_environment;
     host_check := no_host_check;
     typed_org_url := None;
     typed_token := Some "";
     api := two_pages;
     git_tool := git_real;
     shell := bash_missing;
     dict_items := map_to_list;
     scheduling := interleaved |}.

Definition sample_config : Config.Config :=
  {| Config.base_dir := tmp; Config.github_token := None;
     Config.parallel := true; Config.max_workers := Some 2%Z;
     Config.run_setup := false; Config.dry_run := false |}.

(** [--dry-run --run-setup https://github.com/testorg]. *)
Definition dry_run_arguments : Namespace :=
  {| args_org_url := Some "https://github.com/testorg";
     args_base_dir := None; args_token := None; args_parallel := false;
     args_max_workers := None; args_run_setup := true; args_dry_run := true;
     args_verbose := false |}.

(** ** Paths and the filesystem *)

Lemma parent_join (p : Path) (c : string) : parent (p / c)%path = p.
Proof. unfold parent, path_join. apply removelast_last. Qed.

Lemma path_exists_true (w : World) (p : Path) :
  path_exists w p = true ↔ is_Some (fs w !! p).
Proof. unfold path_exists. apply bool_decide_eq_true. Qed.


(** ** The single-item cloner *)

Lemma after_run_name (repo : Repository) (r : run_result) n s d :
  after_run repo r = Returned (n, s, d) → n = name repo.
Proof. destruct r; simpl; intros; by simplify_eq. Qed.

(** Only a run that completed is reported as a success. *)
Lemma after_run_success (repo : Repository) (r : run_result) n d :
  after_run repo r = Returned (n, true, d) → r = Completed.
Proof. destruct r; simpl; intros; by simplify_eq. Qed.

Section ClonerFacts.

Variable git : Tool.

(** The first component of an outcome is always the descriptor's
    own name. *)
Lemma clone_repository_name repo org_name base_dir dry_run w n s d w' :
  clone_repository git repo org_name base_dir dry_run w = (Returned (n, s, d), w') →
  n = name repo.
Proof.
  unfold clone_repository. intros H.
  repeat (case_match; simplify_eq); done.
Qed.

(** The first early return, cloner.py:42-44. *)
Lemma clone_repository_exists repo org_name base_dir dry_run w :
  is_Some (fs w !! (base_dir / org_name / name repo)%path) →
  clone_repository git repo org_name base_dir dry_run w
  = (Returned (name repo, false, Some "Already exists"), w).
Proof.
  intros Hthere%path_exists_true. unfold clone_repository. by rewrite Hthere.
Qed.

(** Past the two early returns, the outcome is read off the tool run. *)
Lemma clone_repository_runs repo org_name base_dir w w1 :
  path_exists w (base_dir / org_name / name repo)%path = false →
  mkdir (base_dir / org_name)%path w = (Returned tt, w1) →
  clone_repository git repo org_name base_dir false w
  = let '(r, w2) :=
      subprocess_run_git_clone git (clone_url repo)
        (base_dir / org_name / name repo)%path 300%N w1 in
    (after_run repo r, w2).
Proof.
  intros Hfresh Hmk. unfold clone_repository.
  rewrite Hfresh, parent_join, Hmk.
  destruct (subprocess_run_git_clone _ _ _ _ _) as [[] w2]; done.
Qed.

(** Three uninterrupted steps of a task are one call of
    [clone_repository]. *)
Lemma step_task_thrice repo org_name base_dir dry_run w :
  (let '(t1, w1) := step_task git repo org_name base_dir dry_run Queued w in
   let '(t2, w2) := step_task git repo org_name base_dir dry_run t1 w1 in
   step_task git repo org_name base_dir dry_run t2 w2)
  = let '(r, w') := clone_repository git repo org_name base_dir dry_run w in
    (Finished r, w').
Proof.
  unfold clone_repository. simpl.
  destruct (path_exists _ _); [done|].
  destruct dry_run; [done|]. simpl.
  destruct (mkdir _ w) as [[[]|e] w1]; [|done]. simpl.
  destruct (subprocess_run_git_clone _ _ _ _ _) as [[] w2]; done.
Qed.

(** In every outcome the detail is unset exactly when [success] is
    true. *)
Lemma clone_repository_detail repo org_name base_dir dry_run w n s d w' :
  clone_repository git repo org_name base_dir dry_run w
    = (Returned (n, s, d), w') →
  d = None ↔ s = true.
Proof.
  unfold clone_repository. intros H.
  repeat (case_match; simplify_eq); done.
Qed.

Lemma clone_repository_dry_run repo org_name base_dir w :
  ∃ s d,
    clone_repository git repo org_name base_dir true w
    = (Returned (name repo, s, d), w).
Proof. unfold clone_repository. case_match; eauto. Qed.

End ClonerFacts.

Section DryRun.

Variable git : Tool.

Lemma clone_sequentially_dry_run repos org_name base_dir repo_name results w :
  ∃ r,
    clone_sequentially git repos org_name base_dir true repo_name results w
    = (Returned r, w).
Proof.
  revert repo_name results.
  induction repos as [|repo repos IH]; intros repo_name results; simpl.
  - eauto.
  - destruct (clone_repository_dry_run git repo org_name base_dir w)
      as (s & d & ->).
    apply IH.
Qed.

(** In a dry run a task finishes in its first step: no task is ever
    between the existence test and the tool run. *)
Lemma step_task_dry_run repo org_name base_dir t w :
  at_rest t →
  ∃ t', step_task git repo org_name base_dir true t w = (t', w) ∧ at_rest t'.
Proof.
  destruct t; simpl; try done; intros _.
  - repeat case_match; eexists; split; done.
  - eexists; split; done.
Qed.

Lemma run_workers_dry_run repos org_name base_dir schedule tasks w :
  Forall at_rest tasks →
  ∃ tasks',
    run_workers git repos org_name base_dir true schedule tasks w = (tasks', w).
Proof.
  revert tasks.
  induction schedule as [|i schedule IH]; intros tasks Hrest; simpl.
  - eauto.
  - destruct (repos !! i) as [repo|]; [|by apply IH].
    destruct (tasks !! i) as [t|] eqn:Ht; [|by apply IH].
    destruct (step_task_dry_run repo org_name base_dir t w) as (t' & -> & Ht').
    { eapply Forall_lookup_1; eauto. }
    apply IH. by apply Forall_insert.
Qed.

End DryRun.



(** C5.  When the target path already exists, as a file or as a
    directory, [clone_repository] returns [(name, false, "Already
    exists")] and leaves the world as it was (nothing is created, the
    tool is not invoked), whatever [dry_run] is. *)
Theorem existing_target_is_skipped
    (git : Tool) (repo : Repository) (org_name : string) (base_dir : Path)
    (dry_run : bool) (w : World) (kind : node) :
  fs w !! (base_dir / org_name / name repo)%path = Some kind →
  clone_repository git repo org_name base_dir dry_run w
    = (Returned (name repo, false, Some "Already exists"), w).
Proof.
  intros Hthere. apply clone_repository_exists. eauto.
Qed.

Lemma existing_target_is_skipped_witness :
  fs file_at_repo_a !! (tmp / "testorg" / name repo_a)%path = Some File
  ∧ clone_repository git_ok repo_a "testorg" tmp false file_at_repo_a
    = (Returned ("repoA", false, Some "Already exists"), file_at_repo_a).
Proof.
  split; [reflexivity|].
  apply (existing_target_is_skipped git_ok repo_a "testorg" tmp false
           file_at_repo_a File).
  reflexivity.
Defined.




(** ** Nothing is ever removed from the filesystem *)

Lemma add_dir_subseteq (p : Path) (m : gmap Path node) : m ⊆ add_dir p m.
Proof.
  unfold add_dir. destruct (m !! p) eqn:Hp; [done|].
  by apply insert_subseteq.
Qed.

Lemma add_dir_lookup (p : Path) (m : gmap Path node) : is_Some (add_dir p m !! p).
Proof.
  unfold add_dir. destruct (m !! p) eqn:Hp.
  - rewrite Hp. eauto.
  - rewrite lookup_insert_eq. eauto.
Qed.

Lemma mkdir_levels_subseteq (sofar : Path) (rest : list string)
    (m m' : gmap Path node) :
  mkdir_levels sofar rest m = Returned m' → m ⊆ m'.
Proof.
  revert sofar m.
  induction rest as [|c rest IH]; intros sofar m; simpl.
  - intros [= ->]. done.
  - destruct (m !! (sofar / c)%path) as [[]|] eqn:Hp; [done| |].
    + apply IH.
    + intros Hrec. apply IH in Hrec.
      etrans; [|exact Hrec]. by apply insert_subseteq.
Qed.

(** A [mkdir] that has succeeded once succeeds again, and changes
    nothing, in every later state of the filesystem. *)
Lemma mkdir_levels_again (sofar : Path) (rest : list string)
    (m m' m2 : gmap Path node) :
  mkdir_levels sofar rest m = Returned m' → m' ⊆ m2 →
  mkdir_levels sofar rest m2 = Returned m2.
Proof.
  revert sofar m.
  induction rest as [|c rest IH]; intros sofar m; simpl; [done|].
  intros Hmk Hincl.
  destruct (m !! (sofar / c)%path) as [[]|] eqn:Hp; [done| |].
  - assert (m2 !! (sofar / c)%path = Some Dir) as ->; [|by eauto].
    eapply lookup_weaken; [|exact Hincl].
    eapply lookup_weaken; [exact Hp|]. by eapply mkdir_levels_subseteq.
  - assert (m2 !! (sofar / c)%path = Some Dir) as ->; [|by eauto].
    eapply lookup_weaken; [|exact Hincl].
    eapply lookup_weaken; [|by eapply mkdir_levels_subseteq].
    apply lookup_insert_eq.
Qed.

Lemma mkdir_subseteq (p : Path) (w w' : World) (r : result unit) :
  mkdir p w = (r, w') → fs w ⊆ fs w' ∧ calls w' = calls w.
Proof.
  unfold mkdir. destruct (mkdir_levels [] p (fs w)) as [m|e] eqn:Hmk.
  - intros [= <- <-]. simpl. split; [|done]. by eapply mkdir_levels_subseteq.
  - intros [= <- <-]. done.
Qed.

Lemma mkdir_again (p : Path) (w w1 w2 : World) :
  mkdir p w = (Returned tt, w1) → fs w1 ⊆ fs w2 →
  mkdir p w2 = (Returned tt, w2).
Proof.
  unfold mkdir. destruct (mkdir_levels [] p (fs w)) as [m|e] eqn:Hmk; [|done].
  intros [= <-] Hincl. simpl in Hincl.
  rewrite (mkdir_levels_again [] p (fs w) m (fs w2) Hmk Hincl).
  by destruct w2.
Qed.

Section Persistence.

Variable git : Tool.

Lemma subprocess_run_subseteq url target timeout w r w' :
  subprocess_run_git_clone git url target timeout w = (r, w') →
  fs w ⊆ fs w'.
Proof.
  unfold subprocess_run_git_clone. intros H.
  repeat (case_match; simplify_eq); simpl;
    first [done | apply add_dir_subseteq | apply map_union_subseteq_l].
Qed.

(** After a run that completed, the target is there, if the tool is
    one that makes its target when it exits with status 0. *)
Lemma subprocess_run_completed url target timeout w w' :
  delivers target (git ["git"; "clone"; url; path_str target] w) →
  subprocess_run_git_clone git url target timeout w = (Completed, w') →
  is_Some (fs w' !! target).
Proof.
  unfold subprocess_run_git_clone, delivers. intros Hdelivers H.
  destruct (git _ w) as [| |seconds returncode stderr leaves
                         |seconds returncode output created].
  - done.
  - done.
  - repeat (case_match; simplify_eq); simpl. apply add_dir_lookup.
  - repeat (case_match; simplify_eq); simpl.
    apply lookup_union_is_Some. right. apply Hdelivers. by apply Z.eqb_eq.
Qed.

Lemma clone_repository_subseteq repo org_name base_dir dry_run w r w' :
  clone_repository git repo org_name base_dir dry_run w = (r, w') →
  fs w ⊆ fs w'.
Proof.
  unfold clone_repository. intros H.
  destruct (path_exists _ _); [by simplify_eq|].
  destruct dry_run; [by simplify_eq|].
  destruct (mkdir _ w) as [[[]|e] w1] eqn:Hmk;
    apply mkdir_subseteq in Hmk as [Hsub _]; [|by simplify_eq].
  destruct (subprocess_run_git_clone _ _ _ _ _) as [rr w2] eqn:Hrun.
  apply subprocess_run_subseteq in Hrun.
  assert (w' = w2) as -> by (destruct rr; by simplify_eq).
  by etrans.
Qed.

(** A reported success of a real run means the target exists (for
    such a tool). *)
Lemma clone_repository_success repo org_name base_dir w n d w' :
  (∀ v, delivers (base_dir / org_name / name repo)%path
          (git (clone_argv org_name base_dir repo) v)) →
  clone_repository git repo org_name base_dir false w
    = (Returned (n, true, d), w') →
  is_Some (fs w' !! (base_dir / org_name / n)%path).
Proof.
  unfold clone_repository. intros Hdelivers H.
  destruct (path_exists _ _); [by simplify_eq|].
  destruct (mkdir _ w) as [[[]|e] w1] eqn:Hmk; [|by simplify_eq].
  destruct (subprocess_run_git_clone _ _ _ _ _) as [rr w2] eqn:Hrun.
  destruct rr; simplify_eq.
  eapply subprocess_run_completed; [|done]. apply Hdelivers.
Qed.

Lemma step_task_subseteq repo org_name base_dir dry_run t w t' w' :
  step_task git repo org_name base_dir dry_run t w = (t', w') →
  fs w ⊆ fs w'.
Proof.
  unfold step_task. intros H. destruct t.
  - repeat (case_match; simplify_eq); done.
  - destruct (mkdir _ w) as [[[]|e] w1] eqn:Hmk;
      apply mkdir_subseteq in Hmk as [Hsub _]; by simplify_eq.
  - destruct (subprocess_run_git_clone _ _ _ _ _) as [rr w2] eqn:Hrun.
    apply subprocess_run_subseteq in Hrun. by simplify_eq.
  - by simplify_eq.
Qed.

Lemma run_workers_subseteq repos org_name base_dir dry_run schedule tasks w
    tasks' w' :
  run_workers git repos org_name base_dir dry_run schedule tasks w
    = (tasks', w') →
  fs w ⊆ fs w'.
Proof.
  revert tasks w.
  induction schedule as [|i schedule IH]; intros tasks w; simpl.
  - by intros [= <- <-].
  - destruct (repos !! i) as [repo|]; [|by apply IH].
    destruct (tasks !! i) as [t|]; [|by apply IH].
    destruct (step_task _ _ _ _ _ _ _) as [t1 w1] eqn:Hstep.
    apply step_task_subseteq in Hstep.
    intros Hrest. apply IH in Hrest. by etrans.
Qed.

Lemma clone_sequentially_subseteq repos org_name base_dir dry_run repo_name
    results w r w' :
  clone_sequentially git repos org_name base_dir dry_run repo_name results w
    = (r, w') →
  fs w ⊆ fs w'.
Proof.
  revert repo_name results w.
  induction repos as [|repo repos IH]; intros repo_name results w; simpl.
  - by intros [= <- <-].
  - destruct (clone_repository _ _ _ _ _ _) as [[[[n s] d]|e] w1] eqn:Hclone;
      apply clone_repository_subseteq in Hclone.
    + intros Hrest. apply IH in Hrest. by etrans.
    + destruct repo_name as [key|].
      * intros Hrest. apply IH in Hrest. by etrans.
      * by intros [= <- <-].
Qed.

End Persistence.

(** ** The worker pool *)

Section Pool.

Variable git : Tool.
Variables (repos : list Repository) (org_name : string) (base_dir : Path).
Variable dry_run : bool.

Lemma run_workers_app schedule1 schedule2 tasks w :
  run_workers git repos org_name base_dir dry_run (schedule1 ++ schedule2) tasks w
  = let '(tasks1, w1) :=
      run_workers git repos org_name base_dir dry_run schedule1 tasks w in
    run_workers git repos org_name base_dir dry_run schedule2 tasks1 w1.
Proof.
  revert tasks w.
  induction schedule1 as [|i schedule1 IH]; intros tasks w; simpl; [done|].
  destruct (repos !! i) as [repo|]; [|by apply IH].
  destruct (tasks !! i) as [t|]; [|by apply IH].
  destruct (step_task _ _ _ _ _ _ _) as [t1 w1]. apply IH.
Qed.

(** Induction over the steps of a run. *)
Lemma run_workers_invariant (I : list task → World → Prop) schedule tasks w
    tasks' w' :
  (∀ i repo t ts v t1 v1,
      repos !! i = Some repo → ts !! i = Some t → I ts v →
      step_task git repo org_name base_dir dry_run t v = (t1, v1) →
      I (<[i := t1]> ts) v1) →
  I tasks w →
  run_workers git repos org_name base_dir dry_run schedule tasks w
    = (tasks', w') →
  I tasks' w'.
Proof.
  intros Hstep. revert tasks w.
  induction schedule as [|i schedule IH]; intros tasks w HI; simpl.
  - by intros [= <- <-].
  - destruct (repos !! i) as [repo|] eqn:Hrepo; [|by apply IH].
    destruct (tasks !! i) as [t|] eqn:Ht; [|by apply IH].
    destruct (step_task _ _ _ _ _ _ _) as [t1 w1] eqn:Hs.
    apply IH. eapply Hstep; eauto.
Qed.

Lemma run_workers_length schedule tasks w tasks' w' :
  run_workers git repos org_name base_dir dry_run schedule tasks w
    = (tasks', w') →
  length tasks' = length tasks.
Proof.
  apply (run_workers_invariant (λ ts _, length ts = length tasks)); [|done].
  intros i repo t ts v t1 v1 _ _ Hlen _. by rewrite length_insert.
Qed.

Lemma step_task_steps_left repo t w t1 w1 :
  step_task git repo org_name base_dir dry_run t w = (t1, w1) →
  steps_left t1 ≤ pred (steps_left t).
Proof.
  unfold step_task. intros H.
  destruct t; repeat (case_match; simplify_eq); simplify_eq; simpl; lia.
Qed.

(** The steps a task has left never increase ... *)
Lemma run_workers_steps_left schedule tasks w tasks' w' j t :
  run_workers git repos org_name base_dir dry_run schedule tasks w
    = (tasks', w') →
  tasks !! j = Some t →
  ∃ t', tasks' !! j = Some t' ∧ steps_left t' ≤ steps_left t.
Proof.
  intros Hrun Hj.
  apply (run_workers_invariant
           (λ ts _, ∃ t', ts !! j = Some t' ∧ steps_left t' ≤ steps_left t)
           schedule tasks w tasks' w'); [|by eauto|done].
  intros i repo t0 ts v t1 v1 _ Hi (t' & Hj' & Hle) Hstep.
  destruct (decide (i = j)) as [->|Hne].
  - exists t1. split.
    + apply list_lookup_insert_eq. by eapply lookup_lt_Some.
    + apply step_task_steps_left in Hstep. simplify_eq. lia.
  - exists t'. by rewrite list_lookup_insert_ne.
Qed.

(** ... and three steps of its own finish a task. *)
Lemma run_workers_thrice i repo tasks w tasks' w' t :
  repos !! i = Some repo → tasks !! i = Some t →
  run_workers git repos org_name base_dir dry_run [i; i; i] tasks w
    = (tasks', w') →
  ∃ t', tasks' !! i = Some t' ∧ steps_left t' = 0.
Proof.
  intros Hrepo Ht. simpl. rewrite Hrepo, Ht.
  assert (i < length tasks) as Hlt by (eapply lookup_lt_Some; done).
  destruct (step_task _ _ _ _ _ t w) as [t1 w1] eqn:H1.
  rewrite list_lookup_insert_eq by done.
  destruct (step_task _ _ _ _ _ t1 w1) as [t2 w2] eqn:H2.
  rewrite list_lookup_insert_eq by (rewrite length_insert; done).
  destruct (step_task _ _ _ _ _ t2 w2) as [t3 w3] eqn:H3.
  intros [= <- <-]. exists t3. split.
  - apply list_lookup_insert_eq. by rewrite !length_insert.
  - apply step_task_steps_left in H1, H2, H3.
    destruct t; simpl in *; lia.
Qed.

Lemma run_workers_join indices tasks w tasks' w' :
  length tasks = length repos →
  run_workers git repos org_name base_dir dry_run
    (i ← indices; [i; i; i]) tasks w = (tasks', w') →
  ∀ i, i ∈ indices → i < length repos →
       ∃ t', tasks' !! i = Some t' ∧ steps_left t' = 0.
Proof.
  revert tasks w.
  induction indices as [|i0 indices IH]; intros tasks w Hlen Hrun i Hin Hlt.
  - by apply elem_of_nil in Hin.
  - rewrite bind_cons, run_workers_app in Hrun.
    destruct (run_workers _ _ _ _ _ [i0; i0; i0] tasks w)
      as [tasks1 w1] eqn:Hfirst.
    assert (length tasks1 = length repos) as Hlen1.
    { apply run_workers_length in Hfirst. congruence. }
    apply elem_of_cons in Hin as [->|Hin]; [|by eapply IH].
    destruct (lookup_lt_is_Some_2 repos i0 Hlt) as [repo Hrepo].
    destruct (lookup_lt_is_Some_2 tasks i0) as [t Ht]; [lia|].
    destruct (run_workers_thrice i0 repo tasks w tasks1 w1 t Hrepo Ht Hfirst)
      as (t1 & Ht1 & Hzero).
    destruct (run_workers_steps_left _ _ _ _ _ i0 t1 Hrun Ht1)
      as (t' & Ht' & Hle).
    exists t'. split; [done|lia].
Qed.

(** Whatever the interleaving, when the pool is left every task has
    finished. *)
Lemma run_workers_all_finished schedule tasks w tasks' w' :
  length tasks = length repos →
  run_workers git repos org_name base_dir dry_run
    (schedule ++ join_all (length repos)) tasks w = (tasks', w') →
  ∀ i, i < length repos → ∃ r, tasks' !! i = Some (Finished r).
Proof.
  intros Hlen Hrun i Hlt. rewrite run_workers_app in Hrun.
  destruct (run_workers _ _ _ _ _ schedule tasks w) as [tasks1 w1] eqn:H1.
  apply run_workers_length in H1.
  destruct (run_workers_join (seq 0 (length repos)) tasks1 w1 tasks' w'
              ltac:(congruence) Hrun i) as (t' & Ht' & Hzero); [|done|].
  { apply elem_of_seq. lia. }
  destruct t'; simpl in Hzero; try lia. eauto.
Qed.

(** A finished task that returned carries the name of its own
    descriptor. *)
Lemma run_workers_names schedule tasks w tasks' w' :
  (∀ i repo n s d, repos !! i = Some repo →
     tasks !! i = Some (Finished (Returned (n, s, d))) → n = name repo) →
  run_workers git repos org_name base_dir dry_run schedule tasks w
    = (tasks', w') →
  ∀ i repo n s d, repos !! i = Some repo →
    tasks' !! i = Some (Finished (Returned (n, s, d))) → n = name repo.
Proof.
  apply (run_workers_invariant
           (λ ts _, ∀ i repo n s d, repos !! i = Some repo →
              ts !! i = Some (Finished (Returned (n, s, d))) → n = name repo)).
  intros i repo t ts v t1 v1 Hrepo Hi HI Hstep j repo' n s d Hrepo' Hj.
  destruct (decide (i = j)) as [->|Hne].
  - rewrite list_lookup_insert_eq in Hj by (eapply lookup_lt_Some; done).
    simplify_eq. unfold step_task in Hstep.
    destruct t; repeat (case_match; simplify_eq); try done.
    + by eapply after_run_name.
    + simplify_eq. eauto.
  - rewrite list_lookup_insert_ne in Hj by done. eauto.
Qed.

End Pool.

(** ** Collecting the futures *)

Section Collect.

Variables (repos : list Repository) (tasks : list task).

Lemma collect_completed_app order1 order2 results :
  collect_completed repos tasks (order1 ++ order2) results
  = collect_completed repos tasks order2
      (collect_completed repos tasks order1 results).
Proof.
  revert results. induction order1 as [|i order1 IH]; intros results; simpl.
  - done.
  - repeat case_match; apply IH.
Qed.

Lemma collect_completed_one i results :
  collect_completed repos tasks [i] results
  = match repos !! i, tasks !! i with
    | Some repo, Some (Finished r) =>
        <[(entry_of repo r).1 := (entry_of repo r).2]> results
    | _, _ => results
    end.
Proof. simpl. unfold entry_of. repeat case_match; simplify_eq; done. Qed.


(** Every entry of the mapping was there before or was written for
    one of the futures handed out. *)
Lemma collect_completed_lookup order results k v :
  collect_completed repos tasks order results !! k = Some v →
  results !! k = Some v
  ∨ ∃ i repo r, i ∈ order ∧ repos !! i = Some repo
                ∧ tasks !! i = Some (Finished r) ∧ entry_of repo r = (k, v).
Proof.
  induction order as [|i order IH] using rev_ind; [by left|].
  assert (collect_completed repos tasks order results !! k = Some v →
          results !! k = Some v
          ∨ ∃ j repo r, j ∈ order ++ [i] ∧ repos !! j = Some repo
              ∧ tasks !! j = Some (Finished r) ∧ entry_of repo r = (k, v))
    as Hearlier.
  { intros H. destruct (IH H) as [?|(j & repo & r & Hj & ?)]; [by left|].
    right. exists j, repo, r. split; [|done]. apply elem_of_app. by left. }
  rewrite collect_completed_app, collect_completed_one.
  destruct (repos !! i) as [repo|] eqn:Hrepo; [|done].
  destruct (tasks !! i) as [[| | |r]|] eqn:Ht; try done.
  destruct (entry_of repo r) as [k' v'] eqn:Hentry. simpl.
  destruct (decide (k' = k)) as [->|Hne].
  - rewrite lookup_insert_eq. intros [= ->].
    right. exists i, repo, r. split; [|done].
    apply elem_of_app. right. by apply list_elem_of_singleton.
  - by rewrite lookup_insert_ne.
Qed.

(** Every future handed out leaves an entry under its key. *)
Lemma collect_completed_is_Some order results i repo r :
  i ∈ order → repos !! i = Some repo → tasks !! i = Some (Finished r) →
  is_Some (collect_completed repos tasks order results !! (entry_of repo r).1).
Proof.
  intros Hin Hrepo Ht. revert results.
  induction order as [|j order IH]; intros results;
    [by apply elem_of_nil in Hin|].
  assert (∀ order' results',
            is_Some (results' !! (entry_of repo r).1) →
            is_Some (collect_completed repos tasks order' results'
                       !! (entry_of repo r).1)) as Hkeep.
  { clear. induction order' as [|j order' IH']; intros results' Hk; simpl;
      [done|].
    repeat case_match; apply IH'; try done.
    all: apply lookup_insert_is_Some'; by right. }
  change (j :: order) with ([j] ++ order).
  rewrite collect_completed_app.
  apply elem_of_cons in Hin as [->|Hin]; [|by apply IH].
  apply Hkeep. rewrite collect_completed_one, Hrepo, Ht.
  rewrite lookup_insert_eq. eauto.
Qed.

End Collect.

(** ** The sequential loop *)

Section Sequential.

Variable git : Tool.
Variables (org_name : string) (base_dir : Path).


(** The keys of the mapping are names of descriptors. *)
Lemma clone_sequentially_keys (names : gset string) repos dry_run repo_name
    results w r w' :
  (∀ repo, repo ∈ repos → name repo ∈ names) →
  (∀ key, repo_name = Some key → key ∈ names) →
  dom results ⊆ names →
  clone_sequentially git repos org_name base_dir dry_run repo_name results w
    = (Returned r, w') →
  dom r ⊆ names.
Proof.
  revert repo_name results w.
  induction repos as [|repo repos IH];
    intros repo_name results w Hnames Hvar Hdom; simpl.
  - by intros [= <- <-].
  - assert (name repo ∈ names) as Hrepo by (apply Hnames; left).
    assert (∀ repo', repo' ∈ repos → name repo' ∈ names) as Hrest
      by (intros; apply Hnames; by right).
    destruct (clone_repository _ repo _ _ _ _) as [[[[n s] d]|e] w1] eqn:Hclone.
    + apply clone_repository_name in Hclone as ->.
      apply IH; [done|by intros ? [= <-]|].
      rewrite dom_insert. apply union_subseteq. split; [|done].
      by apply singleton_subseteq_l.
    + destruct repo_name as [key|]; [|done].
      apply IH; [done|done|].
      rewrite dom_insert. apply union_subseteq. split; [|done].
      apply singleton_subseteq_l. by apply Hvar.
Qed.

(** After a real run, every entry that reports a success names a
    target that exists. *)
Lemma clone_sequentially_successes repos repo_name results w r w' :
  (∀ repo v, repo ∈ repos →
     delivers (base_dir / org_name / name repo)%path
       (git (clone_argv org_name base_dir repo) v)) →
  (∀ k d, results !! k = Some (true, d) →
          is_Some (fs w !! (base_dir / org_name / k)%path)) →
  clone_sequentially git repos org_name base_dir false repo_name results w
    = (Returned r, w') →
  ∀ k d, r !! k = Some (true, d) →
         is_Some (fs w' !! (base_dir / org_name / k)%path).
Proof.
  revert repo_name results w.
  induction repos as [|repo repos IH]; intros repo_name results w Hdelivers Hinv;
    simpl.
  - by intros [= <- <-].
  - assert (∀ repo' v, repo' ∈ repos →
              delivers (base_dir / org_name / name repo')%path
                (git (clone_argv org_name base_dir repo') v)) as Hrest
      by (intros; apply Hdelivers; by right).
    destruct (clone_repository _ repo _ _ _ _) as [[[[n s] d]|e] w1] eqn:Hclone.
    + apply IH; [done|]. intros k d' Hk.
      destruct (decide (n = k)) as [->|Hne].
      * rewrite lookup_insert_eq in Hk. simplify_eq.
        eapply clone_repository_success; [|done].
        intros v. apply Hdelivers. left.
      * rewrite lookup_insert_ne in Hk by done.
        apply clone_repository_subseteq in Hclone.
        destruct (Hinv k d' Hk) as [kind Hkind].
        exists kind. by eapply lookup_weaken.
    + destruct repo_name as [key|]; [|done].
      apply IH; [done|]. intros k d' Hk.
      destruct (decide (key = k)) as [->|Hne].
      * by rewrite lookup_insert_eq in Hk.
      * rewrite lookup_insert_ne in Hk by done.
        apply clone_repository_subseteq in Hclone.
        destruct (Hinv k d' Hk) as [kind Hkind].
        exists kind. by eapply lookup_weaken.
Qed.

(** When every target exists, every descriptor is skipped and the
    world stays as it is. *)
Lemma clone_sequentially_all_exist repos dry_run repo_name results w :
  (∀ repo, repo ∈ repos →
           is_Some (fs w !! (base_dir / org_name / name repo)%path)) →
  ∃ r,
    clone_sequentially git repos org_name base_dir dry_run repo_name results w
      = (Returned r, w)
    ∧ ∀ k, r !! k = if decide (k ∈ name <$> repos)
                    then Some (false, Some "Already exists")
                    else results !! k.
Proof.
  revert repo_name results.
  induction repos as [|repo repos IH]; intros repo_name results Hall.
  - exists results. split; [done|]. intros k.
    case_decide as Hk; [|done]. by apply elem_of_nil in Hk.
  - cbn [clone_sequentially].
    rewrite (clone_repository_exists git repo org_name base_dir dry_run w)
      by (apply Hall; left).
    destruct (IH (Some (name repo))
                (<[name repo := (false, Some "Already exists")]> results))
      as (r & -> & Hr).
    { intros repo' Hin. apply Hall. by right. }
    exists r. split; [done|]. intros k. rewrite Hr. rewrite fmap_cons.
    destruct (decide (k ∈ name <$> repos)) as [Hin|Hnotin].
    + rewrite decide_True; [done|]. by right.
    + destruct (decide (name repo = k)) as [<-|Hne].
      * rewrite lookup_insert_eq. rewrite decide_True; [done|]. left.
      * rewrite lookup_insert_ne by done.
        rewrite decide_False; [done|].
        intros [?|?]%elem_of_cons; done.
Qed.

End Sequential.


(** ** Successes and skips in the pool *)

Section PoolRuns.

Variable git : Tool.
Variables (repos : list Repository) (org_name : string) (base_dir : Path).

Lemma run_workers_successes schedule tasks w tasks' w' :
  (∀ repo v, repo ∈ repos →
     delivers (base_dir / org_name / name repo)%path
       (git (clone_argv org_name base_dir repo) v)) →
  (∀ i n d, tasks !! i = Some (Finished (Returned (n, true, d))) →
            is_Some (fs w !! (base_dir / org_name / n)%path)) →
  run_workers git repos org_name base_dir false schedule tasks w
    = (tasks', w') →
  ∀ i n d, tasks' !! i = Some (Finished (Returned (n, true, d))) →
           is_Some (fs w' !! (base_dir / org_name / n)%path).
Proof.
  intros Hdelivers.
  apply (run_workers_invariant git repos org_name base_dir false
           (λ ts v, ∀ i n d, ts !! i = Some (Finished (Returned (n, true, d))) →
                      is_Some (fs v !! (base_dir / org_name / n)%path))).
  intros i repo t ts v t1 v1 Hrepo Hi HI Hstep j n d Hj.
  destruct (decide (i = j)) as [->|Hne].
  - rewrite list_lookup_insert_eq in Hj by (eapply lookup_lt_Some; done).
    simplify_eq. unfold step_task in Hstep. destruct t.
    + repeat (case_match; simplify_eq).
    + repeat (case_match; simplify_eq).
    + destruct (subprocess_run_git_clone _ _ _ _ _) as [r v2] eqn:Hrun.
      injection Hstep as Hres <-.
      pose proof (after_run_name _ _ _ _ _ Hres) as ->.
      apply after_run_success in Hres as ->.
      eapply subprocess_run_completed; [|done].
      apply Hdelivers. by eapply list_elem_of_lookup_2.
    + simplify_eq. eauto.
  - rewrite list_lookup_insert_ne in Hj by done.
    apply step_task_subseteq in Hstep.
    destruct (HI j n d Hj) as [kind Hkind].
    exists kind. by eapply lookup_weaken.
Qed.

Lemma run_workers_all_exist dry_run schedule tasks w tasks' w' :
  (∀ repo, repo ∈ repos →
           is_Some (fs w !! (base_dir / org_name / name repo)%path)) →
  (∀ i t, tasks !! i = Some t → t = Queued) →
  run_workers git repos org_name base_dir dry_run schedule tasks w
    = (tasks', w') →
  w' = w
  ∧ ∀ i repo t, repos !! i = Some repo → tasks' !! i = Some t →
      t = Queued
      ∨ t = Finished (Returned (name repo, false, Some "Already exists")).
Proof.
  intros Hall Hqueued.
  apply (run_workers_invariant git repos org_name base_dir dry_run
           (λ ts v, v = w
              ∧ ∀ i repo t, repos !! i = Some repo → ts !! i = Some t →
                  t = Queued
                  ∨ t = Finished
                        (Returned (name repo, false, Some "Already exists")))).
  - intros i repo t ts v t1 v1 Hrepo Hi [-> HI] Hstep.
    assert (path_exists w (base_dir / org_name / name repo)%path = true)
      as Hthere.
    { apply path_exists_true, Hall. by eapply list_elem_of_lookup_2. }
    assert (v1 = w
            ∧ t1 = Finished (Returned (name repo, false, Some "Already exists")))
      as [-> ->].
    { destruct (HI i repo t Hrepo Hi) as [->| ->]; simpl in Hstep.
      - rewrite Hthere in Hstep. by simplify_eq.
      - by simplify_eq. }
    split; [done|]. intros j repo' t' Hrepo' Hj.
    destruct (decide (i = j)) as [->|Hne].
    + rewrite list_lookup_insert_eq in Hj by (eapply lookup_lt_Some; done).
      simplify_eq. by right.
    + rewrite list_lookup_insert_ne in Hj by done. eauto.
  - split; [done|]. intros i repo t _ Hi. left. eauto.
Qed.

End PoolRuns.

(** ** The batch as a whole *)

Lemma clone_all_repositories_nonempty (git : Tool) repos org_name base_dir
    parallel max_workers dry_run sched w :
  repos ≠ [] →
  clone_all_repositories git repos org_name base_dir parallel max_workers
    dry_run sched w
  = match (if dry_run then (Returned tt, w)
           else mkdir (base_dir / org_name)%path w) with
    | (Raised e, w1) => (Raised e, w1)
    | (Returned _, w1) =>
        if parallel then
          if match max_workers with Some n => (n <=? 0)%Z | None => false end
          then (Raised (ValueError "max_workers must be greater than 0"), w1)
          else
            let '(tasks, w2) :=
              run_workers git repos org_name base_dir dry_run
                (interleaving sched ++ join_all (length repos))
                (replicate (length repos) Queued) w1 in
            (Returned (collect_completed repos tasks (completion sched) ∅), w2)
        else
          clone_sequentially git repos org_name base_dir dry_run None ∅ w1
    end.
Proof. by destruct repos. Qed.

(** After a real run in which every descriptor is reported as cloned,
    every target exists, and so do the levels of the organization
    directory. *)
Lemma all_cloned_all_exist (git : Tool) repos org_name base_dir parallel
    max_workers sched w r w' :
  (∀ repo v, repo ∈ repos →
     delivers (base_dir / org_name / name repo)%path
       (git (clone_argv org_name base_dir repo) v)) →
  repos ≠ [] →
  clone_all_repositories git repos org_name base_dir parallel max_workers
    false sched w = (Returned r, w') →
  (∀ repo, repo ∈ repos → r !! name repo = Some (true, None)) →
  (∀ repo, repo ∈ repos →
     is_Some (fs w' !! (base_dir / org_name / name repo)%path))
  ∧ mkdir (base_dir / org_name)%path w' = (Returned tt, w')
  ∧ (parallel = true →
     match max_workers with Some n => (n <=? 0)%Z | None => false end = false).
Proof.
  intros Hdelivers Hne Hrun Hall.
  rewrite clone_all_repositories_nonempty in Hrun by done.
  destruct (mkdir (base_dir / org_name)%path w) as [[[]|e] wa] eqn:Hmk; [|done].
  destruct parallel.
  - destruct (match max_workers with Some n => (n <=? 0)%Z | None => false end)
      eqn:Hmw; [done|].
    destruct (run_workers _ _ _ _ _ _ _ _) as [tasks w2] eqn:Hpool.
    injection Hrun as <- <-.
    split; [|split; [|done]].
    + intros repo Hin.
      destruct (collect_completed_lookup _ _ _ _ _ _ (Hall repo Hin))
        as [Hempty|(i & repo' & res & _ & _ & Hi & Hentry)];
        [by rewrite lookup_empty in Hempty|].
      destruct res as [[[n s] d]|e]; simpl in Hentry; [|done].
      injection Hentry as -> -> ->.
      eapply (run_workers_successes git repos org_name base_dir);
        [done| |done..].
      intros j n d Hj. apply lookup_replicate in Hj as [? _]. done.
    + eapply mkdir_again; [done|]. by eapply run_workers_subseteq.
  - split; [|split; [|done]].
    + intros repo Hin.
      eapply (clone_sequentially_successes git org_name base_dir);
        [done| |done|by apply Hall].
      intros k d Hk. by rewrite lookup_empty in Hk.
    + eapply mkdir_again; [done|]. by eapply clone_sequentially_subseteq.
Qed.

(** C7.  Run the batch for real, with a tool that has made its target
    when it exits with status 0, and let every descriptor be reported
    as cloned; every target path then exists.  A second run over the
    same descriptors, organization and base directory (in either mode,
    whatever the mode of the first run was, under any interleaving,
    with any tool, dry or not) returns a mapping in which every
    descriptor has the outcome [(false, "Already exists")], and
    changes nothing. *)
Theorem second_run_skips_every_descriptor
    (git1 git2 : Tool) (repos : list Repository) (org_name : string)
    (base_dir : Path) (parallel1 parallel2 : bool)
    (max_workers1 max_workers2 : option Z)
    (sched1 sched2 : Scheduling) (dry_run2 : bool)
    (w w1 : World) (r1 : gmap string (bool * option string)) :
  (∀ repo v, repo ∈ repos →
     delivers (base_dir / org_name / name repo)%path
       (git1 ["git"; "clone"; clone_url repo;
              path_str (base_dir / org_name / name repo)%path] v)) →
  clone_all_repositories git1 repos org_name base_dir parallel1 max_workers1
    false sched1 w = (Returned r1, w1) →
  (∀ repo, repo ∈ repos → r1 !! name repo = Some (true, None)) →
  (parallel2 = true →
     match max_workers2 with Some n => (n <=? 0)%Z | None => false end = false
     ∧ completion sched2 ≡ₚ seq 0 (length repos)) →
  ∃ r2,
    clone_all_repositories git2 repos org_name base_dir parallel2 max_workers2
      dry_run2 sched2 w1 = (Returned r2, w1)
    ∧ ∀ repo, repo ∈ repos →
        r2 !! name repo = Some (false, Some "Already exists").
Proof.
  intros Hdelivers Hfirst Hall Hsecond.
  destruct (decide (repos = [])) as [->|Hne].
  { exists ∅. split; [done|]. intros repo Hin. by apply elem_of_nil in Hin. }
  destruct (all_cloned_all_exist git1 repos org_name base_dir parallel1
              max_workers1 sched1 w r1 w1 Hdelivers Hne Hfirst Hall)
    as (Hexist & Hmk & _).
  rewrite clone_all_repositories_nonempty by done.
  assert ((if dry_run2 then (Returned tt, w1)
           else mkdir (base_dir / org_name)%path w1) = (Returned tt, w1)) as ->
    by (by destruct dry_run2).
  destruct parallel2.
  - destruct (Hsecond eq_refl) as [-> Hperm].
    destruct (run_workers _ _ _ _ _ _ _ _) as [tasks w2] eqn:Hpool.
    pose proof (run_workers_all_finished git2 repos org_name base_dir dry_run2
                  _ _ _ _ _ (length_replicate _ _) Hpool) as Hfinished.
    destruct (run_workers_all_exist git2 repos org_name base_dir dry_run2
                _ _ _ _ _ Hexist
                ltac:(by intros i t [-> _]%lookup_replicate) Hpool)
      as [-> Hskipped].
    eexists. split; [done|]. intros repo Hin.
    apply list_elem_of_lookup_1 in Hin as [i Hi].
    destruct (Hfinished i ltac:(by eapply lookup_lt_Some)) as [res Hres].
    assert (i ∈ completion sched2) as Hcollected.
    { rewrite Hperm. apply elem_of_seq. apply lookup_lt_Some in Hi. lia. }
    destruct (collect_completed_is_Some repos tasks (completion sched2) ∅
                i repo res Hcollected Hi Hres) as [v Hv].
    destruct (Hskipped i repo _ Hi Hres) as [?|[= ->]]; [done|].
    simpl in Hv. rewrite Hv. f_equal.
    destruct (collect_completed_lookup _ _ _ _ _ _ Hv)
      as [Hempty|(j & repo' & res' & _ & Hj & Hres' & Hentry)];
      [by rewrite lookup_empty in Hempty|].
    destruct (Hskipped j repo' _ Hj Hres') as [?|[= ->]]; [done|].
    simpl in Hentry. by injection Hentry as _ <-.
  - destruct (clone_sequentially_all_exist git2 org_name base_dir repos
                dry_run2 None ∅ w1 Hexist) as (r2 & -> & Hr2).
    exists r2. split; [done|]. intros repo Hin.
    rewrite Hr2, decide_True; [done|].
    by apply list_elem_of_fmap_2.
Qed.

Lemma second_run_skips_every_descriptor_witness :
  clone_all_repositories git_real [repo_a; repo_b] "testorg" tmp true
    (Some 2%Z) false interleaved empty_world
  = (Returned {[ "repoA" := (true, None); "repoB" := (true, None) ]},
     both_checked_out)
  ∧ ∃ r2,
      clone_all_repositories git_missing [repo_a; repo_b] "testorg" tmp false
        None false in_order both_checked_out
      = (Returned r2, both_checked_out)
      ∧ ∀ repo, repo ∈ [repo_a; repo_b] →
          r2 !! name repo = Some (false, Some "Already exists").
Proof.
  assert (clone_all_repositories git_real [repo_a; repo_b] "testorg" tmp true
            (Some 2%Z) false interleaved empty_world
          = (Returned {[ "repoA" := (true, None); "repoB" := (true, None) ]},
             both_checked_out)) as Hfirst by (vm_compute; reflexivity).
  split; [exact Hfirst|].
  eapply (second_run_skips_every_descriptor git_real git_missing
            [repo_a; repo_b] "testorg" tmp true false (Some 2%Z) None
            interleaved in_order false empty_world both_checked_out).
  - intros repo v Hin.
    repeat (apply elem_of_cons in Hin as [->|Hin]);
      [intros _; vm_compute; by eexists..|].
    by apply elem_of_nil in Hin.
  - exact Hfirst.
  - intros repo Hin.
    repeat (apply elem_of_cons in Hin as [->|Hin]); [reflexivity..|].
    by apply elem_of_nil in Hin.
  - done.
Defined.

(** In the pool, the entry written for a future is keyed by the name
    of the descriptor it was submitted for. *)
Lemma pool_entry_key (git : Tool) repos org_name base_dir dry_run schedule
    tasks w w' i repo res :
  run_workers git repos org_name base_dir dry_run schedule
    (replicate (length repos) Queued) w = (tasks, w') →
  repos !! i = Some repo → tasks !! i = Some (Finished res) →
  (entry_of repo res).1 = name repo.
Proof.
  intros Hpool Hrepo Hres.
  destruct res as [[[n s] d]|e]; simpl; [|done].
  eapply (run_workers_names git repos org_name base_dir dry_run); [|done..].
  intros j repo' n' s' d' _ Hj. by apply lookup_replicate in Hj as [? _].
Qed.

(** The keys of the mapping returned by the batch are names of
    descriptors of the list. *)
Lemma clone_all_repositories_keys (git : Tool) repos org_name base_dir
    parallel max_workers dry_run sched w w' r :
  clone_all_repositories git repos org_name base_dir parallel max_workers
    dry_run sched w = (Returned r, w') →
  dom r ⊆ list_to_set (name <$> repos).
Proof.
  intros Hrun.
  destruct (decide (repos = [])) as [->|Hne].
  { injection Hrun as <- <-. by rewrite dom_empty. }
  rewrite clone_all_repositories_nonempty in Hrun by done.
  destruct (if dry_run then _ else _) as [[[]|e] wa]; [|done].
  destruct parallel.
  - destruct (match max_workers with Some n => _ | None => _ end); [done|].
    destruct (run_workers _ _ _ _ _ _ _ _) as [tasks w2] eqn:Hpool.
    injection Hrun as <- <-.
    intros k [v Hk]%elem_of_dom.
    destruct (collect_completed_lookup _ _ _ _ _ _ Hk)
      as [Hempty|(i & repo & res & _ & Hi & Hres & Hentry)];
      [by rewrite lookup_empty in Hempty|].
    pose proof (pool_entry_key _ _ _ _ _ _ _ _ _ _ _ _ Hpool Hi Hres) as Hkey.
    rewrite Hentry in Hkey. simpl in Hkey. subst k.
    apply elem_of_list_to_set, list_elem_of_fmap_2.
    by eapply list_elem_of_lookup_2.
  - eapply (clone_sequentially_keys git org_name base_dir); [| | |done].
    + intros repo Hin. by apply elem_of_list_to_set, list_elem_of_fmap_2.
    + done.
    + by rewrite dom_empty.
Qed.



(** C8.  For the empty list, [clone_all_repositories] returns the
    empty mapping at once: it raises nothing and leaves the world as it
    was, so no directory is created (not even [base_dir / org_name]
    when [dry_run] is false). *)
Theorem empty_batch_does_nothing
    (git : Tool) (org_name : string) (base_dir : Path) (parallel : bool)
    (max_workers : option Z) (dry_run : bool) (sched : Scheduling)
    (w : World) :
  clone_all_repositories git [] org_name base_dir parallel max_workers
    dry_run sched w
  = (Returned ∅, w).
Proof. reflexivity. Qed.

(** ** In parallel mode every descriptor keeps its own entry *)

(** When the names are pairwise distinct and every future is handed
    out, the entry under a descriptor's name is the one written for its
    own future: its outcome if [clone_repository] returned, and
    [(false, str e)] if it raised [e]. *)
Lemma collect_completed_own_entry repos tasks order i repo res :
  NoDup (name <$> repos) →
  (∀ j repo' res', repos !! j = Some repo' →
     tasks !! j = Some (Finished res') → (entry_of repo' res').1 = name repo') →
  i ∈ order → repos !! i = Some repo → tasks !! i = Some (Finished res) →
  collect_completed repos tasks order ∅ !! name repo
  = Some (entry_of repo res).2.
Proof.
  intros Hnodup Hkeys Hin Hi Hres.
  destruct (collect_completed_is_Some repos tasks order ∅ i repo res Hin Hi Hres)
    as [v Hv].
  rewrite (Hkeys i repo res Hi Hres) in Hv. rewrite Hv. f_equal.
  destruct (collect_completed_lookup _ _ _ _ _ _ Hv)
    as [Hempty|(j & repo' & res' & _ & Hj & Hres' & Hentry)];
    [by rewrite lookup_empty in Hempty|].
  pose proof (Hkeys j repo' res' Hj Hres') as Hkey.
  rewrite Hentry in Hkey. simpl in Hkey.
  assert (j = i) as ->.
  { eapply NoDup_lookup; [exact Hnodup| |].
    - rewrite list_lookup_fmap, Hj. simpl. by rewrite <-Hkey.
    - by rewrite list_lookup_fmap, Hi. }
  simplify_eq. by rewrite Hentry.
Qed.

(** In parallel mode, distinct names give exactly one entry per
    descriptor. *)
Lemma parallel_one_entry_per_descriptor (git : Tool) repos org_name base_dir
    max_workers dry_run sched w r w' :
  NoDup (name <$> repos) →
  completion sched ≡ₚ seq 0 (length repos) →
  clone_all_repositories git repos org_name base_dir true max_workers dry_run
    sched w = (Returned r, w') →
  dom r = list_to_set (name <$> repos) ∧ size r = length repos.
Proof.
  intros Hnodup Hperm Hrun.
  assert (dom r = list_to_set (name <$> repos)) as Hdom.
  { apply set_eq. intros k. split.
    { by apply (clone_all_repositories_keys _ _ _ _ _ _ _ _ _ _ _ Hrun). }
    intros Hk%elem_of_list_to_set.
    apply list_elem_of_fmap in Hk as (repo & -> & Hin).
    apply list_elem_of_lookup_1 in Hin as [i Hi].
    assert (repos ≠ []) as Hne by (intros ->; done).
    rewrite clone_all_repositories_nonempty in Hrun by done.
    destruct (if dry_run then _ else _) as [[[]|e] wa]; [|done].
    destruct (match max_workers with Some n => _ | None => _ end); [done|].
    destruct (run_workers _ _ _ _ _ _ _ _) as [tasks w2] eqn:Hpool.
    injection Hrun as <- <-.
    destruct (run_workers_all_finished git repos org_name base_dir dry_run
                _ _ _ _ _ (length_replicate _ _) Hpool i
                ltac:(by eapply lookup_lt_Some)) as [res Hres].
    apply elem_of_dom.
    rewrite <-(pool_entry_key _ _ _ _ _ _ _ _ _ _ _ _ Hpool Hi Hres).
    apply (collect_completed_is_Some repos tasks (completion sched) ∅ i);
      [|done..].
    rewrite Hperm. apply elem_of_seq. apply lookup_lt_Some in Hi. lia. }
  split; [done|].
  by rewrite <-size_dom, Hdom, size_list_to_set, length_fmap.
Qed.

(** ** What the batch can raise *)

Lemma mkdir_raises (p : Path) (w w' : World) (e : exception) :
  mkdir p w = (Raised e, w') → ∃ msg, e = OSError msg.
Proof.
  unfold mkdir.
  assert (∀ sofar rest m, mkdir_levels sofar rest m = Raised e →
                          ∃ msg, e = OSError msg) as Hlevels.
  { intros sofar rest. revert sofar.
    induction rest as [|c rest IH]; intros sofar m; simpl; [done|].
    destruct (m !! (sofar / c)%path) as [[]|]; [|by apply IH..].
    intros [= <-]. eauto. }
  destruct (mkdir_levels [] p (fs w)) as [m|e'] eqn:Hmk; [done|].
  intros [= -> _]. eauto.
Qed.

Lemma clone_sequentially_raises (git : Tool) repos org_name base_dir dry_run
    repo_name results w e w' :
  clone_sequentially git repos org_name base_dir dry_run repo_name results w
    = (Raised e, w') →
  ∃ msg, e = UnboundLocalError msg.
Proof.
  revert repo_name results w.
  induction repos as [|repo repos IH]; intros repo_name results w; simpl;
    [done|].
  destruct (clone_repository _ _ _ _ _ _) as [[[[n s] d]|e'] w1];
    [by apply IH|].
  destruct repo_name; [by apply IH|].
  intros [= <- _]. eauto.
Qed.

(** Whatever the tool does, in either mode, no [CloneError] ever comes
    out of [clone_all_repositories]. *)
Lemma clone_all_repositories_never_raises_CloneError (git : Tool) repos
    org_name base_dir parallel max_workers dry_run sched w msg :
  (clone_all_repositories git repos org_name base_dir parallel max_workers
     dry_run sched w).1 ≠ Raised (CloneError msg).
Proof.
  destruct (decide (repos = [])) as [->|Hne]; [done|].
  rewrite clone_all_repositories_nonempty by done.
  destruct (if dry_run then _ else _) as [[[]|e] wa] eqn:Horg.
  - destruct parallel.
    + destruct (match max_workers with Some n => _ | None => _ end); [done|].
      by destruct (run_workers _ _ _ _ _ _ _ _).
    + destruct (clone_sequentially _ _ _ _ _ _ _ _) as [[r|e] w'] eqn:Hseq;
        [done|].
      apply clone_sequentially_raises in Hseq as [msg' ->]. done.
  - destruct dry_run; [done|].
    apply mkdir_raises in Horg as [msg' ->]. done.
Qed.

(** ** Sequential runs in which every clone returns *)

Section SequentialReturns.

Variable git : Tool.
Variables (org_name : string) (base_dir : Path) (dry_run : bool).

(** The tool can always be started, and what it prints is text. *)
Hypothesis git_legible : ∀ argv v, legible (git argv v).

(** The organization directory can be created (dry runs never try). *)
Variable w0 : World.
Hypothesis org_dir_created :
  dry_run = true
  ∨ ∃ v, mkdir (base_dir / org_name)%path v = (Returned tt, w0).

Lemma clone_repository_returns repo w :
  fs w0 ⊆ fs w →
  ∃ s d w',
    clone_repository git repo org_name base_dir dry_run w
    = (Returned (name repo, s, d), w').
Proof.
  intros Hlater. unfold clone_repository.
  destruct (path_exists _ _); [by eauto|].
  destruct org_dir_created as [->|[v Hmk]]; [by eauto|].
  destruct dry_run; [by eauto|].
  rewrite parent_join, (mkdir_again _ _ _ _ Hmk Hlater).
  unfold subprocess_run_git_clone.
  pose proof (git_legible
                ["git"; "clone"; clone_url repo;
                 path_str (base_dir / org_name / name repo)%path] w)
    as Hlegible.
  destruct (git _ w) as [| |seconds returncode stderr leaves
                         |seconds returncode [stderr|msg] created];
    try done; repeat case_match; simplify_eq; eauto.
Qed.

Lemma clone_sequentially_returns repos repo_name results w r w' :
  fs w0 ⊆ fs w →
  clone_sequentially git repos org_name base_dir dry_run repo_name results w
    = (Returned r, w') →
  dom r = dom results ∪ list_to_set (name <$> repos).
Proof.
  revert repo_name results w.
  induction repos as [|repo repos IH]; intros repo_name results w Hlater.
  - intros [= <- <-]. rewrite fmap_nil, list_to_set_nil. by rewrite (right_id_L ∅ (∪)).
  - cbn [clone_sequentially].
    destruct (clone_repository_returns repo w Hlater) as (s & d & w1 & Hclone).
    rewrite Hclone. intros Hrest. apply IH in Hrest.
    + rewrite Hrest, dom_insert_L, fmap_cons, list_to_set_cons.
      by rewrite (comm_L (∪) {[name repo]} (dom results)), (assoc_L (∪)).
    + etrans; [exact Hlater|]. by eapply clone_repository_subseteq.
Qed.

End SequentialReturns.

(** In sequential mode too, distinct names give exactly one entry per
    descriptor as long as no call of [clone_repository] raises. *)
Lemma sequential_one_entry_when_all_return (git : Tool) repos org_name
    base_dir max_workers dry_run sched w r w' :
  (∀ argv v, legible (git argv v)) →
  NoDup (name <$> repos) →
  clone_all_repositories git repos org_name base_dir false max_workers dry_run
    sched w = (Returned r, w') →
  dom r = list_to_set (name <$> repos) ∧ size r = length repos.
Proof.
  intros Hstarts Hnodup Hrun.
  assert (dom r = list_to_set (name <$> repos)) as Hdom.
  { destruct (decide (repos = [])) as [->|Hne].
    { injection Hrun as <- <-. by rewrite dom_empty_L. }
    rewrite clone_all_repositories_nonempty in Hrun by done.
    destruct (if dry_run then _ else _) as [[[]|e] wa] eqn:Horg; [|done].
    rewrite (clone_sequentially_returns git org_name base_dir dry_run Hstarts
               wa) with (results := ∅) (repo_name := None) (w := wa) (w' := w')
               (repos := repos); [..|done|done].
    - by rewrite dom_empty_L, (left_id_L ∅ (∪)).
    - destruct dry_run; [by left|right; eauto]. }
  split; [done|].
  by rewrite <-size_dom, Hdom, size_list_to_set, length_fmap.
Qed.

(** ** Scenarios *)

(** Two descriptors, nothing on disk, the tool always succeeds. *)
Example scenario_two_fresh_repositories :
  (clone_all_repositories git_ok [repo_a; repo_b] "testorg" tmp false None
     false in_order empty_world).1
  = Returned {[ "repoA" := (true, None); "repoB" := (true, None) ]}
  ∧ (clone_all_repositories git_ok [repo_a; repo_b] "testorg" tmp true
       (Some 2%Z) false interleaved empty_world).1
    = Returned {[ "repoA" := (true, None); "repoB" := (true, None) ]}.
Proof. split; vm_compute; reflexivity. Qed.

(** The target of [repo_a] is already there; [repo_b] is unaffected. *)
Example scenario_one_target_exists :
  (clone_all_repositories git_ok [repo_a; repo_b] "testorg" tmp false None
     false in_order repo_a_cloned).1
  = Returned {[ "repoA" := (false, Some "Already exists");
                "repoB" := (true, None) ]}.
Proof. vm_compute; reflexivity. Qed.

(** The tool exits with status 1 and writes to its error stream. *)
Example scenario_tool_fails :
  (clone_repository git_not_found_upstream repo_b "testorg" tmp false
     empty_world).1
  = Returned ("repoB", false, Some "Failed to clone repoB: fatal: not found").
Proof. vm_compute; reflexivity. Qed.

(** The tool runs into the time limit; what it wrote stays on disk. *)
Example scenario_tool_times_out :
  let run := clone_repository git_hangs repo_b "testorg" tmp false empty_world in
  run.1 = Returned ("repoB", false,
                    Some "Clone timeout for repoB (exceeded 5 minutes)")
  ∧ fs run.2 !! (tmp / "testorg" / "repoB")%path = Some Dir.
Proof. split; vm_compute; reflexivity. Qed.

(** One skip, one success, one failure (the tool fails from its second
    run on). *)
Example scenario_mixed_results :
  (clone_all_repositories git_once [repo_a; repo_b; repo_c] "testorg" tmp
     false None false three_in_order
     {| fs := fs repo_a_cloned; calls := [] |}).1
  = Returned {[ "repoA" := (false, Some "Already exists");
                "repoB" := (true, None);
                "repoC" := (false, Some "Failed to clone repoC: error") ]}.
Proof. vm_compute; reflexivity. Qed.

(** A worker count that is not positive is refused by the pool. *)
Example scenario_no_workers :
  (clone_all_repositories git_ok [repo_a] "testorg" tmp true (Some 0%Z)
     false in_order empty_world).1
  = Raised (ValueError "max_workers must be greater than 0").
Proof. vm_compute; reflexivity. Qed.

(** ** Where the code departs from its description *)

(** [clone_repository] turns a missing tool into a [CloneError]. *)
Lemma clone_repository_tool_missing (git : Tool) repo org_name base_dir w w1 :
  path_exists w (base_dir / org_name / name repo)%path = false →
  mkdir (base_dir / org_name)%path w = (Returned tt, w1) →
  git ["git"; "clone"; clone_url repo;
       path_str (base_dir / org_name / name repo)%path] w1 = NotFound →
  (clone_repository git repo org_name base_dir false w).1
  = Raised (CloneError git_missing_msg).
Proof.
  intros Hfresh Hmk Hgit.
  rewrite (clone_repository_runs git repo org_name base_dir w w1 Hfresh Hmk).
  unfold subprocess_run_git_clone. by rewrite Hgit.
Qed.

(** C1.  With [git] missing, [clone_repository] raises [CloneError],
    but [clone_all_repositories] does not let it out of the batch.  In
    parallel mode each descriptor gets a failed outcome carrying the
    message and every descriptor is still dispatched.  In sequential
    mode, after [repo_a] has been skipped, the errors of [repo_b] and
    [repo_c] are written under the name of [repo_a], and the batch
    runs to its end; when the very first descriptor fails, what comes
    out is an [UnboundLocalError]. *)
Theorem missing_tool_is_recorded_not_raised :
  (clone_repository git_missing repo_b "testorg" tmp false repo_a_cloned).1
    = Raised (CloneError git_missing_msg)
  ∧ (let batch :=
       clone_all_repositories git_missing [repo_b; repo_c] "testorg" tmp
         true (Some 2%Z) false in_order repo_a_cloned in
     batch.1 = Returned {[ "repoB" := (false, Some git_missing_msg);
                           "repoC" := (false, Some git_missing_msg) ]}
     ∧ length (calls batch.2) = S (S (length (calls repo_a_cloned))))
  ∧ (let batch :=
       clone_all_repositories git_missing [repo_a; repo_b; repo_c] "testorg"
         tmp false None false in_order repo_a_cloned in
     batch.1 = Returned {[ "repoA" := (false, Some git_missing_msg) ]}
     ∧ length (calls batch.2) = S (S (length (calls repo_a_cloned))))
  ∧ (clone_all_repositories git_missing [repo_b; repo_c] "testorg" tmp
       false None false in_order repo_a_cloned).1
    = Raised (UnboundLocalError
        "cannot access local variable 'repo_name' where it is not associated with a value").
Proof. repeat split; vm_compute; reflexivity. Qed.

(** C2.  An unexpected exception in sequential mode: the tool cannot
    be started for [repo_b].  The failure is written under the name of
    [repo_a], the descriptor processed before, whose own outcome
    [(true, None)] is lost; [repo_b] gets no entry.  (The parallel
    branch, on the same input, records it under ["repoB"].)  When the
    failing descriptor comes first, the loop ends with an
    [UnboundLocalError] and [repo_a] is never processed. *)
Theorem sequential_failure_is_recorded_under_previous_name :
  (clone_all_repositories git_flaky [repo_a; repo_b; repo_c] "testorg" tmp
     false None false three_in_order empty_world).1
    = Returned {[ "repoA" := (false, Some "[Errno 11] Resource temporarily unavailable");
                  "repoC" := (true, None) ]}
  ∧ (clone_all_repositories git_flaky [repo_a; repo_b; repo_c] "testorg" tmp
       true None false three_in_order empty_world).1
    = Returned {[ "repoA" := (true, None);
                  "repoB" := (false, Some "[Errno 11] Resource temporarily unavailable");
                  "repoC" := (true, None) ]}
  ∧ (let batch :=
       clone_all_repositories git_flaky [repo_b; repo_a] "testorg" tmp
         false None false in_order empty_world in
     batch.1 = Raised (UnboundLocalError
        "cannot access local variable 'repo_name' where it is not associated with a value")
     ∧ fs batch.2 !! (tmp / "testorg" / "repoA")%path = None).
Proof. repeat split; vm_compute; reflexivity. Qed.

(** C3.  Three descriptors with pairwise distinct names, processed
    sequentially, the tool failing to start for the second one: the
    mapping returned has two entries. *)
Theorem sequential_failure_drops_an_entry :
  NoDup (name <$> [repo_a; repo_b; repo_c])
  ∧ ∃ r,
      (clone_all_repositories git_flaky [repo_a; repo_b; repo_c] "testorg" tmp
         false None false three_in_order empty_world).1 = Returned r
      ∧ size r = 2
      ∧ r !! "repoB" = None.
Proof.
  split.
  - apply (bool_decide_unpack _). vm_compute. exact I.
  - eexists. split; [vm_compute; reflexivity|].
    split; vm_compute; reflexivity.
Qed.

(** * The rest of the program: properties *)

(** ** The tally *)

(** X1.  The number that the summary of [clone_all_repositories] calls
    failed (cloner.py:171-172) is the number of entries whose flag is
    false, and the two numbers of the summary add up to the number of
    entries. *)
Lemma tally_counts_failures (results : gmap string (bool * option string)) :
  failed results
  = Z.of_nat (size (filter (λ entry, entry.2.1 = false) results))
  ∧ (Z.of_nat (successful results) + failed results)%Z = Z.of_nat (size results).
Proof.
  unfold failed, successful.
  pose proof (map_filter_union_complement
                (λ entry : string * (bool * option string), entry.2.1 = true)
                results) as Hsplit.
  assert (size results
          = size (filter (λ entry, entry.2.1 = true) results)
            + size (filter (λ entry, entry.2.1 = false) results)) as Hsize.
  { rewrite <-Hsplit at 1. rewrite map_size_disj_union.
    - f_equal. f_equal. apply map_filter_ext.
      intros k [[] d] _; simpl; split; intros; congruence.
    - apply map_disjoint_filter_complement. }
  lia.
Qed.

(** ** Dry runs of the batch *)

Section DryBatch.

Variable git : Tool.
Variables (org_name : string) (base_dir : Path) (w : World).

Lemma clone_repository_dry_outcome repo :
  clone_repository git repo org_name base_dir true w
  = (Returned (name repo, (dry_outcome w org_name base_dir (name repo)).1,
               (dry_outcome w org_name base_dir (name repo)).2), w).
Proof.
  unfold clone_repository, dry_outcome. by destruct (path_exists _ _).
Qed.

Lemma clone_sequentially_dry_outcome repos repo_name results :
  ∃ r,
    clone_sequentially git repos org_name base_dir true repo_name results w
      = (Returned r, w)
    ∧ ∀ k, r !! k = if decide (k ∈ name <$> repos)
                    then Some (dry_outcome w org_name base_dir k)
                    else results !! k.
Proof.
  revert repo_name results.
  induction repos as [|repo repos IH]; intros repo_name results.
  - exists results. split; [done|]. intros k.
    case_decide as Hk; [|done]. by apply elem_of_nil in Hk.
  - cbn [clone_sequentially]. rewrite clone_repository_dry_outcome.
    destruct (IH (Some (name repo))
                (<[name repo := ((dry_outcome w org_name base_dir (name repo)).1,
                                 (dry_outcome w org_name base_dir (name repo)).2)]>
                   results)) as (r & -> & Hr).
    exists r. split; [done|]. intros k. rewrite Hr, fmap_cons.
    destruct (decide (k ∈ name <$> repos)) as [Hin|Hnotin].
    + rewrite decide_True; [done|]. by right.
    + destruct (decide (name repo = k)) as [<-|Hne].
      * rewrite lookup_insert_eq, decide_True by left.
        by destruct (dry_outcome _ _ _ _).
      * rewrite lookup_insert_ne by done.
        rewrite decide_False; [done|].
        intros [?|?]%elem_of_cons; done.
Qed.

Lemma run_workers_dry_outcome repos schedule tasks tasks' w' :
  (∀ i t, tasks !! i = Some t → t = Queued) →
  run_workers git repos org_name base_dir true schedule tasks w
    = (tasks', w') →
  w' = w
  ∧ ∀ i repo t, repos !! i = Some repo → tasks' !! i = Some t →
      t = Queued
      ∨ t = Finished
              (Returned (name repo,
                         (dry_outcome w org_name base_dir (name repo)).1,
                         (dry_outcome w org_name base_dir (name repo)).2)).
Proof.
  intros Hqueued.
  apply (run_workers_invariant git repos org_name base_dir true
           (λ ts v, v = w
              ∧ ∀ i repo t, repos !! i = Some repo → ts !! i = Some t →
                  t = Queued
                  ∨ t = Finished
                        (Returned (name repo,
                           (dry_outcome w org_name base_dir (name repo)).1,
                           (dry_outcome w org_name base_dir (name repo)).2)))).
  - intros i repo t ts v t1 v1 Hrepo Hi [-> HI] Hstep.
    assert (v1 = w
            ∧ t1 = Finished
                     (Returned (name repo,
                        (dry_outcome w org_name base_dir (name repo)).1,
                        (dry_outcome w org_name base_dir (name repo)).2)))
      as [-> ->].
    { destruct (HI i repo t Hrepo Hi) as [->| ->]; simpl in Hstep.
      - unfold dry_outcome. destruct (path_exists _ _); by simplify_eq.
      - by simplify_eq. }
    split; [done|]. intros j repo' t' Hrepo' Hj.
    destruct (decide (i = j)) as [->|Hne].
    + rewrite list_lookup_insert_eq in Hj by (eapply lookup_lt_Some; done).
      simplify_eq. by right.
    + rewrite list_lookup_insert_ne in Hj by done. eauto.
  - split; [done|]. intros i repo t _ Hi. left. eauto.
Qed.

End DryBatch.

(** X2.  A dry run of the batch, in either mode, over descriptors whose
    targets [exists] can look up (plain names, paths within the limits
    of the operating system) returns a mapping that tells for every
    descriptor what a real run would first find: a skip if its target
    exists, a success otherwise; and it leaves the world as it is.
    (In parallel mode [max_workers] must be valid and every future
    handed out.) *)
Theorem dry_run_reports_what_exists
    (git : Tool) (repos : list Repository) (org_name : string)
    (base_dir : Path) (parallel : bool) (max_workers : option Z)
    (sched : Scheduling) (w : World) :
  (∀ repo, repo ∈ repos → well_placed base_dir org_name repo = true) →
  (parallel = true →
     match max_workers with Some n => (n <=? 0)%Z | None => false end = false
     ∧ completion sched ≡ₚ seq 0 (length repos)) →
  ∃ r,
    clone_all_repositories git repos org_name base_dir parallel max_workers
      true sched w = (Returned r, w)
    ∧ dom r = list_to_set (name <$> repos)
    ∧ ∀ repo, repo ∈ repos →
        r !! name repo
        = Some (if path_exists w (base_dir / org_name / name repo)%path
                then (false, Some "Already exists") else (true, None)).
Proof.
  intros _ Hpar.
  destruct (decide (repos = [])) as [->|Hne].
  { exists ∅. split; [done|]. split; [by rewrite dom_empty_L|].
    intros repo Hin. by apply elem_of_nil in Hin. }
  rewrite clone_all_repositories_nonempty by done.
  destruct parallel.
  - destruct (Hpar eq_refl) as [-> Hperm].
    destruct (run_workers _ _ _ _ _ _ _ _) as [tasks w2] eqn:Hpool.
    pose proof (run_workers_all_finished git repos org_name base_dir true
                  _ _ _ _ _ (length_replicate _ _) Hpool) as Hfinished.
    destruct (run_workers_dry_outcome git org_name base_dir w repos _ _ _ _
                ltac:(by intros i t [-> _]%lookup_replicate) Hpool)
      as [-> Hdry].
    eexists. split; [done|].
    assert (∀ repo, repo ∈ repos →
              collect_completed repos tasks (completion sched) ∅ !! name repo
              = Some (dry_outcome w org_name base_dir (name repo))) as Hentries.
    { intros repo Hin.
      apply list_elem_of_lookup_1 in Hin as [i Hi].
      destruct (Hfinished i ltac:(by eapply lookup_lt_Some)) as [res Hres].
      assert (i ∈ completion sched) as Hcollected.
      { rewrite Hperm. apply elem_of_seq. apply lookup_lt_Some in Hi. lia. }
      destruct (collect_completed_is_Some repos tasks (completion sched) ∅
                  i repo res Hcollected Hi Hres) as [v Hv].
      destruct (Hdry i repo _ Hi Hres) as [?|[= ->]]; [done|].
      simpl in Hv. rewrite Hv. f_equal.
      destruct (collect_completed_lookup _ _ _ _ _ _ Hv)
        as [Hempty|(j & repo' & res' & _ & Hj & Hres' & Hentry)];
        [by rewrite lookup_empty in Hempty|].
      destruct (Hdry j repo' _ Hj Hres') as [?|[= ->]]; [done|].
      simpl in Hentry. injection Hentry as Hname <-.
      rewrite Hname. by destruct (dry_outcome _ _ _ _). }
    split; [|done].
    apply set_eq. intros k. rewrite elem_of_list_to_set, elem_of_dom. split.
    + intros [v Hk].
      destruct (collect_completed_lookup _ _ _ _ _ _ Hk)
        as [Hempty|(j & repo' & res' & _ & Hj & Hres' & Hentry)];
        [by rewrite lookup_empty in Hempty|].
      destruct (Hdry j repo' _ Hj Hres') as [?|[= ->]]; [done|].
      simpl in Hentry. injection Hentry as <- _.
      apply list_elem_of_fmap_2. by eapply list_elem_of_lookup_2.
    + intros (repo & -> & Hin)%list_elem_of_fmap. rewrite Hentries; eauto.
  - destruct (clone_sequentially_dry_outcome git org_name base_dir w repos
                None ∅) as (r & -> & Hr).
    exists r. split; [done|]. split.
    + apply set_eq. intros k. rewrite elem_of_list_to_set, elem_of_dom, Hr.
      case_decide; [by split; eauto|].
      rewrite lookup_empty. split; [by intros []|done].
    + intros repo Hin. rewrite Hr, decide_True; [done|].
      by apply list_elem_of_fmap_2.
Qed.

Lemma dry_run_reports_what_exists_witness :
  ∃ r,
    clone_all_repositories git_missing [repo_a; repo_b] "testorg" tmp true
      (Some 2%Z) true interleaved repo_a_cloned = (Returned r, repo_a_cloned)
    ∧ dom r = list_to_set (name <$> [repo_a; repo_b])
    ∧ ∀ repo, repo ∈ [repo_a; repo_b] →
        r !! name repo
        = Some (if path_exists repo_a_cloned (tmp / "testorg" / name repo)%path
                then (false, Some "Already exists") else (true, None)).
Proof.
  apply (dry_run_reports_what_exists git_missing [repo_a; repo_b] "testorg"
           tmp true (Some 2%Z) interleaved repo_a_cloned).
  - intros repo Hin.
    repeat (apply elem_of_cons in Hin as [->|Hin]);
      [vm_compute; reflexivity..|].
    by apply elem_of_nil in Hin.
  - intros _. split; [reflexivity|]. apply perm_swap.
Defined.

(** ** A batch without failures *)

(** In the sequential loop over distinct names, either every
    descriptor seen so far has an entry or some entry is a failure. *)
Lemma clone_sequentially_complete (git : Tool) org_name base_dir dry_run
    repos (seen : list string) repo_name results w r w' :
  NoDup (seen ++ (name <$> repos)) →
  (∀ k, is_Some (results !! k) → k ∈ seen) →
  (∀ key, repo_name = Some key → key ∈ seen) →
  (∀ n, n ∈ seen → is_Some (results !! n))
  ∨ (∃ k d, results !! k = Some (false, d)) →
  clone_sequentially git repos org_name base_dir dry_run repo_name results w
    = (Returned r, w') →
  (∀ n, n ∈ seen ++ (name <$> repos) → is_Some (r !! n))
  ∨ (∃ k d, r !! k = Some (false, d)).
Proof.
  revert seen repo_name results w.
  induction repos as [|repo repos IH];
    intros seen repo_name results w Hnodup Hdom Hvar Hinv.
  - intros [= <- <-]. rewrite fmap_nil, app_nil_r. done.
  - cbn [clone_sequentially].
    rewrite fmap_cons, cons_middle, (assoc_L (++)) in Hnodup |- *.
    assert (name repo ∉ seen) as Hfresh.
    { apply NoDup_app in Hnodup as [Hnodup _].
      apply NoDup_app in Hnodup as (_ & Hdisj & _).
      intros Hin. apply (Hdisj _ Hin). left. }
    destruct (clone_repository _ repo _ _ _ _) as [[[[n s] d]|e] w1] eqn:Hclone.
    + apply clone_repository_name in Hclone as ->.
      apply IH; [done| | |].
      * intros k [->|[_ Hk]]%lookup_insert_is_Some.
        -- apply elem_of_app. right. left.
        -- apply elem_of_app. left. by apply Hdom.
      * intros key [= <-]. apply elem_of_app. right. left.
      * destruct Hinv as [Hall|(k & d' & Hk)].
        -- left. intros n [Hn|Hn%list_elem_of_singleton]%elem_of_app.
           ++ apply lookup_insert_is_Some'. right. by apply Hall.
           ++ subst n. apply lookup_insert_is_Some'. by left.
        -- right. exists k, d'. rewrite lookup_insert_ne; [done|].
           intros <-. apply Hfresh, Hdom. eauto.
    + destruct repo_name as [key|]; [|done].
      apply IH; [done| | |].
      * intros k [->|[_ Hk]]%lookup_insert_is_Some.
        -- apply elem_of_app. left. by apply Hvar.
        -- apply elem_of_app. left. by apply Hdom.
      * intros key' [= <-]. apply elem_of_app. left. by apply Hvar.
      * right. exists key, (Some (str e)). apply lookup_insert_eq.
Qed.

(** A mapping without a failed entry, returned by a real run, has an
    entry for every descriptor, and every target exists afterwards if
    the tool is one that makes its target when it exits with status
    0. *)
Lemma no_false_entry_all_cloned
    (git : Tool) (repos : list Repository) (org_name : string)
    (base_dir : Path) (parallel : bool) (max_workers : option Z)
    (sched : Scheduling) (w w' : World)
    (r : gmap string (bool * option string)) :
  (∀ repo v, repo ∈ repos →
     delivers (base_dir / org_name / name repo)%path
       (git (clone_argv org_name base_dir repo) v)) →
  (if parallel then completion sched ≡ₚ seq 0 (length repos)
   else NoDup (name <$> repos)) →
  clone_all_repositories git repos org_name base_dir parallel max_workers
    false sched w = (Returned r, w') →
  (∀ k d, r !! k = Some (false, d) → False) →
  ∀ repo, repo ∈ repos →
    (∃ d, r !! name repo = Some (true, d))
    ∧ is_Some (fs w' !! (base_dir / org_name / name repo)%path).
Proof.
  intros Hdelivers Hmode Hrun Hnofail.
  assert (∀ repo, repo ∈ repos → is_Some (r !! name repo)) as Hentries.
  { intros repo Hin.
    assert (repos ≠ []) as Hne by (intros ->; by apply elem_of_nil in Hin).
    rewrite clone_all_repositories_nonempty in Hrun by done.
    destruct (mkdir _ w) as [[[]|e] wa]; [|done].
    destruct parallel.
    - destruct (match max_workers with Some n => _ | None => _ end); [done|].
      destruct (run_workers _ _ _ _ _ _ _ _) as [tasks w2] eqn:Hpool.
      injection Hrun as <- <-.
      apply list_elem_of_lookup_1 in Hin as [i Hi].
      destruct (run_workers_all_finished git repos org_name base_dir false
                  _ _ _ _ _ (length_replicate _ _) Hpool i
                  ltac:(by eapply lookup_lt_Some)) as [res Hres].
      rewrite <-(pool_entry_key _ _ _ _ _ _ _ _ _ _ _ _ Hpool Hi Hres).
      apply (collect_completed_is_Some repos tasks (completion sched) ∅ i);
        [|done..].
      rewrite Hmode. apply elem_of_seq. apply lookup_lt_Some in Hi. lia.
    - destruct (clone_sequentially_complete git org_name base_dir false repos
                  [] None ∅ wa r w') as [Hall|(k & d & Hk)]; try done.
      + intros k [v Hk]. by rewrite lookup_empty in Hk.
      + left. intros n Hn. by apply elem_of_nil in Hn.
      + apply Hall. by apply list_elem_of_fmap_2.
      + by destruct (Hnofail k d). }
  intros repo Hin.
  destruct (Hentries repo Hin) as [[[] d] Hentry];
    [|by destruct (Hnofail _ _ Hentry)].
  split; [by eauto|].
  assert (repos ≠ []) as Hne by (intros ->; by apply elem_of_nil in Hin).
  rewrite clone_all_repositories_nonempty in Hrun by done.
  destruct (mkdir _ w) as [[[]|e] wa]; [|done].
  destruct parallel.
  - destruct (match max_workers with Some n => _ | None => _ end); [done|].
    destruct (run_workers _ _ _ _ _ _ _ _) as [tasks w2] eqn:Hpool.
    injection Hrun as <- <-.
    destruct (collect_completed_lookup _ _ _ _ _ _ Hentry)
      as [Hempty|(i & repo' & res & _ & _ & Hi & Hres)];
      [by rewrite lookup_empty in Hempty|].
    destruct res as [[[n s] d']|e]; simpl in Hres; [|done].
    injection Hres as -> -> ->.
    eapply (run_workers_successes git repos org_name base_dir);
      [done| |done..].
    intros j n d' Hj. apply lookup_replicate in Hj as [? _]. done.
  - eapply (clone_sequentially_successes git org_name base_dir);
      [done| |done|done].
    intros k d' Hk. by rewrite lookup_empty in Hk.
Qed.

(** X3.  With a tool that has made its target when it exits with status 0
    (the code does not check that it has): a real run that returns a
    mapping of which the summary counts no failure has an entry for
    every descriptor, and every target exists afterwards.  In
    sequential mode the names have to be distinct (otherwise an
    exception recorded under the previous name can be overwritten by a
    later success); in parallel mode every future has to be handed
    out. *)
Theorem no_failure_means_all_cloned
    (git : Tool) (repos : list Repository) (org_name : string)
    (base_dir : Path) (parallel : bool) (max_workers : option Z)
    (sched : Scheduling) (w w' : World)
    (r : gmap string (bool * option string)) :
  (∀ repo v, repo ∈ repos →
     delivers (base_dir / org_name / name repo)%path
       (git (clone_argv org_name base_dir repo) v)) →
  (if parallel then completion sched ≡ₚ seq 0 (length repos)
   else NoDup (name <$> repos)) →
  clone_all_repositories git repos org_name base_dir parallel max_workers
    false sched w = (Returned r, w') →
  failed r = 0%Z →
  ∀ repo, repo ∈ repos →
    (∃ d, r !! name repo = Some (true, d))
    ∧ is_Some (fs w' !! (base_dir / org_name / name repo)%path).
Proof.
  intros Hdelivers Hmode Hrun Hfailed.
  apply (no_false_entry_all_cloned git repos org_name base_dir parallel
           max_workers sched w w' r Hdelivers Hmode Hrun).
  intros k d Hk.
  assert (size (filter (λ entry : string * (bool * option string),
                          entry.2.1 = false) r) = 0) as Hzero.
  { unfold failed, successful in Hfailed.
    pose proof (map_filter_union_complement
                  (λ entry : string * (bool * option string),
                     entry.2.1 = true) r) as Hsplit.
    assert (size r
            = size (filter (λ entry, entry.2.1 = true) r)
              + size (filter (λ entry, entry.2.1 = false) r)) as Hsize.
    { rewrite <-Hsplit at 1. rewrite map_size_disj_union.
      - f_equal. f_equal. apply map_filter_ext.
        intros k' [[] d'] _; simpl; split; intros; congruence.
      - apply map_disjoint_filter_complement. }
    lia. }
  apply map_size_empty_iff in Hzero.
  assert (filter (λ entry : string * (bool * option string),
                    entry.2.1 = false) r !! k = Some (false, d)) as Hin
    by (by apply map_lookup_filter_Some).
  by rewrite Hzero, lookup_empty in Hin.
Qed.

Lemma no_failure_means_all_cloned_witness :
  failed ({[ "repoA" := (true, None); "repoB" := (true, None) ]}
          : gmap string (bool * option string)) = 0%Z
  ∧ ∀ repo, repo ∈ [repo_a; repo_b] →
      (∃ d, ({[ "repoA" := (true, None); "repoB" := (true, None) ]}
             : gmap string (bool * option string)) !! name repo
            = Some (true, d))
      ∧ is_Some (fs both_checked_out !! (tmp / "testorg" / name repo)%path).
Proof.
  split; [vm_compute; reflexivity|].
  apply (no_failure_means_all_cloned git_real [repo_a; repo_b] "testorg" tmp
           true (Some 2%Z) interleaved empty_world both_checked_out).
  - intros repo v Hin.
    repeat (apply elem_of_cons in Hin as [->|Hin]);
      [intros _; vm_compute; by eexists..|].
    by apply elem_of_nil in Hin.
  - apply perm_swap.
  - vm_compute. reflexivity.
  - vm_compute. reflexivity.
Defined.

(** ** What a batch touches *)

Lemma add_dir_frame (p q : Path) (m : gmap Path node) :
  q ≠ p → add_dir p m !! q = m !! q.
Proof.
  intros Hne. unfold add_dir. destruct (m !! p); [done|].
  by rewrite lookup_insert_ne.
Qed.

Lemma mkdir_levels_frame (sofar : Path) (rest : list string)
    (m m' : gmap Path node) (q : Path) :
  mkdir_levels sofar rest m = Returned m' →
  ¬ q `prefix_of` sofar ++ rest →
  m' !! q = m !! q.
Proof.
  revert sofar m.
  induction rest as [|c rest IH]; intros sofar m; simpl.
  - by intros [= ->].
  - intros Hmk Hout.
    assert (¬ q `prefix_of` (sofar / c)%path ++ rest) as Hout'.
    { unfold path_join. by rewrite <-(assoc_L (++)). }
    destruct (m !! (sofar / c)%path) as [[]|] eqn:Hp; [done| |].
    + by eapply IH.
    + rewrite (IH _ _ Hmk Hout'). apply lookup_insert_ne.
      intros <-. apply Hout. unfold path_join.
      apply prefix_app, prefix_cons, prefix_nil.
Qed.

Lemma mkdir_frame (p q : Path) (w w' : World) (r : result unit) :
  mkdir p w = (r, w') → ¬ q `prefix_of` p → fs w' !! q = fs w !! q.
Proof.
  unfold mkdir. destruct (mkdir_levels [] p (fs w)) as [m|e] eqn:Hmk.
  - intros [= <- <-] Hout. simpl. by eapply mkdir_levels_frame.
  - by intros [= <- <-].
Qed.

(** Targets of one level: one lies above the other only if the names
    are the same. *)
Lemma target_prefix (base_dir : Path) (org_name n n' : string) :
  (base_dir / org_name / n')%path `prefix_of` (base_dir / org_name / n)%path →
  n' = n.
Proof.
  unfold path_join. intros [l Hl].
  rewrite <-!(assoc_L (++)) in Hl.
  apply app_inv_head in Hl. simpl in Hl. by injection Hl as ->.
Qed.

(** What lies at or below the target of one name lies neither above
    nor below the target of another name. *)
Lemma targets_apart (base_dir : Path) (org_name n n' : string) (q : Path) :
  n' ≠ n →
  (base_dir / org_name / n')%path `prefix_of` q →
  ¬ q `prefix_of` (base_dir / org_name / n)%path
  ∧ ¬ (base_dir / org_name / n)%path `prefix_of` q.
Proof.
  intros Hne Hbelow. split.
  - intros Habove. apply Hne, (target_prefix base_dir org_name). by etrans.
  - intros Hother.
    destruct (prefix_weak_total _ _ _ Hbelow Hother) as [H|H];
      apply target_prefix in H; congruence.
Qed.

(** A checkout lies at and below its destination. *)
Lemma checkout_confined (target : Path) seconds returncode output :
  confined target (Process seconds returncode output (checkout target)).
Proof.
  intros q [n Hq]. unfold checkout in Hq.
  apply lookup_insert_Some in Hq as [[<- _]|[_ Hq]]; [done|].
  apply lookup_insert_Some in Hq as [[<- _]|[_ Hq]]; [by apply prefix_app_r|].
  apply lookup_singleton_Some in Hq as [<- _]. by apply prefix_app_r.
Qed.

Lemma lookup_union_frame (m created : gmap Path node) (q : Path) :
  created !! q = None → (m ∪ created) !! q = m !! q.
Proof.
  intros Hq. rewrite lookup_union, Hq. by destruct (m !! q).
Qed.

Section Footprint.

Variable git : Tool.
Variables (org_name : string) (base_dir : Path).

(** A run of a tool that stays at or below its target leaves the rest
    of the filesystem as it is. *)
Lemma subprocess_run_frame url target timeout w r w' (q : Path) :
  subprocess_run_git_clone git url target timeout w = (r, w') →
  confined target (git ["git"; "clone"; url; path_str target] w) →
  ¬ target `prefix_of` q → fs w' !! q = fs w !! q.
Proof.
  unfold subprocess_run_git_clone, confined. intros H Hconfined Hout.
  assert (q ≠ target) as Hne by (by intros ->).
  destruct (git _ w) as [| |seconds returncode stderr leaves
                         |seconds returncode output created].
  - by simplify_eq.
  - by simplify_eq.
  - repeat (case_match; simplify_eq); simpl;
      first [done | by apply add_dir_frame].
  - assert (created !! q = None) as Hq.
    { destruct (created !! q) eqn:Hq; [|done].
      destruct Hout. apply Hconfined. by eauto. }
    repeat (case_match; simplify_eq); simpl; by apply lookup_union_frame.
Qed.

Lemma subprocess_run_calls url target timeout w r w' :
  subprocess_run_git_clone git url target timeout w = (r, w') →
  calls w' = calls w ++ [["git"; "clone"; url; path_str target]].
Proof.
  unfold subprocess_run_git_clone. intros H.
  repeat (case_match; simplify_eq); done.
Qed.

Lemma org_dir_prefix (repo_name : string) (q : Path) :
  ¬ q `prefix_of` (base_dir / org_name / repo_name)%path →
  ¬ q `prefix_of` (base_dir / org_name)%path.
Proof.
  intros Hout Hq. apply Hout. etrans; [exact Hq|]. by apply prefix_app_r.
Qed.

Lemma step_task_frame repo dry_run t w t' w' (q : Path) :
  (∀ v, confined (base_dir / org_name / name repo)%path
          (git (clone_argv org_name base_dir repo) v)) →
  step_task git repo org_name base_dir dry_run t w = (t', w') →
  ¬ q `prefix_of` (base_dir / org_name / name repo)%path →
  ¬ (base_dir / org_name / name repo)%path `prefix_of` q →
  fs w' !! q = fs w !! q.
Proof.
  intros Hconfined Hstep Habove Hbelow.
  pose proof (org_dir_prefix _ _ Habove) as Horg.
  unfold step_task in Hstep. destruct t.
  - repeat (case_match; simplify_eq); done.
  - rewrite parent_join in Hstep.
    destruct (mkdir _ w) as [[[]|e] w1] eqn:Hmk; simplify_eq;
      by eapply mkdir_frame.
  - destruct (subprocess_run_git_clone _ _ _ _ _) as [rr w2] eqn:Hrun.
    simplify_eq. eapply subprocess_run_frame; [done| |done].
    apply Hconfined.
  - by simplify_eq.
Qed.

(** A step adds at most one call, the clone of its descriptor, and
    only a task that had not finished can add it. *)
Lemma step_task_calls repo dry_run t w t' w' :
  step_task git repo org_name base_dir dry_run t w = (t', w') →
  may_run t' ≤ may_run t
  ∧ (calls w' = calls w
     ∨ calls w' = calls w ++ [clone_argv org_name base_dir repo]
       ∧ may_run t' < may_run t).
Proof.
  intros Hstep. unfold step_task in Hstep. destruct t.
  - repeat (case_match; simplify_eq); simpl; split; first [lia|by left].
  - destruct (mkdir _ w) as [[[]|e] w1] eqn:Hmk;
      apply mkdir_subseteq in Hmk as [_ Hcalls]; simplify_eq; simpl;
      (split; [lia|by left]).
  - destruct (subprocess_run_git_clone _ _ _ _ _) as [rr w2] eqn:Hrun.
    apply subprocess_run_calls in Hrun. simplify_eq. simpl.
    split; [lia|]. right. split; [done|lia].
  - simplify_eq. split; [lia|by left].
Qed.

Lemma clone_repository_frame repo dry_run w r w' (q : Path) :
  (∀ v, confined (base_dir / org_name / name repo)%path
          (git (clone_argv org_name base_dir repo) v)) →
  clone_repository git repo org_name base_dir dry_run w = (r, w') →
  ¬ q `prefix_of` (base_dir / org_name / name repo)%path →
  ¬ (base_dir / org_name / name repo)%path `prefix_of` q →
  fs w' !! q = fs w !! q.
Proof.
  intros Hconfined Hclone Habove Hbelow.
  pose proof (org_dir_prefix _ _ Habove) as Horg.
  unfold clone_repository in Hclone.
  destruct (path_exists _ _); [by simplify_eq|].
  destruct dry_run; [by simplify_eq|].
  rewrite parent_join in Hclone.
  destruct (mkdir _ w) as [[[]|e] w1] eqn:Hmk;
    [|simplify_eq; by eapply mkdir_frame].
  destruct (subprocess_run_git_clone _ _ _ _ _) as [rr w2] eqn:Hrun.
  assert (w' = w2) as Heq by (destruct rr; by simplify_eq).
  rewrite Heq, (subprocess_run_frame _ _ _ _ _ _ _ Hrun (Hconfined w1) Hbelow).
  by eapply mkdir_frame.
Qed.

Lemma clone_repository_calls repo dry_run w r w' :
  clone_repository git repo org_name base_dir dry_run w = (r, w') →
  calls w' = calls w
  ∨ calls w' = calls w ++ [clone_argv org_name base_dir repo].
Proof.
  intros Hclone. unfold clone_repository in Hclone.
  destruct (path_exists _ _); [left; by simplify_eq|].
  destruct dry_run; [left; by simplify_eq|].
  destruct (mkdir _ w) as [[[]|e] w1] eqn:Hmk;
    apply mkdir_subseteq in Hmk as [_ Hcalls];
    [|left; by simplify_eq].
  destruct (subprocess_run_git_clone _ _ _ _ _) as [rr w2] eqn:Hrun.
  apply subprocess_run_calls in Hrun.
  assert (w' = w2) as Heq by (destruct rr; by simplify_eq).
  right. by rewrite Heq, Hrun, Hcalls.
Qed.


Lemma clone_sequentially_calls repos dry_run repo_name results w r w' :
  clone_sequentially git repos org_name base_dir dry_run repo_name results w
    = (r, w') →
  ∃ new,
    calls w' = calls w ++ new
    ∧ new `sublist_of` clone_argv org_name base_dir <$> repos.
Proof.
  revert repo_name results w.
  induction repos as [|repo repos IH]; intros repo_name results w; simpl.
  - intros [= <- <-]. exists []. by rewrite app_nil_r.
  - intros Hrun.
    assert (∀ w1 new, calls w' = calls w1 ++ new →
              new `sublist_of` clone_argv org_name base_dir <$> repos →
              (calls w1 = calls w
               ∨ calls w1 = calls w ++ [clone_argv org_name base_dir repo]) →
              ∃ new', calls w' = calls w ++ new'
                ∧ new' `sublist_of`
                    clone_argv org_name base_dir repo
                    :: (clone_argv org_name base_dir <$> repos)) as Hglue.
    { intros w1 new Hnew Hsub [Hsame|Hone].
      - exists new. rewrite Hnew, Hsame. split; [done|]. by constructor.
      - exists (clone_argv org_name base_dir repo :: new).
        rewrite Hnew, Hone, <-(assoc_L (++)). split; [done|].
        by constructor. }
    destruct (clone_repository _ repo _ _ _ _) as [[[[n s] d]|e] w1] eqn:Hclone;
      apply clone_repository_calls in Hclone.
    + destruct (IH _ _ _ Hrun) as (new & Hnew & Hsub). eauto.
    + destruct repo_name as [key|].
      * destruct (IH _ _ _ Hrun) as (new & Hnew & Hsub). eauto.
      * simplify_eq. apply (Hglue w' []); [by rewrite app_nil_r| |done].
        apply sublist_nil_l.
Qed.

End Footprint.

Lemma sum_list_insert_may_run (ts : list task) (i : nat) (t t' : task) :
  ts !! i = Some t →
  sum_list (may_run <$> <[i := t']> ts) + may_run t
  = sum_list (may_run <$> ts) + may_run t'.
Proof.
  revert i. induction ts as [|t0 ts IH]; intros [|i] Hi; simplify_eq/=.
  - lia.
  - specialize (IH i Hi). lia.
Qed.

Section PoolFootprint.

Variable git : Tool.
Variables (repos : list Repository) (org_name : string) (base_dir : Path).
Variable dry_run : bool.


(** The calls of the pool are matched one to one with positions of the
    list: every call clones the descriptor at its position, and no
    position has two calls. *)
Lemma run_workers_matching schedule tasks w tasks' w' :
  run_workers git repos org_name base_dir dry_run schedule tasks w
    = (tasks', w') →
  (∀ i t, tasks !! i = Some t → t = Queued) →
  ∃ new positions,
    calls w' = calls w ++ new
    ∧ NoDup positions
    ∧ Forall2 (λ argv i, ∃ repo, repos !! i = Some repo
                           ∧ argv = clone_argv org_name base_dir repo)
        new positions.
Proof.
  intros Hrun Hqueued.
  cut (∃ new positions,
         calls w' = calls w ++ new
         ∧ NoDup positions
         ∧ Forall2 (λ argv i, ∃ repo, repos !! i = Some repo
                                ∧ argv = clone_argv org_name base_dir repo)
             new positions
         ∧ ∀ i, i ∈ positions → ∃ t, tasks' !! i = Some t ∧ may_run t = 0).
  { intros (new & positions & ? & ? & ? & _). by eauto. }
  revert Hrun.
  apply (run_workers_invariant git repos org_name base_dir dry_run
           (λ ts v, ∃ new positions,
              calls v = calls w ++ new
              ∧ NoDup positions
              ∧ Forall2 (λ argv i, ∃ repo, repos !! i = Some repo
                                     ∧ argv = clone_argv org_name base_dir repo)
                  new positions
              ∧ ∀ i, i ∈ positions → ∃ t, ts !! i = Some t ∧ may_run t = 0)).
  - intros i repo t ts v t1 v1 Hrepo Hi
      (new & positions & Hnew & Hnodup & Hmatch & Hdone) Hstep.
    assert (<[i := t1]> ts !! i = Some t1) as Hi1
      by (apply list_lookup_insert_eq; by eapply lookup_lt_Some).
    apply step_task_calls in Hstep as [Hle [Hsame|[Hone Hlt]]].
    + exists new, positions. rewrite Hsame.
      split; [done|]. split; [done|]. split; [done|].
      intros j Hj. destruct (decide (i = j)) as [<-|Hne].
      * destruct (Hdone i Hj) as (t0 & Ht0 & Hzero).
        exists t1. split; [done|]. simplify_eq. lia.
      * rewrite list_lookup_insert_ne by done. by apply Hdone.
    + assert (i ∉ positions) as Hfresh.
      { intros Hin. destruct (Hdone i Hin) as (t0 & Ht0 & Hzero).
        simplify_eq. lia. }
      exists (new ++ [clone_argv org_name base_dir repo]), (positions ++ [i]).
      rewrite Hone, Hnew, <-(assoc_L (++)). split; [done|]. split.
      { apply NoDup_app. split; [done|]. split; [|apply NoDup_singleton].
        intros j Hj ->%list_elem_of_singleton. done. }
      split.
      { apply Forall2_app; [done|]. constructor; [by eauto|constructor]. }
      intros j [Hj| ->%list_elem_of_singleton]%elem_of_app.
      * rewrite list_lookup_insert_ne by (intros ->; done). by apply Hdone.
      * exists t1. split; [done|].
        assert (may_run t ≤ 1) by (destruct t; simpl; lia). lia.
  - exists [], []. rewrite app_nil_r. split; [done|].
    split; [apply NoDup_nil_2|]. split; [constructor|].
    intros i Hi. by apply elem_of_nil in Hi.
Qed.

Lemma run_workers_calls schedule tasks w tasks' w' :
  run_workers git repos org_name base_dir dry_run schedule tasks w
    = (tasks', w') →
  ∃ new,
    calls w' = calls w ++ new
    ∧ (∀ argv, argv ∈ new →
         ∃ repo, repo ∈ repos ∧ argv = clone_argv org_name base_dir repo)
    ∧ length new + sum_list (may_run <$> tasks')
      ≤ sum_list (may_run <$> tasks).
Proof.
  apply (run_workers_invariant git repos org_name base_dir dry_run
           (λ ts v, ∃ new,
              calls v = calls w ++ new
              ∧ (∀ argv, argv ∈ new →
                   ∃ repo, repo ∈ repos
                           ∧ argv = clone_argv org_name base_dir repo)
              ∧ length new + sum_list (may_run <$> ts)
                ≤ sum_list (may_run <$> tasks))).
  - intros i repo t ts v t1 v1 Hrepo Hi (new & Hnew & Hall & Hbound) Hstep.
    pose proof (sum_list_insert_may_run ts i t t1 Hi) as Hsum.
    apply step_task_calls in Hstep as [Hle [Hsame|[Hone Hlt]]].
    + exists new. rewrite Hsame. split; [done|]. split; [done|]. lia.
    + exists (new ++ [clone_argv org_name base_dir repo]).
      rewrite Hone, Hnew, <-(assoc_L (++)). split; [done|]. split.
      * intros argv [Hin|Hin%list_elem_of_singleton]%elem_of_app; [by eauto|].
        exists repo. split; [|done]. by eapply list_elem_of_lookup_2.
      * rewrite length_app. simpl. lia.
  - exists []. rewrite app_nil_r. split; [done|]. split; [|simpl; lia].
    intros argv Hin. by apply elem_of_nil in Hin.
Qed.

End PoolFootprint.

Lemma sum_list_may_run_queued (n : nat) :
  sum_list (may_run <$> replicate n Queued) = n.
Proof.
  induction n as [|n IH]; [done|].
  change (replicate (S n) Queued) with (Queued :: replicate n Queued).
  rewrite fmap_cons. simpl. by rewrite IH.
Qed.

(** The elements of a sublist of the images of a list are the images
    of distinct positions of that list. *)
Lemma sublist_fmap_positions {A B} (f : A → B) (l : list A) (new : list B) :
  new `sublist_of` f <$> l →
  ∃ positions,
    NoDup positions
    ∧ Forall2 (λ b i, ∃ a, l !! i = Some a ∧ b = f a) new positions.
Proof.
  revert new. induction l as [|a l IH]; intros new Hsub.
  - apply sublist_nil_r in Hsub as ->. exists []. split; constructor.
  - rewrite fmap_cons in Hsub.
    assert (∀ new', new' `sublist_of` f <$> l →
              ∃ positions,
                NoDup positions
                ∧ (0 ∉ positions)
                ∧ Forall2 (λ b i, ∃ a', (a :: l) !! i = Some a' ∧ b = f a')
                    new' positions) as Hshift.
    { intros new' (positions & Hnodup & Hmatch)%IH.
      exists (S <$> positions). split; [by apply (NoDup_fmap_2 S)|]. split.
      - intros (j & ? & _)%list_elem_of_fmap. done.
      - by apply Forall2_fmap_r. }
    apply sublist_cons_r in Hsub as [Hsub|(new' & -> & Hsub)].
    + destruct (Hshift new Hsub) as (positions & ? & _ & ?). by eauto.
    + destruct (Hshift new' Hsub) as (positions & Hnodup & Hfresh & Hmatch).
      exists (0 :: positions). split; [by constructor|].
      constructor; [by eauto|done].
Qed.



(** X5.  The calls of the tool that a batch adds, in either mode, are
    matched one to one with positions of the list of descriptors:
    every call clones the URL of the descriptor at its position into
    the target of that descriptor, and no position has two calls.  A
    dry run adds no call. *)
Theorem tool_runs_once_per_descriptor_at_most
    (git : Tool) (repos : list Repository) (org_name : string)
    (base_dir : Path) (parallel : bool) (max_workers : option Z)
    (dry_run : bool) (sched : Scheduling) (w : World) :
  ∃ new positions,
    calls (clone_all_repositories git repos org_name base_dir parallel
             max_workers dry_run sched w).2 = calls w ++ new
    ∧ NoDup positions
    ∧ Forall2 (λ argv i,
                 ∃ repo, repos !! i = Some repo
                         ∧ argv = ["git"; "clone"; clone_url repo;
                                   path_str (base_dir / org_name / name repo)%path])
        new positions
    ∧ (dry_run = true → new = []).
Proof.
  cut (∃ new positions,
         calls (clone_all_repositories git repos org_name base_dir parallel
                  max_workers dry_run sched w).2 = calls w ++ new
         ∧ NoDup positions
         ∧ Forall2 (λ argv i,
                      ∃ repo, repos !! i = Some repo
                              ∧ argv = clone_argv org_name base_dir repo)
             new positions).
  { intros (new & positions & Hnew & Hnodup & Hmatch).
    exists new, positions. repeat (split; [done|]).
    intros ->. apply (app_inv_head (calls w)).
    rewrite app_nil_r, <-Hnew.
    destruct (decide (repos = [])) as [->|Hne]; [done|].
    rewrite clone_all_repositories_nonempty by done.
    destruct parallel.
    - destruct (match max_workers with Some n => _ | None => _ end); [done|].
      destruct (run_workers_dry_run git repos org_name base_dir
                  (interleaving sched ++ join_all (length repos))
                  (replicate (length repos) Queued) w) as [tasks ->]; [|done].
      by apply Forall_replicate.
    - by destruct (clone_sequentially_dry_run git repos org_name base_dir
                     None ∅ w) as [r ->]. }
  assert (∃ new positions, calls w = calls w ++ new
            ∧ NoDup positions
            ∧ Forall2 (λ argv i,
                         ∃ repo, repos !! i = Some repo
                                 ∧ argv = clone_argv org_name base_dir repo)
                new positions) as Hnone.
  { exists [], []. rewrite app_nil_r. split; [done|]. split; constructor. }
  destruct (decide (repos = [])) as [->|Hne]; [done|].
  rewrite clone_all_repositories_nonempty by done.
  assert (∃ r0 wa,
            (if dry_run then (Returned tt, w)
             else mkdir (base_dir / org_name)%path w) = (r0, wa)
            ∧ calls wa = calls w) as (r0 & wa & -> & Hcalls).
  { destruct dry_run; [by eauto|].
    destruct (mkdir _ w) as [r0 wa] eqn:Hmk. exists r0, wa.
    split; [done|]. by eapply mkdir_subseteq. }
  destruct r0 as [[]|e]; [|simpl; rewrite Hcalls; exact Hnone].
  destruct parallel.
  - destruct (match max_workers with Some n => _ | None => _ end);
      [simpl; rewrite Hcalls; exact Hnone|].
    destruct (run_workers _ _ _ _ _ _ _ _) as [tasks w2] eqn:Hpool. simpl.
    destruct (run_workers_matching _ _ _ _ _ _ _ _ _ _ Hpool)
      as (new & positions & Hnew & Hnodup & Hmatch).
    { intros i t [-> _]%lookup_replicate. done. }
    exists new, positions. by rewrite Hnew, Hcalls.
  - destruct (clone_sequentially _ _ _ _ _ _ _ _) as [r w2] eqn:Hseq. simpl.
    destruct (clone_sequentially_calls _ _ _ _ _ _ _ _ _ _ Hseq)
      as (new & Hnew & Hsub).
    destruct (sublist_fmap_positions _ _ _ Hsub)
      as (positions & Hnodup & Hmatch).
    exists new, positions. by rewrite Hnew, Hcalls.
Qed.

(** ** The two modes agree *)

Section Agreement.

Variable git : Tool.
Variables (org_name : string) (base_dir : Path) (dry_run : bool).

(** What the tool does depends on its arguments only. *)
Hypothesis git_steady : ∀ argv v v', git argv v = git argv v'.

(** The tool can always be started, and what it prints is text. *)
Hypothesis git_legible : ∀ argv v, legible (git argv v).

(** The world in which the batch starts, the organization directory
    being there (dry runs never look at it). *)
Variable w0 : World.
Hypothesis org_dir_there :
  dry_run = true ∨ mkdir (base_dir / org_name)%path w0 = (Returned tt, w0).

Lemma org_dir_created :
  dry_run = true ∨ ∃ v, mkdir (base_dir / org_name)%path v = (Returned tt, w0).
Proof. destruct org_dir_there; eauto. Qed.

Lemma subprocess_run_steady url target timeout v :
  (subprocess_run_git_clone git url target timeout v).1
  = (subprocess_run_git_clone git url target timeout w0).1.
Proof.
  unfold subprocess_run_git_clone.
  rewrite (git_steady _ v w0).
  destruct (git _ w0); try done; by repeat case_match.
Qed.

Lemma outcome_at_returns repo :
  ∃ s d,
    outcome_at git org_name base_dir dry_run w0 repo
    = Returned (name repo, s, d).
Proof.
  unfold outcome_at.
  destruct (clone_repository_returns git org_name base_dir dry_run git_legible
              w0 org_dir_created repo w0) as (s & d & w' & ->); [done|].
  by eauto.
Qed.

Lemma clone_repository_steady repo v :
  fs w0 ⊆ fs v →
  fs v !! (base_dir / org_name / name repo)%path
  = fs w0 !! (base_dir / org_name / name repo)%path →
  (clone_repository git repo org_name base_dir dry_run v).1
  = outcome_at git org_name base_dir dry_run w0 repo.
Proof.
  intros Hlater Hsame. unfold outcome_at, clone_repository, path_exists.
  rewrite Hsame. destruct (bool_decide _); [done|].
  destruct org_dir_there as [->|Hmk]; [done|].
  destruct dry_run; [done|].
  rewrite parent_join, Hmk, (mkdir_again _ _ _ _ Hmk Hlater).
  pose proof (subprocess_run_steady (clone_url repo)
                (base_dir / org_name / name repo)%path 300%N v) as Hrun.
  destruct (subprocess_run_git_clone _ _ _ _ v) as [r1 v1].
  destruct (subprocess_run_git_clone _ _ _ _ w0) as [r2 v2].
  simpl in Hrun. subst r2. by destruct r1.
Qed.

(** The sequential loop writes, for every descriptor, what
    [clone_repository] would have handed back at the start. *)
Lemma clone_sequentially_steady repos repo_name results v :
  (∀ repo u, repo ∈ repos →
     confined (base_dir / org_name / name repo)%path
       (git (clone_argv org_name base_dir repo) u)) →
  NoDup (name <$> repos) →
  fs w0 ⊆ fs v →
  (∀ repo, repo ∈ repos →
     fs v !! (base_dir / org_name / name repo)%path
     = fs w0 !! (base_dir / org_name / name repo)%path) →
  ∃ r v',
    clone_sequentially git repos org_name base_dir dry_run repo_name results v
    = (Returned r, v')
    ∧ (∀ repo, repo ∈ repos →
         r !! name repo
         = Some (entry_of repo
                   (outcome_at git org_name base_dir dry_run w0 repo)).2)
    ∧ (∀ k, k ∉ name <$> repos → r !! k = results !! k).
Proof.
  revert repo_name results v.
  induction repos as [|repo repos IH]; intros repo_name results v
    Hconfined Hnodup Hlater Hsame.
  - exists results, v. split; [done|]. split; [|done].
    intros repo Hin. by apply elem_of_nil in Hin.
  - rewrite fmap_cons in Hnodup. apply NoDup_cons in Hnodup as [Hfresh Hnodup].
    cbn [clone_sequentially].
    pose proof (clone_repository_steady repo v Hlater
                  (Hsame repo ltac:(left))) as Hclone.
    destruct (outcome_at_returns repo) as (s & d & Hout).
    destruct (clone_repository _ repo _ _ _ v) as [r1 v1] eqn:Hrun.
    simpl in Hclone. rewrite Hout in Hclone. subst r1.
    destruct (IH (Some (name repo)) (<[name repo := (s, d)]> results) v1)
      as (r & v' & -> & Hentries & Hothers); [|done| | |].
    { intros repo' u Hin. apply Hconfined. by right. }
    { etrans; [exact Hlater|]. by eapply clone_repository_subseteq. }
    { intros repo' Hin.
      assert (name repo' ≠ name repo) as Hne.
      { intros Heq. apply Hfresh. rewrite <-Heq. by apply list_elem_of_fmap_2. }
      destruct (targets_apart base_dir org_name _ _
                  (base_dir / org_name / name repo')%path Hne) as [? ?];
        [done|].
      rewrite (clone_repository_frame git org_name base_dir _ _ _ _ _ _
                 (λ u, Hconfined repo u ltac:(left)) Hrun) by done.
      apply Hsame. by right. }
    exists r, v'. split; [done|]. split.
    + intros repo' [->|Hin]%elem_of_cons; [|by apply Hentries].
      rewrite Hothers by done. rewrite lookup_insert_eq. by rewrite Hout.
    + intros k Hk. rewrite fmap_cons in Hk.
      apply not_elem_of_cons in Hk as [Hne Hk].
      rewrite Hothers by done. by rewrite lookup_insert_ne.
Qed.

(** So does every task of the pool, however the workers interleave. *)
Lemma run_workers_steady repos schedule tasks v tasks' v' :
  (∀ repo u, repo ∈ repos →
     confined (base_dir / org_name / name repo)%path
       (git (clone_argv org_name base_dir repo) u)) →
  NoDup (name <$> repos) →
  fs w0 ⊆ fs v →
  (∀ i repo t, repos !! i = Some repo → tasks !! i = Some t →
     on_course git org_name base_dir dry_run w0 v repo t) →
  run_workers git repos org_name base_dir dry_run schedule tasks v
    = (tasks', v') →
  ∀ i repo t, repos !! i = Some repo → tasks' !! i = Some t →
    on_course git org_name base_dir dry_run w0 v' repo t.
Proof.
  intros Hconfined Hnodup Hlater Hstart Hrun.
  cut (fs w0 ⊆ fs v'
       ∧ ∀ i repo t, repos !! i = Some repo → tasks' !! i = Some t →
           on_course git org_name base_dir dry_run w0 v' repo t);
    [by intros [_ ?]|].
  revert Hrun.
  apply (run_workers_invariant git repos org_name base_dir dry_run
           (λ ts u, fs w0 ⊆ fs u
              ∧ ∀ i repo t, repos !! i = Some repo → ts !! i = Some t →
                  on_course git org_name base_dir dry_run w0 u repo t));
    [|by split].
  intros i repo t ts u t1 u1 Hrepo Hi [Hsub HI] Hstep.
  assert (fs u ⊆ fs u1) as Hgrows by (by eapply step_task_subseteq).
  split; [by etrans|].
  intros j repo' t' Hrepo' Hj.
  destruct (decide (i = j)) as [->|Hne].
  - rewrite list_lookup_insert_eq in Hj by (eapply lookup_lt_Some; done).
    injection Hj as <-. rewrite Hrepo in Hrepo'. injection Hrepo' as <-.
    pose proof (HI j repo t Hrepo Hi) as Ht.
    destruct t; simpl in Ht, Hstep.
    + pose proof (clone_repository_steady repo u Hsub Ht) as Hclone.
      unfold clone_repository in Hclone.
      destruct (path_exists u _) eqn:Hexists.
      { injection Hstep as <- <-. simpl. by rewrite <-Hclone. }
      destruct dry_run eqn:Hdry.
      { injection Hstep as <- <-. simpl. by rewrite <-Hclone. }
      injection Hstep as <- <-. simpl. split; [|done].
      unfold path_exists in *. by rewrite <-Ht.
    + destruct Ht as [Hfresh ->].
      destruct org_dir_there as [?|Hmk]; [done|].
      rewrite parent_join, (mkdir_again _ _ _ _ Hmk Hsub) in Hstep.
      injection Hstep as <- <-. done.
    + destruct Ht as [Hfresh Hdry].
      destruct org_dir_there as [?|Hmk]; [congruence|].
      pose proof (subprocess_run_steady (clone_url repo)
                    (base_dir / org_name / name repo)%path 300%N u) as Hsame.
      destruct (subprocess_run_git_clone _ _ _ _ u) as [r1 u2].
      injection Hstep as <- <-. simpl. unfold outcome_at.
      rewrite Hdry, (clone_repository_runs git repo org_name base_dir w0 w0)
        by done.
      destruct (subprocess_run_git_clone _ _ _ _ w0) as [r2 u3].
      simpl in Hsame. by subst r2.
    + injection Hstep as <- <-. done.
  - rewrite list_lookup_insert_ne in Hj by done.
    pose proof (HI j repo' t' Hrepo' Hj) as Ht.
    destruct t'; simpl in *; try done.
    rewrite <-Ht.
    assert (name repo' ≠ name repo) as Hnames.
    { intros Heq. apply Hne.
      eapply NoDup_lookup; [exact Hnodup| |].
      - rewrite list_lookup_fmap, Hrepo. reflexivity.
      - rewrite list_lookup_fmap, Hrepo'. simpl. by rewrite Heq. }
    destruct (targets_apart base_dir org_name _ _
                (base_dir / org_name / name repo')%path Hnames) as [? ?];
      [done|].
    eapply (step_task_frame git org_name base_dir); [|exact Hstep|done..].
    intros u0. apply Hconfined. by eapply list_elem_of_lookup_2.
Qed.

End Agreement.

(** Over distinct names the two modes return the same. *)
Lemma parallel_and_sequential_return_the_same
    (git : Tool) (repos : list Repository) (org_name : string)
    (base_dir : Path) (max_workers : option Z) (dry_run : bool)
    (sched : Scheduling) (w : World) :
  NoDup (name <$> repos) →
  (∀ argv v v', git argv v = git argv v') →
  (∀ argv v, legible (git argv v)) →
  (∀ repo v, repo ∈ repos →
     confined (base_dir / org_name / name repo)%path
       (git (clone_argv org_name base_dir repo) v)) →
  match max_workers with Some n => (n <=? 0)%Z | None => false end = false →
  completion sched ≡ₚ seq 0 (length repos) →
  (clone_all_repositories git repos org_name base_dir true max_workers
     dry_run sched w).1
  = (clone_all_repositories git repos org_name base_dir false max_workers
       dry_run sched w).1.
Proof.
  intros Hnodup Hsteady Hstarts Hconfined Hworkers Hperm.
  destruct (decide (repos = [])) as [->|Hne]; [done|].
  rewrite !clone_all_repositories_nonempty by done.
  destruct (if dry_run then _ else _) as [[[]|e] wa] eqn:Horg; [|done].
  rewrite Hworkers.
  assert (dry_run = true
          ∨ mkdir (base_dir / org_name)%path wa = (Returned tt, wa)) as Hthere.
  { destruct dry_run; [by left|right]. by eapply mkdir_again. }
  destruct (clone_sequentially_steady git org_name base_dir dry_run Hsteady
              Hstarts wa Hthere repos None ∅ wa Hconfined Hnodup)
    as (rs & vs & -> & Hentries & Hothers); [done..|].
  destruct (run_workers _ _ _ _ _ _ _ _) as [tasks vp] eqn:Hpool.
  simpl. f_equal. apply map_eq. intros k.
  destruct (decide (k ∈ name <$> repos)) as [Hin|Hout].
  - apply list_elem_of_fmap in Hin as (repo & -> & Hin).
    rewrite (Hentries repo Hin).
    apply list_elem_of_lookup_1 in Hin as [i Hi].
    destruct (run_workers_all_finished git repos org_name base_dir dry_run
                _ _ _ _ _ (length_replicate _ _) Hpool i
                ltac:(by eapply lookup_lt_Some)) as [res Hres].
    pose proof (run_workers_steady git org_name base_dir dry_run Hsteady
                  wa Hthere repos
                  (interleaving sched ++ join_all (length repos))
                  (replicate (length repos) Queued) wa tasks vp Hconfined
                  Hnodup ltac:(done)) as Hcourse.
    rewrite (collect_completed_own_entry repos tasks (completion sched) i
               repo res Hnodup); [| | |done..].
    + assert (res = outcome_at git org_name base_dir dry_run wa repo) as ->;
        [|done].
      apply (Hcourse ltac:(intros j repo' t _ Ht;
        apply lookup_replicate in Ht as [-> _]; done) Hpool i repo _ Hi Hres).
    + intros j repo' res' Hj Hres'.
      by eapply pool_entry_key.
    + rewrite Hperm. apply elem_of_seq. apply lookup_lt_Some in Hi. lia.
  - rewrite (Hothers k Hout), lookup_empty.
    apply not_elem_of_dom. intros Hdom. apply Hout.
    assert (dom (collect_completed repos tasks (completion sched) ∅)
            ⊆ list_to_set (name <$> repos)) as Hkeys.
    { apply (clone_all_repositories_keys git repos org_name base_dir true
               max_workers dry_run sched w vp).
      rewrite clone_all_repositories_nonempty by done.
      by rewrite Horg, Hworkers, Hpool. }
    apply Hkeys in Hdom. by apply elem_of_list_to_set in Hdom.
Qed.

(** *** The files that the two modes leave *)

Lemma add_dir_lookup_same (p q : Path) (m1 m2 : gmap Path node) :
  m1 !! p = m2 !! p → m1 !! q = m2 !! q →
  add_dir p m1 !! q = add_dir p m2 !! q.
Proof.
  intros Hp Hq. unfold add_dir. rewrite <-Hp.
  destruct (m1 !! p) eqn:Hp1; [done|].
  destruct (decide (q = p)) as [->|Hne].
  - by rewrite !lookup_insert_eq.
  - by rewrite !lookup_insert_ne.
Qed.

Section Files.

Variable git : Tool.
Variables (org_name : string) (base_dir : Path) (dry_run : bool).

Hypothesis git_steady : ∀ argv v v', git argv v = git argv v'.

Hypothesis git_legible : ∀ argv v, legible (git argv v).

Variable w0 : World.
Hypothesis org_dir_there :
  dry_run = true ∨ mkdir (base_dir / org_name)%path w0 = (Returned tt, w0).

(** Two runs of the tool that find the same at and below the target
    leave the same there. *)
Lemma subprocess_run_settles url target timeout v :
  (∀ q : Path, target `prefix_of` q → fs v !! q = fs w0 !! q) →
  ∀ q : Path, target `prefix_of` q →
    fs (subprocess_run_git_clone git url target timeout v).2 !! q
    = fs (subprocess_run_git_clone git url target timeout w0).2 !! q.
Proof.
  intros Hsame q Hq. unfold subprocess_run_git_clone.
  rewrite (git_steady _ v w0).
  destruct (git _ w0) as [| |seconds returncode stderr leaves
                          |seconds returncode output created].
  - by apply Hsame.
  - by apply Hsame.
  - repeat case_match; simpl;
      first [by apply Hsame | apply add_dir_lookup_same; by apply Hsame].
  - repeat case_match; simpl; rewrite !lookup_union; by rewrite (Hsame q Hq).
Qed.

Lemma clone_repository_settles repo v :
  fs w0 ⊆ fs v →
  (∀ q : Path, (base_dir / org_name / name repo)%path `prefix_of` q →
     fs v !! q = fs w0 !! q) →
  ∀ q : Path, (base_dir / org_name / name repo)%path `prefix_of` q →
    fs (clone_repository git repo org_name base_dir dry_run v).2 !! q
    = fs (clone_repository git repo org_name base_dir dry_run w0).2 !! q.
Proof.
  intros Hlater Hsame q Hq. unfold clone_repository, path_exists.
  rewrite (Hsame (base_dir / org_name / name repo)%path) by done.
  destruct (bool_decide _); [by apply Hsame|].
  destruct org_dir_there as [->|Hmk]; [by apply Hsame|].
  destruct dry_run; [by apply Hsame|].
  rewrite parent_join, Hmk, (mkdir_again _ _ _ _ Hmk Hlater).
  pose proof (subprocess_run_settles (clone_url repo)
                (base_dir / org_name / name repo)%path 300%N v Hsame q Hq)
    as Hrun.
  destruct (subprocess_run_git_clone _ _ _ _ v) as [r1 v1].
  destruct (subprocess_run_git_clone _ _ _ _ w0) as [r2 v2].
  simpl in Hrun. by destruct r1, r2.
Qed.

(** Once the organization directory is there, a call changes nothing
    but at and below its target. *)
Lemma clone_repository_elsewhere repo v (q : Path) :
  (∀ u, confined (base_dir / org_name / name repo)%path
          (git (clone_argv org_name base_dir repo) u)) →
  fs w0 ⊆ fs v →
  ¬ (base_dir / org_name / name repo)%path `prefix_of` q →
  fs (clone_repository git repo org_name base_dir dry_run v).2 !! q
  = fs v !! q.
Proof.
  intros Hconfined Hlater Hout. unfold clone_repository.
  destruct (path_exists _ _); [done|].
  destruct org_dir_there as [->|Hmk]; [done|].
  destruct dry_run; [done|].
  rewrite parent_join, (mkdir_again _ _ _ _ Hmk Hlater).
  destruct (subprocess_run_git_clone _ _ _ _ v) as [r1 v1] eqn:Hrun.
  apply (subprocess_run_frame _ _ _ _ _ _ _ q) in Hrun;
    [|apply Hconfined|done].
  by destruct r1.
Qed.

Lemma clone_sequentially_settles repos repo_name results v :
  (∀ repo u, repo ∈ repos →
     confined (base_dir / org_name / name repo)%path
       (git (clone_argv org_name base_dir repo) u)) →
  NoDup (name <$> repos) →
  fs w0 ⊆ fs v →
  (∀ repo (q : Path), repo ∈ repos →
     (base_dir / org_name / name repo)%path `prefix_of` q →
     fs v !! q = fs w0 !! q) →
  let v' :=
    (clone_sequentially git repos org_name base_dir dry_run repo_name
       results v).2 in
  (∀ repo (q : Path), repo ∈ repos →
     (base_dir / org_name / name repo)%path `prefix_of` q →
     fs v' !! q
     = fs (clone_repository git repo org_name base_dir dry_run w0).2 !! q)
  ∧ (∀ q : Path,
       (∀ repo, repo ∈ repos →
          ¬ (base_dir / org_name / name repo)%path `prefix_of` q) →
       fs v' !! q = fs v !! q).
Proof.
  revert repo_name results v.
  induction repos as [|repo repos IH]; intros repo_name results v
    Hconfined Hnodup Hlater Hsame v'.
  - split; [|done]. intros repo q Hin. by apply elem_of_nil in Hin.
  - rewrite fmap_cons in Hnodup. apply NoDup_cons in Hnodup as [Hfresh Hnodup].
    subst v'. cbn [clone_sequentially].
    assert (∀ u, confined (base_dir / org_name / name repo)%path
                   (git (clone_argv org_name base_dir repo) u)) as Hthis
      by (intros u; apply Hconfined; left).
    pose proof (clone_repository_steady git org_name base_dir dry_run
                  git_steady w0 org_dir_there repo v Hlater
                  (Hsame repo _ ltac:(left) ltac:(done))) as Hres.
    pose proof (clone_repository_settles repo v Hlater
                  (λ q, Hsame repo q ltac:(left))) as Htarget.
    pose proof (clone_repository_elsewhere repo v) as Helse.
    destruct (outcome_at_returns git org_name base_dir dry_run git_legible w0
                org_dir_there repo) as (s & d & Hout).
    pose proof (clone_repository_subseteq git repo org_name base_dir dry_run v)
      as Hgrows.
    destruct (clone_repository _ repo _ _ _ v) as [r1 v1].
    simpl in Hres, Htarget, Helse. rewrite Hout in Hres. subst r1.
    specialize (Hgrows _ _ eq_refl).
    assert (∀ repo' (q : Path), repo' ∈ repos →
              (base_dir / org_name / name repo')%path `prefix_of` q →
              ¬ (base_dir / org_name / name repo)%path `prefix_of` q)
      as Hdistinct.
    { intros repo' q Hin Hq.
      apply (targets_apart base_dir org_name (name repo) (name repo') q);
        [|done].
      intros Heq. apply Hfresh. rewrite <-Heq. by apply list_elem_of_fmap_2. }
    destruct (IH (Some (name repo)) (<[name repo := (s, d)]> results) v1)
      as [Htargets Hothers]; [|done|by etrans| |].
    { intros repo' u Hin. apply Hconfined. by right. }
    { intros repo' q Hin Hq.
      rewrite (Helse q Hthis Hlater (Hdistinct repo' q Hin Hq)).
      apply (Hsame repo'); [by right|done]. }
    split.
    + intros repo' q [->|Hin]%elem_of_cons Hq; [|by apply Htargets].
      rewrite Hothers; [by apply Htarget|].
      intros repo' Hin Hq'. by apply (Hdistinct repo' q Hin Hq').
    + intros q Hq. rewrite Hothers by (intros; apply Hq; by right).
      apply (Helse q Hthis Hlater). apply Hq. left.
Qed.

Lemma run_workers_settles repos schedule tasks v tasks' v' :
  (∀ repo u, repo ∈ repos →
     confined (base_dir / org_name / name repo)%path
       (git (clone_argv org_name base_dir repo) u)) →
  NoDup (name <$> repos) →
  fs w0 ⊆ fs v →
  (∀ i repo t, repos !! i = Some repo → tasks !! i = Some t →
     settled git org_name base_dir dry_run w0 v repo t) →
  run_workers git repos org_name base_dir dry_run schedule tasks v
    = (tasks', v') →
  (∀ i repo t, repos !! i = Some repo → tasks' !! i = Some t →
     settled git org_name base_dir dry_run w0 v' repo t)
  ∧ (∀ q : Path,
       (∀ repo, repo ∈ repos →
          ¬ (base_dir / org_name / name repo)%path `prefix_of` q) →
       fs v' !! q = fs v !! q).
Proof.
  intros Hconfined Hnodup Hlater Hstart Hrun.
  cut (fs w0 ⊆ fs v'
       ∧ (∀ i repo t, repos !! i = Some repo → tasks' !! i = Some t →
            settled git org_name base_dir dry_run w0 v' repo t)
       ∧ (∀ q : Path,
            (∀ repo, repo ∈ repos →
               ¬ (base_dir / org_name / name repo)%path `prefix_of` q) →
            fs v' !! q = fs v !! q));
    [by intros (_ & ? & ?)|].
  revert Hrun.
  apply (run_workers_invariant git repos org_name base_dir dry_run
           (λ ts u, fs w0 ⊆ fs u
              ∧ (∀ i repo t, repos !! i = Some repo → ts !! i = Some t →
                   settled git org_name base_dir dry_run w0 u repo t)
              ∧ (∀ q : Path,
                   (∀ repo, repo ∈ repos →
                      ¬ (base_dir / org_name / name repo)%path `prefix_of` q) →
                   fs u !! q = fs v !! q)));
    [|by split].
  intros i repo t ts u t1 u1 Hrepo Hi (Hsub & HI & Hrest) Hstep.
  assert (fs u ⊆ fs u1) as Hgrows by (by eapply step_task_subseteq).
  assert (repo ∈ repos) as Hin by (by eapply list_elem_of_lookup_2).
  pose proof (HI i repo t Hrepo Hi) as Ht.
  (* the step changes nothing but at and below the target of its
     descriptor *)
  assert (∀ q : Path,
            ¬ (base_dir / org_name / name repo)%path `prefix_of` q →
            fs u1 !! q = fs u !! q) as Helse.
  { intros q Hq. destruct t; simpl in Ht, Hstep.
    - by repeat (case_match; simplify_eq).
    - destruct Ht as (_ & _ & Hdry).
      destruct org_dir_there as [?|Hmk]; [congruence|].
      rewrite parent_join, (mkdir_again _ _ _ _ Hmk Hsub) in Hstep.
      by injection Hstep as <- <-.
    - destruct (subprocess_run_git_clone _ _ _ _ u) as [rr u2] eqn:Hcall.
      injection Hstep as <- <-.
      apply (subprocess_run_frame _ _ _ _ _ _ _ q) in Hcall; [done| |done].
      by apply Hconfined.
    - by injection Hstep as <- <-. }
  split; [by etrans|]. split.
  - intros j repo' t' Hrepo' Hj.
    destruct (decide (i = j)) as [->|Hne].
    + rewrite list_lookup_insert_eq in Hj by (eapply lookup_lt_Some; done).
      injection Hj as <-. rewrite Hrepo in Hrepo'. injection Hrepo' as <-.
      destruct t; simpl in Ht, Hstep.
      * unfold path_exists in Hstep. rewrite (Ht _ ltac:(done)) in Hstep.
        unfold settled, clone_repository, path_exists.
        destruct (bool_decide _) eqn:Hexists.
        { injection Hstep as <- <-. done. }
        destruct dry_run eqn:Hdry.
        { injection Hstep as <- <-. done. }
        injection Hstep as <- <-. simpl. done.
      * destruct Ht as (Hsame & Hfresh & Hdry).
        destruct org_dir_there as [?|Hmk]; [congruence|].
        rewrite parent_join, (mkdir_again _ _ _ _ Hmk Hsub) in Hstep.
        injection Hstep as <- <-. done.
      * destruct Ht as (Hsame & Hfresh & Hdry).
        destruct org_dir_there as [?|Hmk]; [congruence|].
        pose proof (subprocess_run_settles (clone_url repo)
                      (base_dir / org_name / name repo)%path 300%N u Hsame)
          as Hsettles.
        destruct (subprocess_run_git_clone _ _ _ _ u) as [r1 u2].
        injection Hstep as <- <-. unfold settled.
        rewrite Hdry, (clone_repository_runs git repo org_name base_dir w0 w0)
          by done.
        destruct (subprocess_run_git_clone _ _ _ _ w0) as [r2 u3].
        done.
      * injection Hstep as <- <-. done.
    + rewrite list_lookup_insert_ne in Hj by done.
      pose proof (HI j repo' t' Hrepo' Hj) as Ht'.
      assert (∀ q : Path,
                (base_dir / org_name / name repo')%path `prefix_of` q →
                fs u1 !! q = fs u !! q) as Hkept.
      { intros q Hq. apply Helse.
        apply (targets_apart base_dir org_name (name repo) (name repo') q);
          [|done].
        intros Heq. apply Hne.
        eapply NoDup_lookup; [exact Hnodup| |].
        - rewrite list_lookup_fmap, Hrepo. reflexivity.
        - rewrite list_lookup_fmap, Hrepo'. simpl. by rewrite Heq. }
      unfold settled in *.
      destruct t'; [|destruct Ht' as (Hsame & ? & ?); split; [|done]..|];
        intros q Hq; rewrite (Hkept q Hq); by auto.
  - intros q Hq. rewrite <-(Hrest q Hq). apply Helse. by apply Hq.
Qed.

End Files.

(** X6.  Over descriptors with distinct plain names, with a tool that can
    be started, of which the output is text, of which the behaviour
    depends on its arguments only and which creates nothing but at or
    below the target that it is given, the parallel mode returns what
    the sequential mode returns (the same mapping, or the same
    exception from creating the organization directory) and leaves the
    same files, however the workers interleave. *)
Theorem parallel_and_sequential_agree
    (git : Tool) (repos : list Repository) (org_name : string)
    (base_dir : Path) (max_workers : option Z) (dry_run : bool)
    (sched : Scheduling) (w : World) :
  NoDup (name <$> repos) →
  (∀ repo, repo ∈ repos → well_placed base_dir org_name repo = true) →
  (∀ argv v v', git argv v = git argv v') →
  (∀ argv v, legible (git argv v)) →
  (∀ repo v, repo ∈ repos →
     confined (base_dir / org_name / name repo)%path
       (git ["git"; "clone"; clone_url repo;
             path_str (base_dir / org_name / name repo)%path] v)) →
  match max_workers with Some n => (n <=? 0)%Z | None => false end = false →
  completion sched ≡ₚ seq 0 (length repos) →
  (clone_all_repositories git repos org_name base_dir true max_workers
     dry_run sched w).1
  = (clone_all_repositories git repos org_name base_dir false max_workers
       dry_run sched w).1
  ∧ fs (clone_all_repositories git repos org_name base_dir true max_workers
          dry_run sched w).2
    = fs (clone_all_repositories git repos org_name base_dir false max_workers
            dry_run sched w).2.
Proof.
  intros Hnodup _ Hsteady Hlegible Hconfined Hworkers Hperm.
  split; [by apply parallel_and_sequential_return_the_same|].
  destruct (decide (repos = [])) as [->|Hne]; [reflexivity|].
  rewrite !clone_all_repositories_nonempty by done.
  destruct (if dry_run then _ else _) as [[[]|e] wa] eqn:Horg; [|done].
  rewrite Hworkers.
  assert (dry_run = true
          ∨ mkdir (base_dir / org_name)%path wa = (Returned tt, wa)) as Hthere.
  { destruct dry_run; [by left|right]. by eapply mkdir_again. }
  destruct (clone_sequentially_settles git org_name base_dir dry_run Hsteady
              Hlegible wa Hthere repos None ∅ wa Hconfined Hnodup)
    as [Hseq_targets Hseq_others]; [done..|].
  destruct (run_workers _ _ _ _ _ _ _ _) as [tasks vp] eqn:Hpool.
  destruct (run_workers_settles git org_name base_dir dry_run Hsteady wa
              Hthere repos (interleaving sched ++ join_all (length repos))
              (replicate (length repos) Queued) wa tasks vp Hconfined Hnodup)
    as [Hpar_targets Hpar_others]; [done| |done|].
  { intros j repo' t _ Ht. apply lookup_replicate in Ht as [-> _].
    by unfold settled. }
  simpl. apply map_eq. intros q.
  destruct (decide (Exists (λ repo, (base_dir / org_name / name repo)%path
                                      `prefix_of` q) repos)) as [Hin|Hout].
  - apply Exists_exists in Hin as (repo & Hin & Hq).
    rewrite (Hseq_targets repo q Hin Hq).
    apply list_elem_of_lookup_1 in Hin as [i Hi].
    destruct (run_workers_all_finished git repos org_name base_dir dry_run
                _ _ _ _ _ (length_replicate _ _) Hpool i
                ltac:(by eapply lookup_lt_Some)) as [res Hres].
    apply (Hpar_targets i repo (Finished res) Hi Hres q Hq).
  - assert (∀ repo, repo ∈ repos →
              ¬ (base_dir / org_name / name repo)%path `prefix_of` q) as Hq.
    { intros repo Hin Hq. apply Hout, Exists_exists. by eauto. }
    by rewrite (Hseq_others q Hq), (Hpar_others q Hq).
Qed.

Lemma parallel_and_sequential_agree_witness :
  (clone_all_repositories git_real [repo_a; repo_b] "testorg"
     tmp true (Some 2%Z) false interleaved repo_a_cloned).1
  = (clone_all_repositories git_real [repo_a; repo_b] "testorg"
       tmp false (Some 2%Z) false interleaved repo_a_cloned).1
  ∧ fs (clone_all_repositories git_real [repo_a; repo_b]
          "testorg" tmp true (Some 2%Z) false interleaved repo_a_cloned).2
    = fs (clone_all_repositories git_real [repo_a; repo_b]
            "testorg" tmp false (Some 2%Z) false interleaved repo_a_cloned).2.
Proof.
  apply (parallel_and_sequential_agree git_real
           [repo_a; repo_b] "testorg" tmp (Some 2%Z) false interleaved
           repo_a_cloned).
  - apply (bool_decide_unpack _). vm_compute. reflexivity.
  - intros repo Hin.
    repeat (apply elem_of_cons in Hin as [->|Hin]);
      [vm_compute; reflexivity..|].
    by apply elem_of_nil in Hin.
  - reflexivity.
  - intros argv v. exact I.
  - intros repo v Hin.
    repeat (apply elem_of_cons in Hin as [->|Hin]);
      [apply checkout_confined..|].
    by apply elem_of_nil in Hin.
  - reflexivity.
  - apply perm_swap.
Defined.

(** ** No repository is passed over *)

Section Attempts.

Variable git : Tool.
Variables (org_name : string) (base_dir : Path).

(** The world in which the batch starts, the organization directory
    being there. *)
Variable w0 : World.
Hypothesis org_dir_made :
  mkdir (base_dir / org_name)%path w0 = (Returned tt, w0).




End Attempts.



(** ** A clone that was cut short *)

(** X8.  A clone that runs out of time and leaves a partial target behind
    is reported as a timeout; from then on every call for that
    descriptor finds the target and returns [(false, "Already exists")]
    without starting the tool: the code never removes what a failed
    clone left. *)
Theorem timed_out_clone_is_not_retried
    (git git' : Tool) (repo : Repository) (org_name : string)
    (base_dir : Path) (dry_run' : bool) (w w1 : World)
    (seconds : N) (returncode : Z) (stderr : string) :
  path_exists w (base_dir / org_name / name repo)%path = false →
  mkdir (base_dir / org_name)%path w = (Returned tt, w1) →
  git (clone_argv org_name base_dir repo) w1
  = Runs seconds returncode stderr true →
  (300 < seconds)%N →
  ∃ w',
    clone_repository git repo org_name base_dir false w
    = (Returned (name repo, false,
                 Some ("Clone timeout for " +:+ name repo
                       +:+ " (exceeded 5 minutes)")), w')
    ∧ ∀ v, fs w' ⊆ fs v →
        clone_repository git' repo org_name base_dir dry_run' v
        = (Returned (name repo, false, Some "Already exists"), v).
Proof.
  intros Hfresh Hmk Htool Hslow.
  rewrite (clone_repository_runs git repo org_name base_dir w w1 Hfresh Hmk).
  unfold subprocess_run_git_clone.
  change ["git"; "clone"; clone_url repo;
          path_str (base_dir / org_name / name repo)%path]
    with (clone_argv org_name base_dir repo).
  rewrite Htool.
  assert ((300 <? seconds)%N = true) as -> by (by apply N.ltb_lt).
  eexists. split; [reflexivity|].
  intros v Hlater. apply clone_repository_exists.
  eapply lookup_weaken_is_Some; [|exact Hlater].
  simpl. apply add_dir_lookup.
Qed.

Lemma timed_out_clone_is_not_retried_witness :
  ∃ w',
    clone_repository git_hangs repo_a "testorg" tmp false empty_world
    = (Returned (name repo_a, false,
                 Some ("Clone timeout for " +:+ name repo_a
                       +:+ " (exceeded 5 minutes)")), w')
    ∧ ∀ v, fs w' ⊆ fs v →
        clone_repository git_ok repo_a "testorg" tmp false v
        = (Returned (name repo_a, false, Some "Already exists"), v).
Proof.
  apply (timed_out_clone_is_not_retried git_hangs git_ok repo_a "testorg" tmp
           false empty_world (mkdir (tmp / "testorg")%path empty_world).2
           1000000 0 "").
  - vm_compute. reflexivity.
  - vm_compute. reflexivity.
  - reflexivity.
  - reflexivity.
Defined.

(** ** Post-clone setup *)

Section SetupFacts.

Variable bash : Shell.

Lemma subprocess_run_bash_calls script cwd timeout w r w' :
  subprocess_run_bash bash script cwd timeout w = (r, w') →
  calls w' = calls w ++ [["bash"; path_str script]].
Proof.
  unfold subprocess_run_bash. intros H.
  repeat (case_match; simplify_eq); done.
Qed.


Lemma run_optional_setup_calls repo_path auto_run w records r w' :
  run_optional_setup bash repo_path auto_run w = (records, r, w') →
  calls w' = calls w ∨ calls w' = calls w ++ [setup_argv repo_path].
Proof.
  unfold run_optional_setup. intros H.
  destruct (negb _ || negb _); [left; by simplify_eq|].
  destruct (path_exists w _); [|left; by simplify_eq].
  destruct auto_run; [|left; by simplify_eq].
  destruct (subprocess_run_bash _ _ _ _ _) as [sr w1] eqn:Hrun.
  apply subprocess_run_bash_calls in Hrun.
  right. destruct sr; by simplify_eq.
Qed.


Lemma run_setup_each_calls repo_paths auto_run w records r w' :
  run_setup_each bash repo_paths auto_run w = (records, r, w') →
  ∃ new,
    calls w' = calls w ++ new
    ∧ new `sublist_of` setup_argv <$> repo_paths.
Proof.
  revert w records.
  induction repo_paths as [|repo_path repo_paths IH]; intros w records; simpl.
  - intros [= _ _ <-]. exists []. by rewrite app_nil_r.
  - destruct (run_optional_setup _ _ _ _) as [[records1 r1] w1] eqn:Hone.
    apply run_optional_setup_calls in Hone.
    assert (∀ new, calls w' = calls w1 ++ new →
              new `sublist_of` setup_argv <$> repo_paths →
              ∃ new', calls w' = calls w ++ new'
                ∧ new' `sublist_of`
                    setup_argv repo_path :: (setup_argv <$> repo_paths))
      as Hglue.
    { intros new Hnew Hsub. destruct Hone as [Hsame|Hcall].
      - exists new. rewrite Hnew, Hsame. split; [done|]. by constructor.
      - exists (setup_argv repo_path :: new).
        rewrite Hnew, Hcall, <-(assoc_L (++)). split; [done|].
        by constructor. }
    destruct r1 as [[]|e].
    + destruct (run_setup_each _ _ _ w1) as [[records2 r2] w2] eqn:Hrest.
      intros [= _ <- <-].
      destruct (IH _ _ Hrest) as (new & Hnew & Hsub). eauto.
    + intros [= _ _ <-]. apply (Hglue []); [by rewrite app_nil_r|].
      apply sublist_nil_l.
Qed.

(** When the shell can always be started and what the scripts print
    is text, nothing is raised. *)
Hypothesis bash_starts :
  ∀ argv cwd v, ∃ seconds returncode stdout stderr fs_after,
    bash argv cwd v
    = ScriptRuns seconds returncode (ScriptText stdout stderr) fs_after.



End SetupFacts.




(** X11.  The only processes the setup pass starts are [bash] on the
    [setup.sh] of the given paths, in the order of the list and at
    most one per path. *)
Theorem only_setup_scripts_are_run
    (bash : Shell) (repo_paths : list Path) (auto_run : bool) (w : World) :
  ∃ new,
    calls (run_setup_for_all bash repo_paths auto_run w).2 = calls w ++ new
    ∧ new `sublist_of`
        (λ repo_path, ["bash"; path_str (repo_path / "setup.sh")%path])
          <$> repo_paths.
Proof.
  unfold run_setup_for_all. destruct repo_paths as [|p repo_paths].
  { exists []. by rewrite app_nil_r. }
  destruct (run_setup_each _ _ _ _) as [[records r] w'] eqn:Heach.
  by apply run_setup_each_calls in Heach.
Qed.





(** ** Strings without a given character *)

Lemma all_chars_has_char (P : Ascii.ascii → bool) (c : Ascii.ascii) (s : string) :
  all_chars P s = true → P c = false → has_char c s = false.
Proof.
  intros Hall Hc. induction s as [|a s IH]; simpl in *; [done|].
  apply andb_true_iff in Hall as [Ha Hs].
  rewrite (IH Hs), orb_false_r. apply bool_decide_eq_false. congruence.
Qed.

Lemma all_chars_impl (P Q : Ascii.ascii → bool) (s : string) :
  (∀ a, P a = true → Q a = true) → all_chars P s = true → all_chars Q s = true.
Proof.
  intros HPQ. induction s as [|a s IH]; simpl; [done|].
  intros [Ha Hs]%andb_true_iff. by rewrite (HPQ a Ha), IH.
Qed.

Lemma has_char_app (c : Ascii.ascii) (s1 s2 : string) :
  has_char c (s1 +:+ s2) = has_char c s1 || has_char c s2.
Proof.
  induction s1 as [|a s1 IH]; simpl; [done|]. by rewrite IH, orb_assoc.
Qed.

Lemma remove_char_id (c : Ascii.ascii) (s : string) :
  has_char c s = false → remove_char c s = s.
Proof.
  induction s as [|a s IH]; simpl; [done|].
  intros [Ha Hs]%orb_false_iff. by rewrite Ha, IH.
Qed.

Lemma remove_char_lacks (c : Ascii.ascii) (s : string) :
  has_char c (remove_char c s) = false.
Proof.
  induction s as [|a s IH]; simpl; [done|].
  destruct (bool_decide (a = c)) eqn:Ha; [done|]. simpl. by rewrite Ha.
Qed.

Lemma remove_char_keeps_lacking (c c' : Ascii.ascii) (s : string) :
  has_char c s = false → has_char c (remove_char c' s) = false.
Proof.
  induction s as [|a s IH]; simpl; [done|].
  intros [Ha Hs]%orb_false_iff.
  destruct (bool_decide (a = c')); [by apply IH|]. simpl. by rewrite Ha, IH.
Qed.

Lemma split_at_lacks (stop : Ascii.ascii → bool) (c : Ascii.ascii) (s : string) :
  has_char c s = false →
  has_char c (split_at stop s).1 = false ∧ has_char c (split_at stop s).2 = false.
Proof.
  induction s as [|a s IH]; simpl; [done|].
  intros [Ha Hs]%orb_false_iff.
  destruct (stop a); simpl; [by rewrite Ha, Hs|].
  destruct (split_at stop s) as [before rest]. simpl in *.
  destruct (IH Hs) as [-> ->]. by rewrite Ha.
Qed.

Lemma splitparams_lacks (c : Ascii.ascii) (s : string) :
  has_char c s = false → has_char c (GitHubClient.splitparams s) = false.
Proof.
  induction s as [|a s IH]; simpl; [done|].
  intros [Ha Hs]%orb_false_iff.
  repeat case_match; simpl; rewrite ?Ha, ?IH; done.
Qed.

Lemma lstrip_char_lacks (c d : Ascii.ascii) (s : string) :
  has_char c s = false → has_char c (lstrip_char d s) = false.
Proof.
  induction s as [|a s IH]; simpl; [done|].
  intros [Ha Hs]%orb_false_iff.
  destruct (bool_decide (a = d)); [by apply IH|]. simpl. by rewrite Ha, Hs.
Qed.

Lemma rstrip_char_lacks (c d : Ascii.ascii) (s : string) :
  has_char c s = false → has_char c (rstrip_char d s) = false.
Proof.
  induction s as [|a s IH]; simpl; [done|].
  intros [Ha Hs]%orb_false_iff. specialize (IH Hs).
  destruct (rstrip_char d s) as [|b rest].
  - destruct (bool_decide (a = d)); simpl; [done|]. by rewrite Ha.
  - simpl in *. by rewrite Ha, IH.
Qed.

Lemma split_char_lacks (c d : Ascii.ascii) (s : string) :
  has_char c s = false →
  Forall (λ part, has_char c part = false) (split_char d s).
Proof.
  induction s as [|a s IH]; simpl; [by repeat constructor|].
  intros [Ha Hs]%orb_false_iff. specialize (IH Hs).
  destruct (bool_decide (a = d)); [by constructor|].
  destruct (split_char d s) as [|part parts]; [by repeat constructor; simpl; rewrite Ha|].
  apply Forall_cons in IH as [Hpart Hparts].
  constructor; [|done]. simpl. by rewrite Ha, Hpart.
Qed.

(** The parts of a split do not contain the separator. *)
Lemma split_char_parts (d : Ascii.ascii) (s : string) :
  Forall (λ part, has_char d part = false) (split_char d s).
Proof.
  induction s as [|a s IH]; simpl; [by repeat constructor|].
  destruct (bool_decide (a = d)) eqn:Ha; [by constructor|].
  destruct (split_char d s) as [|part parts];
    [repeat constructor; simpl; by rewrite Ha|].
  apply Forall_cons in IH as [Hpart Hparts].
  constructor; [|done]. simpl. by rewrite Ha, Hpart.
Qed.

Lemma chomp_id (s : string) :
  has_char newline_char s = false → chomp s = s.
Proof.
  induction s as [|a s IH]; simpl; [done|].
  intros [Ha Hs]%orb_false_iff.
  destruct s as [|b s]; [by rewrite Ha|]. by rewrite (IH Hs).
Qed.

(** ** The format of an organization name *)

Lemma re_inner_chars (s : string) :
  re_inner s = true →
  all_chars (λ a, is_alnum a || bool_decide (a = hyphen)) s = true
  ∧ ∃ a, last_char s = Some a ∧ is_alnum a = true.
Proof.
  induction s as [|a s IH]; simpl; [done|].
  destruct s as [|b s].
  - intros Ha. simpl. rewrite Ha. simpl. eauto.
  - intros [Ha Hs]%andb_true_iff. destruct (IH Hs) as [Hall Hlast].
    split; [|done].
    change (all_chars _ (String a (String b s)))
      with ((is_alnum a || bool_decide (a = hyphen))
            && all_chars (λ a, is_alnum a || bool_decide (a = hyphen))
                 (String b s)).
    by rewrite Ha, Hall.
Qed.

Lemma re_org_name_format (s : string) :
  re_org_name s = true ↔ org_name_format s.
Proof.
  unfold org_name_format. split.
  - destruct s as [|a s]; simpl; [done|].
    destruct s as [|b s].
    + intros Ha. simpl. rewrite Ha. simpl. eauto 10.
    + intros [Ha Hs]%andb_true_iff.
      destruct (re_inner_chars _ Hs) as [Hall Hlast].
      split; [|by eauto 10].
      change (all_chars _ (String a (String b s)))
        with ((is_alnum a || bool_decide (a = hyphen))
              && all_chars (λ a, is_alnum a || bool_decide (a = hyphen))
                   (String b s)).
      by rewrite Ha, Hall.
  - intros (Hall & (a & s' & -> & Ha) & (z & Hlast & Hz)).
    simpl. destruct s' as [|b s']; [done|]. rewrite Ha. simpl.
    simpl in Hall. rewrite Ha in Hall. simpl in Hall.
    change (last_char (String a (String b s')))
      with (last_char (String b s')) in Hlast.
    clear Ha a. revert b Hall Hlast.
    induction s' as [|c s' IH]; intros b Hall Hlast.
    + simpl in *. by simplify_eq.
    + change (re_inner (String b (String c s')))
        with ((is_alnum b || bool_decide (b = hyphen))
              && re_inner (String c s')).
      change (all_chars (λ a, is_alnum a || bool_decide (a = hyphen))
                (String b (String c s')))
        with ((is_alnum b || bool_decide (b = hyphen))
              && all_chars (λ a, is_alnum a || bool_decide (a = hyphen))
                   (String c s')) in Hall.
      apply andb_true_iff in Hall as [-> Hall]. simpl.
      apply IH; done.
Qed.

(** ** Organization names out of URLs *)

Lemma urlparse_path_lacks_newline check (url netloc path : string) :
  GitHubClient.urlparse check url = Returned (netloc, path) →
  has_char newline_char path = false.
Proof.
  unfold GitHubClient.urlparse.
  set (clean := remove_char _ (remove_char _ (remove_char newline_char url))).
  assert (has_char newline_char clean = false) as Hclean.
  { subst clean. do 2 apply remove_char_keeps_lacking. apply remove_char_lacks. }
  set (rest := match (split_at _ clean).2 with
               | String _ url' => url'
               | EmptyString => (split_at _ clean).2
               end).
  assert (has_char newline_char rest = false) as Hrest.
  { subst rest.
    destruct (split_at_lacks (λ a, bool_decide (a = colon)) _ _ Hclean)
      as [_ H2].
    destruct (split_at _ clean).2 as [|a s]; [done|].
    simpl in H2. by apply orb_false_iff in H2 as [_ ?]. }
  clearbody rest. clear clean Hclean.
  destruct (if String.prefix "//" rest then _ else _) as [netloc' url'] eqn:Hsplit.
  assert (has_char newline_char url' = false) as Hurl'.
  { destruct (String.prefix "//" rest); [|by simplify_eq].
    match type of Hsplit with split_at ?stop ?s = _ =>
      assert (has_char newline_char s = false) as Hs;
      [|destruct (split_at_lacks stop _ _ Hs) as [_ H2];
        by rewrite Hsplit in H2] end.
    destruct rest as [|a [|b s]]; try done.
    simpl in Hrest.
    apply orb_false_iff in Hrest as [_ Hrest].
    by apply orb_false_iff in Hrest as [_ ?]. }
  destruct (xorb _ _); [done|].
  destruct (if has_char left_bracket netloc' then _ else _); [done|].
  intros [= _ <-].
  apply splitparams_lacks.
  apply split_at_lacks. by apply split_at_lacks.
Qed.

(** X13.  A name that [parse_org_name] returns is made of letters, digits
    and hyphens, with a letter or a digit at both ends.  It is a
    single path component, and not [.] or [..].  (The [$] of the
    pattern would let a newline at the end through; [urlparse] has
    removed it before.) *)
Theorem parsed_org_name_is_well_formed
    (check_bracketed_host : string → option string) (url org_name : string) :
  GitHubClient.parse_org_name check_bracketed_host url = Returned org_name →
  org_name_format org_name
  ∧ has_char slash org_name = false
  ∧ org_name ≠ "" ∧ org_name ≠ "." ∧ org_name ≠ "..".
Proof.
  unfold GitHubClient.parse_org_name.
  destruct (GitHubClient.urlparse _ _) as [[netloc path]|e] eqn:Hparse;
    [|done].
  apply urlparse_path_lacks_newline in Hparse.
  destruct (negb _); [done|].
  pose proof (split_char_lacks newline_char slash (strip_char slash path)) as Hparts.
  pose proof (split_char_parts slash (strip_char slash path)) as Hslash.
  destruct (split_char slash (strip_char slash path)) as [|part parts]; [done|].
  apply Forall_cons in Hslash as [Hslash _].
  assert (has_char newline_char part = false) as Hnl.
  { assert (has_char newline_char (strip_char slash path) = false) as Hstrip
      by (by apply rstrip_char_lacks, lstrip_char_lacks).
    apply Hparts in Hstrip. by apply Forall_cons in Hstrip as [? _]. }
  destruct part as [|a part]; [done|].
  destruct (negb _) eqn:Hmatch; [done|].
  intros [= <-].
  apply negb_false_iff in Hmatch. unfold re_match_org_name in Hmatch.
  rewrite (chomp_id _ Hnl), orb_diag in Hmatch.
  apply re_org_name_format in Hmatch as Hformat.
  split; [done|]. split; [done|]. split; [done|].
  destruct Hformat as (_ & (b & s' & [= <- <-] & Hb) & _).
  split; intros [= -> _]; done.
Qed.

Lemma parsed_org_name_is_well_formed_witness :
  org_name_format "openai"
  ∧ has_char slash "openai" = false
  ∧ "openai" ≠ "" ∧ "openai" ≠ "." ∧ "openai" ≠ "..".
Proof.
  apply (parsed_org_name_is_well_formed no_host_check
           "http://www.github.com/openai/gym;v=1?tab=readme#usage" "openai").
  vm_compute. reflexivity.
Defined.

(** ** URLs that are accepted, and bare names *)

Lemma remove_char_app (c : Ascii.ascii) (s1 s2 : string) :
  remove_char c (s1 +:+ s2) = remove_char c s1 +:+ remove_char c s2.
Proof.
  induction s1 as [|a s1 IH]; simpl; [done|].
  destruct (bool_decide (a = c)); simpl; by rewrite IH.
Qed.

Lemma split_at_app (stop : Ascii.ascii → bool) (s1 s2 : string) :
  all_chars (λ a, negb (stop a)) s1 = true →
  split_at stop (s1 +:+ s2)
  = (s1 +:+ (split_at stop s2).1, (split_at stop s2).2).
Proof.
  induction s1 as [|a s1 IH]; simpl.
  - intros _. change ("" +:+ s2) with s2.
    destruct (split_at stop s2) as [b r]. reflexivity.
  - intros [Ha Hs]%andb_true_iff. apply negb_true_iff in Ha.
    by rewrite Ha, (IH Hs).
Qed.

Lemma splitparams_id (s : string) :
  has_char semicolon s = false → GitHubClient.splitparams s = s.
Proof.
  induction s as [|a s IH]; simpl; [done|].
  intros [Ha Hs]%orb_false_iff. rewrite Ha, (IH Hs).
  by destruct (_ || _).
Qed.

Lemma rstrip_char_id (c : Ascii.ascii) (s : string) (z : Ascii.ascii) :
  last_char s = Some z → z ≠ c → rstrip_char c s = s.
Proof.
  induction s as [|a s IH]; simpl; [done|].
  destruct s as [|b s].
  - intros [= ->] Hne. simpl. by rewrite bool_decide_eq_false_2 by done.
  - intros Hlast Hne. rewrite (IH Hlast Hne). done.
Qed.

Lemma rstrip_char_snoc (c : Ascii.ascii) (s : string) (z : Ascii.ascii) :
  last_char s = Some z → z ≠ c →
  rstrip_char c (s +:+ String c EmptyString) = s.
Proof.
  induction s as [|a s IH]; simpl; [done|].
  destruct s as [|b s].
  - intros [= ->] Hne. simpl.
    rewrite (bool_decide_eq_true_2 (c = c)) by done.
    by rewrite bool_decide_eq_false_2 by done.
  - intros Hlast Hne. rewrite (IH Hlast Hne). done.
Qed.

Lemma split_char_id (c : Ascii.ascii) (s : string) :
  has_char c s = false → split_char c s = [s].
Proof.
  induction s as [|a s IH]; simpl; [done|].
  intros [Ha Hs]%orb_false_iff. by rewrite Ha, (IH Hs).
Qed.

Lemma prefix_has_char (c : Ascii.ascii) (p s : string) :
  String.prefix p s = true → has_char c p = true → has_char c s = true.
Proof.
  revert s. induction p as [|a p IH]; intros [|b s]; simpl; try done.
  destruct (Ascii.ascii_dec a b) as [->|]; [|done].
  intros Hp.
  destruct (bool_decide (b = c)); [done|]. simpl. by apply IH.
Qed.

(** What the format says about the characters of a name. *)
Lemma org_name_format_lacks (s : string) (c : Ascii.ascii) :
  org_name_format s →
  is_alnum c || bool_decide (c = hyphen) = false →
  has_char c s = false.
Proof. intros (Hall & _ & _) Hc. by eapply all_chars_has_char. Qed.

Lemma append_cons (a : Ascii.ascii) (s1 s2 : string) :
  String a s1 +:+ s2 = String a (s1 +:+ s2).
Proof. reflexivity. Qed.

Lemma append_empty (s : string) : "" +:+ s = s.
Proof. reflexivity. Qed.

Lemma remove_char_tail (c : Ascii.ascii) (s : string) :
  c ≠ slash → path_tail s → path_tail (remove_char c s).
Proof.
  intros Hc [->|[s' ->]]; [by left|]. right. exists (remove_char c s').
  simpl. by rewrite bool_decide_eq_false_2 by done.
Qed.

Lemma split_at_tail (stop : Ascii.ascii → bool) (s : string) :
  stop slash = false → path_tail s → path_tail (split_at stop s).1.
Proof.
  intros Hc [->|[s' ->]]; [by left|]. right. simpl. rewrite Hc.
  destruct (split_at stop s') as [before rest]. by exists before.
Qed.

Lemma rstrip_char_tail (s : string) :
  path_tail s → path_tail (rstrip_char slash s).
Proof.
  intros [->|[s' ->]]; [by left|]. simpl.
  destruct (rstrip_char slash s') as [|b r]; [by left|].
  right. by eexists.
Qed.

Lemma splitparams_slash (s1 s2 : string) :
  GitHubClient.splitparams (s1 +:+ String slash s2)
  = s1 +:+ String slash (GitHubClient.splitparams s2).
Proof.
  induction s1 as [|a s1 IH].
  - rewrite !append_empty. reflexivity.
  - rewrite !append_cons. simpl. rewrite has_char_app. simpl.
    rewrite orb_true_r, orb_true_r. by rewrite IH.
Qed.

Lemma splitparams_leading_slash (s : string) :
  GitHubClient.splitparams (String slash s)
  = String slash (GitHubClient.splitparams s).
Proof. reflexivity. Qed.

Lemma splitparams_tail (s1 s2 : string) :
  has_char semicolon s1 = false → path_tail s2 →
  ∃ s2', GitHubClient.splitparams (s1 +:+ s2) = s1 +:+ s2' ∧ path_tail s2'.
Proof.
  intros Hs1 [->|[s' ->]].
  - exists "". split; [|by left]. apply splitparams_id.
    by rewrite has_char_app, Hs1.
  - eexists. split; [apply splitparams_slash|]. right. by eexists.
Qed.

Lemma rstrip_char_app (c : Ascii.ascii) (s1 s2 : string) (z : Ascii.ascii) :
  last_char s1 = Some z → z ≠ c →
  rstrip_char c (s1 +:+ s2) = s1 +:+ rstrip_char c s2.
Proof.
  induction s1 as [|a s1 IH]; [done|].
  destruct s1 as [|b s1].
  - intros [= ->] Hne. rewrite !append_cons, !append_empty. simpl.
    destruct (rstrip_char c s2); [|done].
    by rewrite bool_decide_eq_false_2 by done.
  - intros Hlast Hne. rewrite (append_cons a), (append_cons a).
    cbn [rstrip_char]. rewrite (IH Hlast Hne).
    by rewrite append_cons.
Qed.

Lemma split_char_head (s1 s2 : string) :
  has_char slash s1 = false → path_tail s2 →
  ∃ parts, split_char slash (s1 +:+ s2) = s1 :: parts.
Proof.
  intros Hs1 Hs2. induction s1 as [|a s1 IH].
  - rewrite append_empty. destruct Hs2 as [->|[s' ->]]; simpl.
    + by eexists.
    + by eexists.
  - simpl in Hs1. apply orb_false_iff in Hs1 as [Ha Hs1].
    destruct (IH Hs1) as [parts Hparts].
    rewrite append_cons. simpl. rewrite Ha, Hparts. by eexists.
Qed.

Section Accepts.

Variable check : string → option string.
Variable org_name : string.
Hypothesis well_formed : org_name_format org_name.

Lemma split_at_org_name (stop : Ascii.ascii → bool) (s : string) :
  (∀ a, is_alnum a || bool_decide (a = hyphen) = true → stop a = false) →
  split_at stop (org_name +:+ s)
  = (org_name +:+ (split_at stop s).1, (split_at stop s).2).
Proof.
  intros Hstop. apply split_at_app.
  destruct well_formed as (Hall & _).
  eapply all_chars_impl; [|exact Hall].
  intros a Ha. by rewrite (Hstop a Ha).
Qed.

Lemma split_at_path (c : Ascii.ascii) (s : string) :
  c ∈ [hash_sign; question_mark] →
  (split_at (λ a, bool_decide (a = c)) (String slash (org_name +:+ s))).1
  = String slash
      (org_name +:+ (split_at (λ a, bool_decide (a = c)) s).1).
Proof.
  rewrite !elem_of_cons, elem_of_nil. intros Hc.
  assert (bool_decide (slash = c) = false) as Hslash
    by (by destruct Hc as [->|[->|[]]]).
  cbn [split_at]. rewrite Hslash, split_at_org_name; [done|].
  intros a Ha. apply bool_decide_eq_false. intros ->.
  by destruct Hc as [->|[->|[]]].
Qed.

(** The network location and the path of a URL of the organization. *)
Lemma urlparse_github (scheme host rest : string) :
  scheme ∈ ["http://"; "https://"] →
  host ∈ ["github.com"; "www.github.com"] →
  path_tail rest →
  ∃ rest',
    GitHubClient.urlparse check
      (scheme +:+ host +:+ String slash (org_name +:+ rest))
    = Returned (host, String slash (org_name +:+ rest'))
    ∧ path_tail rest'.
Proof.
  rewrite !elem_of_cons, !elem_of_nil.
  intros Hscheme Hhost Hrest.
  unfold GitHubClient.urlparse.
  set (rest1 := remove_char (Ascii.ascii_of_nat 9)
                  (remove_char (Ascii.ascii_of_nat 13)
                     (remove_char newline_char rest))).
  assert (path_tail rest1) as Hrest1
    by (by do 3 (apply remove_char_tail; [done|])).
  assert (remove_char (Ascii.ascii_of_nat 9)
            (remove_char (Ascii.ascii_of_nat 13)
               (remove_char newline_char
                  (scheme +:+ host +:+ String slash (org_name +:+ rest))))
          = scheme +:+ host +:+ String slash (org_name +:+ rest1)) as ->.
  { change (String slash (org_name +:+ rest))
      with (String slash "" +:+ org_name +:+ rest).
    rewrite !remove_char_app.
    rewrite !(remove_char_id _ org_name) by (by apply org_name_format_lacks).
    by destruct Hscheme as [->|[->|[]]], Hhost as [->|[->|[]]]. }
  clearbody rest1. clear rest Hrest.
  destruct (splitparams_tail org_name
              (split_at (λ a, bool_decide (a = question_mark))
                 (split_at (λ a, bool_decide (a = hash_sign)) rest1).1).1)
    as (rest' & Hparams & Hrest').
  { by apply org_name_format_lacks. }
  { by do 2 (apply split_at_tail; [done|]). }
  exists rest'. split; [|done].
  destruct Hscheme as [->|[->|[]]], Hhost as [->|[->|[]]];
    match goal with
    | |- _ = Returned (?h, _) =>
        change (Returned
                  (h, GitHubClient.splitparams
                        (split_at (λ a, bool_decide (a = question_mark))
                           (split_at (λ a, bool_decide (a = hash_sign))
                              (String slash (org_name +:+ rest1))).1).1)
                = Returned (h, String slash (org_name +:+ rest'))) 
    end;
    rewrite !split_at_path by (rewrite !elem_of_cons; auto);
    rewrite splitparams_leading_slash;
    by rewrite Hparams.
Qed.

End Accepts.

Lemma first_segment (org_name rest : string) :
  org_name_format org_name → path_tail rest →
  ∃ parts,
    split_char slash (strip_char slash (String slash (org_name +:+ rest)))
    = org_name :: parts.
Proof.
  intros Hformat Hrest.
  assert (has_char slash org_name = false) as Hslash
    by (by apply org_name_format_lacks).
  destruct Hformat as (_ & (a & s' & -> & Ha) & (z & Hlast & Hz)).
  unfold strip_char.
  assert (lstrip_char slash (String slash (String a s' +:+ rest))
          = String a s' +:+ rest) as ->.
  { simpl in Hslash. apply orb_false_iff in Hslash as [Hne _].
    rewrite append_cons. simpl. by rewrite Hne. }
  rewrite (rstrip_char_app _ _ _ z) by (done || by intros ->).
  apply split_char_head; [done|]. by apply rstrip_char_tail.
Qed.

Lemma parse_org_name_of_parts
    (check : string → option string) (url url' netloc org_name rest : string) :
  (if String.prefix "http://" url || String.prefix "https://" url then url
   else "https://" +:+ url) = url' →
  GitHubClient.urlparse check url'
  = Returned (netloc, String slash (org_name +:+ rest)) →
  netloc ∈ ["github.com"; "www.github.com"] →
  org_name_format org_name → path_tail rest →
  GitHubClient.parse_org_name check url = Returned org_name.
Proof.
  intros Hurl Hparse Hnetloc Hformat Hrest.
  unfold GitHubClient.parse_org_name. rewrite Hurl, Hparse.
  assert (bool_decide (netloc = "github.com")
          || bool_decide (netloc = "www.github.com") = true) as ->.
  { rewrite !elem_of_cons, elem_of_nil in Hnetloc.
    by destruct Hnetloc as [->|[->|[]]]. }
  cbn [negb].
  destruct (first_segment org_name rest Hformat Hrest) as [parts ->].
  assert (re_match_org_name org_name = true) as Hmatch.
  { unfold re_match_org_name. apply orb_true_iff. left.
    by apply re_org_name_format. }
  rewrite Hmatch.
  by destruct Hformat as (_ & (a & s' & -> & _) & _).
Qed.

(** X14.  Any URL of an organization or of something below it, with or
    without scheme and [www.], gives the name of the organization. *)
Theorem github_urls_give_their_organization
    (check : string → option string) (scheme host org_name rest : string) :
  org_name_format org_name →
  scheme ∈ [""; "http://"; "https://"] →
  host ∈ ["github.com"; "www.github.com"] →
  path_tail rest →
  GitHubClient.parse_org_name check
    (scheme +:+ host +:+ String slash (org_name +:+ rest))
  = Returned org_name.
Proof.
  intros Hformat Hscheme Hhost Hrest.
  destruct (urlparse_github check org_name Hformat "https://" host rest)
    as (r1 & Hparse1 & Hr1); [rewrite !elem_of_cons; auto|done..|].
  destruct (urlparse_github check org_name Hformat "http://" host rest)
    as (r2 & Hparse2 & Hr2); [rewrite !elem_of_cons; auto|done..|].
  rewrite !elem_of_cons, elem_of_nil in Hscheme.
  rewrite !elem_of_cons, elem_of_nil in Hhost.
  destruct Hscheme as [->|[->|[->|[]]]].
  - eapply (parse_org_name_of_parts check _
              ("https://" +:+ host +:+ String slash (org_name +:+ rest)));
      [|exact Hparse1|rewrite !elem_of_cons; tauto|done..].
    by destruct Hhost as [->|[->|[]]].
  - eapply (parse_org_name_of_parts check _
              ("http://" +:+ host +:+ String slash (org_name +:+ rest)));
      [|exact Hparse2|rewrite !elem_of_cons; tauto|done..].
    by destruct Hhost as [->|[->|[]]].
  - eapply (parse_org_name_of_parts check _
              ("https://" +:+ host +:+ String slash (org_name +:+ rest)));
      [|exact Hparse1|rewrite !elem_of_cons; tauto|done..].
    by destruct Hhost as [->|[->|[]]].
Qed.

Lemma github_urls_give_their_organization_witness :
  GitHubClient.parse_org_name no_host_check
    ("" +:+ "github.com" +:+ String slash ("rust-lang" +:+ "/rust/issues?q=1"))
  = Returned "rust-lang".
Proof.
  apply (github_urls_give_their_organization no_host_check "" "github.com"
           "rust-lang" "/rust/issues?q=1").
  - split; [reflexivity|]. split.
    + do 2 eexists. split; reflexivity.
    + eexists. split; reflexivity.
  - left.
  - left.
  - right. eexists. reflexivity.
Defined.

Lemma split_at_none (stop : Ascii.ascii → bool) (s : string) :
  all_chars (λ a, negb (stop a)) s = true → split_at stop s = (s, "").
Proof.
  induction s as [|a s IH]; simpl; [done|].
  intros [Ha Hs]%andb_true_iff. apply negb_true_iff in Ha.
  by rewrite Ha, (IH Hs).
Qed.

Lemma urlparse_bare_name (check : string → option string) (name : string) :
  org_name_format name →
  GitHubClient.urlparse check ("https://" +:+ name) = Returned (name, "").
Proof.
  intros Hformat. unfold GitHubClient.urlparse.
  assert (remove_char (Ascii.ascii_of_nat 9)
            (remove_char (Ascii.ascii_of_nat 13)
               (remove_char newline_char ("https://" +:+ name)))
          = "https://" +:+ name) as ->.
  { rewrite !remove_char_app.
    by rewrite !(remove_char_id _ name) by (by apply org_name_format_lacks). }
  destruct name as [|a0 name'];
    [by destruct Hformat as (_ & (? & ? & ? & _) & _)|].
  set (name := String a0 name') in *.
  change
    ((let '(netloc, url) :=
       split_at (λ a, bool_decide (a = slash) || bool_decide (a = question_mark)
                      || bool_decide (a = hash_sign)) name in
     if xorb (has_char left_bracket netloc) (has_char right_bracket netloc)
     then Raised (ValueError "Invalid IPv6 URL")
     else
       match (if has_char left_bracket netloc then check netloc else None) with
       | Some msg => Raised (ValueError msg)
       | None =>
           Returned
             (netloc,
              GitHubClient.splitparams
                (split_at (λ a, bool_decide (a = question_mark))
                   (split_at (λ a, bool_decide (a = hash_sign)) url).1).1)
       end) = Returned (name, "")).
  rewrite split_at_none.
  2:{ destruct Hformat as (Hall & _).
      eapply all_chars_impl; [|exact Hall].
      intros a Ha. apply negb_true_iff.
      rewrite !orb_false_iff. repeat split;
        apply bool_decide_eq_false; by intros ->. }
  by rewrite !(org_name_format_lacks name).
Qed.

(** X15.  The name of an organization alone is no URL of GitHub: it is
    taken for the host, and the error shows it behind [https://]. *)
Theorem bare_organization_name_is_refused
    (check : string → option string) (name : string) :
  org_name_format name →
  GitHubClient.parse_org_name check name
  = Raised (ValueError ("Invalid GitHub URL: https://" +:+ name)).
Proof.
  intros Hformat.
  assert (has_char colon name = false) as Hcolon
    by (by apply org_name_format_lacks).
  assert (has_char (Ascii.ascii_of_nat 46) name = false) as Hdot
    by (by apply org_name_format_lacks).
  unfold GitHubClient.parse_org_name.
  assert (String.prefix "http://" name = false) as ->.
  { destruct (String.prefix "http://" name) eqn:Hp; [|done].
    by rewrite (prefix_has_char colon _ _ Hp) in Hcolon. }
  assert (String.prefix "https://" name = false) as ->.
  { destruct (String.prefix "https://" name) eqn:Hp; [|done].
    by rewrite (prefix_has_char colon _ _ Hp) in Hcolon. }
  cbn [orb]. rewrite urlparse_bare_name by done.
  rewrite !bool_decide_eq_false_2; [done|by intros ->..].
Qed.

Lemma bare_organization_name_is_refused_witness :
  GitHubClient.parse_org_name no_host_check "openai"
  = Raised (ValueError ("Invalid GitHub URL: https://" +:+ "openai")).
Proof.
  apply (bare_organization_name_is_refused no_host_check "openai").
  split; [reflexivity|]. split.
  - do 2 eexists. split; reflexivity.
  - eexists. split; reflexivity.
Defined.

(** ** Listing the repositories of an organization *)

Section Listing.
Import requests.

Variable token : option string.
Variable server : Server.
Variable org_name : string.

Lemma append_repositories_all (repositories : list Repository)
    (repos_data : list RepoData) (repos : list Repository) :
  Forall2 (λ repo_data repo,
             GitHubClient.to_repository repo_data = Fetched repo)
    repos_data repos →
  GitHubClient.append_repositories repositories repos_data
  = Fetched (repositories ++ repos).
Proof.
  intros Hall. revert repositories.
  induction Hall as [|repo_data repo repos_data repos Hrepo _ IH];
    intros repositories; simpl.
  - by rewrite app_nil_r.
  - rewrite Hrepo, IH. by rewrite <-app_assoc.
Qed.

Lemma check_status_ok (response : Response) :
  status_code response = 200%Z →
  GitHubClient.check_status org_name response = None.
Proof. intros Hstatus. unfold GitHubClient.check_status. by rewrite Hstatus. Qed.

Lemma check_status_refuses (response : Response) :
  status_code response ≠ 200%Z →
  is_Some (GitHubClient.check_status org_name response).
Proof.
  intros Hstatus. unfold GitHubClient.check_status.
  repeat case_match; try by eauto.
  by apply negb_false_iff, Z.eqb_eq in H1.
Qed.

(** One turn of the loop on a page that is served. *)
Lemma fetch_pages_step (fuel page : nat) (repos repositories : list Repository)
    (more : bool) :
  serves_page token server org_name page repos more →
  GitHubClient.fetch_pages token server (S fuel) org_name (Z.of_nat page)
    repositories
  = if more then
      GitHubClient.fetch_pages token server fuel org_name
        (Z.of_nat (S page)) (repositories ++ repos)
    else Some (Fetched (repositories ++ repos)).
Proof.
  intros (Hne & response & repos_data & Hreply & Hstatus & Hjson & Hall & Hmore).
  cbn [GitHubClient.fetch_pages].
  rewrite Hreply, (check_status_ok _ Hstatus), Hjson.
  destruct repos_data as [|repo_data repos_data].
  { apply Forall2_nil_inv_l in Hall. done. }
  rewrite (append_repositories_all _ _ _ Hall), Hmore.
  destruct more; [|done]. cbn [negb].
  by replace (Z.of_nat page + 1)%Z with (Z.of_nat (S page)) by lia.
Qed.

Lemma fetch_pages_all (pages : list (list Repository)) (first fuel : nat)
    (repositories : list Repository) :
  pages ≠ [] →
  (∀ i repos, pages !! i = Some repos →
     serves_page token server org_name (first + i) repos
       (bool_decide (S i < length pages))) →
  length pages ≤ fuel →
  GitHubClient.fetch_pages token server fuel org_name (Z.of_nat first)
    repositories
  = Some (Fetched (repositories ++ concat pages)).
Proof.
  revert first fuel repositories.
  induction pages as [|repos pages IH]; intros first fuel repositories;
    [done|].
  intros _ Hpages Hfuel. simpl in Hfuel.
  destruct fuel as [|fuel]; [lia|].
  pose proof (Hpages 0 repos eq_refl) as Hfirst.
  rewrite Nat.add_0_r in Hfirst.
  rewrite (fetch_pages_step _ _ _ _ _ Hfirst).
  destruct pages as [|repos' pages].
  - rewrite bool_decide_eq_false_2 by (simpl; lia).
    simpl. by rewrite app_nil_r.
  - rewrite bool_decide_eq_true_2 by (simpl; lia).
    rewrite IH; [by rewrite <-app_assoc|done| |simpl in *; lia].
    intros i repos'' Hi.
    replace (S first + i) with (first + S i) by lia.
    specialize (Hpages (S i) repos'' Hi).
    erewrite bool_decide_ext; [exact Hpages|]. simpl. lia.
Qed.

Lemma fetch_pages_through (pages : list (list Repository)) (first fuel : nat)
    (repositories : list Repository) :
  (∀ i repos, pages !! i = Some repos →
     serves_page token server org_name (first + i) repos true) →
  GitHubClient.fetch_pages token server (length pages + fuel) org_name
    (Z.of_nat first) repositories
  = GitHubClient.fetch_pages token server fuel org_name
      (Z.of_nat (first + length pages)) (repositories ++ concat pages).
Proof.
  revert first repositories.
  induction pages as [|repos pages IH]; intros first repositories Hpages.
  - simpl. by rewrite Nat.add_0_r, app_nil_r.
  - pose proof (Hpages 0 repos eq_refl) as Hfirst.
    rewrite Nat.add_0_r in Hfirst.
    cbn [length Nat.add].
    rewrite (fetch_pages_step _ _ _ _ _ Hfirst).
    rewrite IH.
    + simpl. rewrite <-app_assoc. do 2 f_equal. lia.
    + intros i repos' Hi.
      replace (S first + i) with (first + S i) by lia.
      exact (Hpages (S i) repos' Hi).
Qed.

End Listing.

(** X16.  The listing is the repositories of all pages, in the order of the
    pages: when every page but the last announces a next one, and
    each holds at least one repository. *)
Theorem all_pages_are_listed
    (token : option string) (server : requests.Server) (org_name : string)
    (pages : list (list Repository)) (fuel : nat) :
  pages ≠ [] →
  (∀ i repos, pages !! i = Some repos →
     serves_page token server org_name (S i) repos
       (bool_decide (S i < length pages))) →
  length pages ≤ fuel →
  GitHubClient.list_org_repositories token server fuel org_name
  = Some (Fetched (concat pages)).
Proof.
  intros Hne Hpages Hfuel. unfold GitHubClient.list_org_repositories.
  change 1%Z with (Z.of_nat 1).
  by rewrite (fetch_pages_all token server org_name pages 1 fuel []).
Qed.

Lemma all_pages_are_listed_witness :
  GitHubClient.list_org_repositories None two_pages 2 "testorg"
  = Some (Fetched (concat [[repo_a; repo_b]; [repo_c]])).
Proof.
  apply (all_pages_are_listed None two_pages "testorg"
           [[repo_a; repo_b]; [repo_c]] 2).
  - done.
  - intros [|[|i]] repos [= <-]; (split; [done|]); do 2 eexists;
      (split; [reflexivity|]); (split; [reflexivity|]);
      (split; [reflexivity|]);
      (split; [repeat constructor|vm_compute; reflexivity]).
  - simpl. lia.
Defined.

(** X17.  A page that is refused makes the whole listing fail with the
    exception of its status, whatever the pages before it held. *)
Theorem refused_page_fails_the_listing
    (token : option string) (server : requests.Server) (org_name : string)
    (pages : list (list Repository)) (response : requests.Response)
    (fuel : nat) :
  (∀ i repos, pages !! i = Some repos →
     serves_page token server org_name (S i) repos true) →
  server (GitHubClient.page_request token org_name
            (Z.of_nat (S (length pages))))
  = requests.Replied response →
  requests.status_code response ≠ 200%Z →
  length pages < fuel →
  ∃ e,
    GitHubClient.check_status org_name response = Some e
    ∧ GitHubClient.list_org_repositories token server fuel org_name
      = Some (Failed e).
Proof.
  intros Hpages Hreply Hstatus Hfuel.
  destruct (check_status_refuses org_name response Hstatus) as [e He].
  exists e. split; [done|].
  unfold GitHubClient.list_org_repositories.
  change 1%Z with (Z.of_nat 1).
  replace fuel with (length pages + S (fuel - S (length pages))) by lia.
  rewrite (fetch_pages_through token server org_name pages 1 _ [])
    by done.
  cbn [GitHubClient.fetch_pages].
  replace (Z.of_nat (1 + length pages)) with (Z.of_nat (S (length pages)))
    by done.
  by rewrite Hreply, He.
Qed.

Lemma refused_page_fails_the_listing_witness :
  ∃ e,
    GitHubClient.check_status "testorg" rate_limited_response = Some e
    ∧ GitHubClient.list_org_repositories None rate_limited 5 "testorg"
      = Some (Failed e).
Proof.
  apply (refused_page_fails_the_listing None rate_limited "testorg"
           [[repo_a; repo_b]] rate_limited_response 5).
  - intros [|i] repos [= <-]. split; [done|]. do 2 eexists.
    split; [reflexivity|]. split; [reflexivity|]. split; [reflexivity|].
    split; [repeat constructor|vm_compute; reflexivity].
  - reflexivity.
  - simpl. lia.
  - simpl. lia.
Defined.

(** ** The program *)

Lemma clone_all_repositories_dry_world (git : Tool) repos org_name base_dir
    parallel max_workers sched w :
  (clone_all_repositories git repos org_name base_dir parallel max_workers
     true sched w).2 = w.
Proof.
  unfold clone_all_repositories. destruct repos as [|repo repos]; [done|].
  destruct parallel.
  - destruct (match max_workers with Some n => _ | None => _ end); [done|].
    destruct (run_workers_dry_run git (repo :: repos) org_name base_dir
                (interleaving sched ++ join_all (length (repo :: repos)))
                (replicate (length (repo :: repos)) Queued) w)
      as [tasks ->]; [|done].
    apply Forall_forall. intros t Ht.
    apply elem_of_replicate in Ht as [-> _]. done.
  - by destruct (clone_sequentially_dry_run git (repo :: repos) org_name
                   base_dir None ∅ w) as [r ->].
Qed.

Lemma clone_and_report_dry_world env config org_name repos w :
  Config.dry_run config = true →
  (clone_and_report env config org_name repos w).2 = w.
Proof.
  intros Hdry. unfold clone_and_report.
  destruct repos as [|repo repos]; [done|]. rewrite Hdry.
  pose proof (clone_all_repositories_dry_world (git_tool env) (repo :: repos)
                org_name (Config.base_dir config) (Config.parallel config)
                (Config.max_workers config) (scheduling env) w) as Hworld.
  destruct (clone_all_repositories _ _ _ _ _ _ _ _ _) as [[results|e] w1];
    simpl in Hworld; subst w1; [|done].
  rewrite andb_false_r. cbn zeta.
  by destruct (fst <$> filter _ _).
Qed.

(** X18.  With [--dry-run] the program leaves the filesystem as it is and
    starts no process, also when [--run-setup] is given. *)
Theorem dry_run_of_the_program_changes_nothing
    (env : Environment) (args : Namespace) (fuel : nat) (w w' : World)
    (e : ending) :
  args_dry_run args = true →
  main env args fuel w = Some (e, w') →
  w' = w.
Proof.
  intros Hdry. unfold main.
  destruct (get_org_url _ _) as [org_url|code]; [|by intros [= _ <-]].
  destruct (Config.from_args _ _ _ _ _ _ _ _) as [config|e0] eqn:Hconfig.
  2:{ destruct e0; by intros [= _ <-]. }
  assert (Config.dry_run config = true) as Hconfig_dry.
  { unfold Config.from_args in Hconfig.
    destruct (negb _); [done|]. injection Hconfig as <-. done. }
  destruct (GitHubClient.parse_org_name _ _) as [org_name|e0].
  2:{ destruct e0; by intros [= _ <-]. }
  destruct (GitHubClient.list_org_repositories _ _ _ _) as [[repos|e0]|];
    [| |done].
  - intros [= Hrun].
    pose proof (clone_and_report_dry_world env config org_name repos w
                  Hconfig_dry) as Hworld.
    by rewrite Hrun in Hworld.
  - destruct e0; by intros [= _ <-].
Qed.

Lemma dry_run_of_the_program_changes_nothing_witness :
  main sample_environment dry_run_arguments 2 repo_a_with_setup
  = Some (SystemExit 1, repo_a_with_setup)
  ∧ repo_a_with_setup = repo_a_with_setup.
Proof.
  assert (main sample_environment dry_run_arguments 2 repo_a_with_setup
          = Some (SystemExit 1, repo_a_with_setup)) as Hrun
    by (vm_compute; reflexivity).
  split; [exact Hrun|].
  apply (dry_run_of_the_program_changes_nothing sample_environment
           dry_run_arguments 2 repo_a_with_setup repo_a_with_setup
           (SystemExit 1)); [reflexivity|exact Hrun].
Defined.

(** *** What the exit status tells *)

Lemma dict_items_lookup (env : Environment)
    (results : gmap string (bool * option string)) k v :
  (∀ m, dict_items env m ≡ₚ map_to_list m) →
  (k, v) ∈ dict_items env results ↔ results !! k = Some v.
Proof. intros Hitems. by rewrite Hitems, elem_of_map_to_list. Qed.

Lemma failed_repos_nil (env : Environment)
    (results : gmap string (bool * option string)) :
  (∀ m, dict_items env m ≡ₚ map_to_list m) →
  fst <$> filter (λ item : string * (bool * option string), item.2.1 = false)
            (dict_items env results) = [] ↔
  ∀ k d, results !! k = Some (false, d) → False.
Proof.
  intros Hitems. split.
  - intros Hnil%fmap_nil_inv k d Hk.
    apply (dict_items_lookup env _ _ _ Hitems) in Hk.
    assert ((k, (false, d)) ∈ filter
              (λ item : string * (bool * option string), item.2.1 = false)
              (dict_items env results)) as Hin
      by (by apply list_elem_of_filter).
    rewrite Hnil in Hin. by apply elem_of_nil in Hin.
  - intros Hnone.
    destruct (filter _ _) as [|[k [s d]] rest] eqn:Hfilter; [done|].
    assert ((k, (s, d)) ∈ filter
              (λ item : string * (bool * option string), item.2.1 = false)
              (dict_items env results)) as Hin
      by (rewrite Hfilter; left).
    apply list_elem_of_filter in Hin as [Hfalse Hin]. simpl in Hfalse. subst s.
    apply (dict_items_lookup env _ _ _ Hitems) in Hin.
    by destruct (Hnone k d).
Qed.

(** X19.  With a tool that has made its target when it exits with status
    0: a real run that ends normally has cloned every repository of
    the list: the batch returned, every descriptor has an entry that
    reports a success, and every target existed when the batch had
    returned (which, without a setup pass, is the end of the run). *)
Theorem normal_end_means_all_cloned
    (env : Environment) (config : Config.Config) (org_name : string)
    (repos : list Repository) (w w' : World) :
  (∀ m, dict_items env m ≡ₚ map_to_list m) →
  (if Config.parallel config
   then completion (scheduling env) ≡ₚ seq 0 (length repos)
   else NoDup (name <$> repos)) →
  (∀ repo v, repo ∈ repos →
     delivers (Config.base_dir config / org_name / name repo)%path
       (git_tool env
          ["git"; "clone"; clone_url repo;
           path_str (Config.base_dir config / org_name / name repo)%path] v)) →
  Config.dry_run config = false →
  clone_and_report env config org_name repos w = (Completes, w') →
  ∃ results w1,
    clone_all_repositories (git_tool env) repos org_name
      (Config.base_dir config) (Config.parallel config)
      (Config.max_workers config) false (scheduling env) w
    = (Returned results, w1)
    ∧ (∀ repo, repo ∈ repos →
         (∃ d, results !! name repo = Some (true, d))
         ∧ is_Some (fs w1 !! (Config.base_dir config / org_name / name repo)%path))
    ∧ (Config.run_setup config = false → w' = w1).
Proof.
  intros Hitems Hmode Hdelivers Hdry. unfold clone_and_report.
  destruct repos as [|repo0 repos0] eqn:Hrepos; [done|]. rewrite <-Hrepos in *.
  rewrite Hdry.
  destruct (clone_all_repositories _ _ _ _ _ _ _ _ _) as [[results|e] w1]
    eqn:Hbatch; [|done].
  destruct (if Config.run_setup config && negb false then _ else _)
    as [setup w2] eqn:Hsetup.
  destruct setup as [[]|e]; [|done].
  destruct (fst <$> filter _ _) eqn:Hfailed; [|done].
  intros [= <-].
  exists results, w1. split; [done|]. split.
  - apply (no_false_entry_all_cloned (git_tool env) repos org_name
             (Config.base_dir config) (Config.parallel config)
             (Config.max_workers config) (scheduling env) w w1 results);
      [done..|].
    by apply (failed_repos_nil env results Hitems).
  - intros Hno. rewrite Hno in Hsetup. by simplify_eq/=.
Qed.

Lemma normal_end_means_all_cloned_witness :
  ∃ results w1,
    clone_all_repositories git_real [repo_a; repo_b] "testorg" tmp true
      (Some 2%Z) false interleaved empty_world
    = (Returned results, w1)
    ∧ (∀ repo, repo ∈ [repo_a; repo_b] →
         (∃ d, results !! name repo = Some (true, d))
         ∧ is_Some (fs w1 !! (tmp / "testorg" / name repo)%path))
    ∧ (false = false → both_checked_out = w1).
Proof.
  apply (normal_end_means_all_cloned checkout_environment sample_config
           "testorg" [repo_a; repo_b] empty_world both_checked_out).
  - intros m. reflexivity.
  - apply perm_swap.
  - intros repo v Hin.
    repeat (apply elem_of_cons in Hin as [->|Hin]);
      [intros _; vm_compute; by eexists..|].
    by apply elem_of_nil in Hin.
  - reflexivity.
  - vm_compute. reflexivity.
Defined.

(** *** A target that is there from the start *)

Section Existing.

Variable git : Tool.
Variables (org_name : string) (base_dir : Path) (dry_run : bool).
Variable k : string.

Lemma clone_sequentially_existing repos repo_name results w r w' :
  is_Some (fs w !! (base_dir / org_name / k)%path) →
  (∀ v, results !! k = Some v → v.1 = false) →
  clone_sequentially git repos org_name base_dir dry_run repo_name results w
    = (Returned r, w') →
  (∀ v, r !! k = Some v → v.1 = false)
  ∧ (k ∈ name <$> repos ∨ is_Some (results !! k) → is_Some (r !! k)).
Proof.
  revert repo_name results w.
  induction repos as [|repo repos IH]; intros repo_name results w Hthere Hinv.
  - intros [= <- <-]. split; [done|].
    intros [Hin|?]; [|done]. by apply elem_of_nil in Hin.
  - cbn [clone_sequentially].
    destruct (clone_repository _ repo _ _ _ _) as [[[[n s] d]|e] w1] eqn:Hclone.
    + assert (is_Some (fs w1 !! (base_dir / org_name / k)%path)) as Hthere1.
      { eapply lookup_weaken_is_Some; [done|].
        by eapply clone_repository_subseteq. }
      destruct (decide (name repo = k)) as [Hk|Hk].
      * rewrite clone_repository_exists in Hclone by (by rewrite Hk).
        injection Hclone as <- <- <- <-. intros Hrun.
        apply IH in Hrun as [Hfalse Hsome]; [|done|].
        -- split; [done|]. intros _. apply Hsome. right.
           rewrite Hk, lookup_insert_eq. eauto.
        -- rewrite Hk, lookup_insert_eq. by intros v [= <-].
      * apply clone_repository_name in Hclone as ->. intros Hrun.
        apply IH in Hrun as [Hfalse Hsome]; [|done|].
        -- split; [done|]. intros [Hin|Hin]; apply Hsome.
           ++ rewrite fmap_cons in Hin.
              apply elem_of_cons in Hin as [?|?]; [done|by left].
           ++ right. by rewrite lookup_insert_ne.
        -- by rewrite lookup_insert_ne.
    + destruct (decide (name repo = k)) as [Hk|Hk].
      { rewrite clone_repository_exists in Hclone by (by rewrite Hk). done. }
      destruct repo_name as [key|]; [|done].
      assert (is_Some (fs w1 !! (base_dir / org_name / k)%path)) as Hthere1.
      { eapply lookup_weaken_is_Some; [done|].
        by eapply clone_repository_subseteq. }
      intros Hrun. apply IH in Hrun as [Hfalse Hsome]; [|done|].
      * split; [done|]. intros [Hin|Hin]; apply Hsome.
        -- rewrite fmap_cons in Hin.
           apply elem_of_cons in Hin as [?|?]; [done|by left].
        -- right. apply lookup_insert_is_Some'. by right.
      * intros v. destruct (decide (key = k)) as [->|Hne].
        -- rewrite lookup_insert_eq. by intros [= <-].
        -- rewrite lookup_insert_ne by done. apply Hinv.
Qed.

Lemma run_workers_existing repos schedule tasks w tasks' w' :
  is_Some (fs w !! (base_dir / org_name / k)%path) →
  skips k repos tasks →
  run_workers git repos org_name base_dir dry_run schedule tasks w
    = (tasks', w') →
  skips k repos tasks'.
Proof.
  intros Hthere Hskips Hrun.
  cut (fs w ⊆ fs w' ∧ skips k repos tasks'); [by intros [_ ?]|].
  revert Hrun.
  apply (run_workers_invariant git repos org_name base_dir dry_run
           (λ ts v, fs w ⊆ fs v ∧ skips k repos ts)); [|split; [reflexivity|done]].
  intros i repo t ts v t1 v1 Hrepo Hi [Hsub HI] Hstep. split.
  { etrans; [done|]. by eapply step_task_subseteq. }
  intros j repo' t' Hrepo' Hname Hj.
  destruct (decide (i = j)) as [->|Hne].
  - rewrite list_lookup_insert_eq in Hj by (eapply lookup_lt_Some; done).
    injection Hj as <-. rewrite Hrepo in Hrepo'. injection Hrepo' as <-.
    assert (path_exists v (base_dir / org_name / name repo)%path = true)
      as Hexists.
    { apply path_exists_true. rewrite Hname.
      by eapply lookup_weaken_is_Some. }
    destruct (HI j repo t Hrepo Hname Hi) as [->| ->]; simpl in Hstep.
    + rewrite Hexists, Hname in Hstep. injection Hstep as <- <-. by right.
    + injection Hstep as <- <-. by right.
  - rewrite list_lookup_insert_ne in Hj by done. eauto.
Qed.

Lemma clone_all_repositories_existing repos parallel max_workers sched w r w' :
  (parallel = true → completion sched ≡ₚ seq 0 (length repos)) →
  k ∈ name <$> repos →
  is_Some (fs w !! (base_dir / org_name / k)%path) →
  clone_all_repositories git repos org_name base_dir parallel max_workers
    dry_run sched w = (Returned r, w') →
  ∃ d, r !! k = Some (false, d).
Proof.
  intros Hperm Hin Hthere.
  assert (repos ≠ []) as Hne by (intros ->; by apply elem_of_nil in Hin).
  rewrite clone_all_repositories_nonempty by done.
  destruct (if dry_run then _ else _) as [[[]|e] wa] eqn:Hmk; [|done].
  assert (is_Some (fs wa !! (base_dir / org_name / k)%path)) as Hthere_a.
  { destruct dry_run; [by simplify_eq|].
    apply mkdir_subseteq in Hmk as [Hsub _].
    by eapply lookup_weaken_is_Some. }
  assert ((∀ v : bool * option string, r !! k = Some v → v.1 = false)
          ∧ is_Some (r !! k) → ∃ d, r !! k = Some (false, d)) as Hfinish.
  { intros [Hfalse [[s d] Hk]]. specialize (Hfalse _ Hk). simpl in Hfalse.
    subst s. eauto. }
  destruct parallel.
  - destruct (match max_workers with Some n => _ | None => _ end); [done|].
    destruct (run_workers _ _ _ _ _ _ _ _) as [tasks w2] eqn:Hpool.
    intros [= <- <-]. apply Hfinish.
    assert (skips k repos tasks) as Hskips.
    { eapply run_workers_existing; [exact Hthere_a| |exact Hpool].
      intros i repo t _ _ Ht. apply lookup_replicate in Ht as [-> _].
      by left. }
    split.
    + intros [s d] Hk.
      destruct (collect_completed_lookup _ _ _ _ _ _ Hk)
        as [Hempty|(i & repo & res & _ & Hrepo & Hi & Hres)];
        [by rewrite lookup_empty in Hempty|].
      destruct res as [[[n s'] d']|e]; simpl in Hres; [|by simplify_eq].
      injection Hres as -> -> ->.
      assert (k = name repo) as Hname.
      { eapply (run_workers_names git repos org_name base_dir dry_run);
          [|exact Hpool|exact Hrepo|exact Hi].
        intros j repo' n' s' d' _ Hj.
        by apply lookup_replicate in Hj as [? _]. }
      destruct (Hskips i repo _ Hrepo (eq_sym Hname) Hi) as [?|?];
        by simplify_eq.
    + apply list_elem_of_fmap in Hin as (repo & -> & Hin).
      apply list_elem_of_lookup_1 in Hin as [i Hi].
      destruct (run_workers_all_finished git repos org_name base_dir dry_run
                  _ _ _ _ _ (length_replicate _ _) Hpool i
                  ltac:(by eapply lookup_lt_Some)) as [res Hres].
      rewrite <-(pool_entry_key _ _ _ _ _ _ _ _ _ _ _ _ Hpool Hi Hres).
      apply (collect_completed_is_Some repos tasks (completion sched) ∅ i);
        [|done..].
      rewrite (Hperm eq_refl). apply elem_of_seq.
      apply lookup_lt_Some in Hi. lia.
  - intros Hrun. apply Hfinish.
    apply clone_sequentially_existing in Hrun as [Hfalse Hsome]; [|done|].
    + split; [done|]. apply Hsome. by left.
    + intros v Hv. by rewrite lookup_empty in Hv.
Qed.

End Existing.

(** X20.  When the target of a repository of the list is there before the
    run, the program ends with exit status 1, in a dry run as in a
    real one: a repository that is skipped counts as failed. *)
Theorem existing_target_gives_exit_status_one
    (env : Environment) (config : Config.Config) (org_name : string)
    (repos : list Repository) (w : World) (repo : Repository) :
  (∀ m, dict_items env m ≡ₚ map_to_list m) →
  (Config.parallel config = true →
   completion (scheduling env) ≡ₚ seq 0 (length repos)) →
  repo ∈ repos →
  path_exists w (Config.base_dir config / org_name / name repo)%path = true →
  exit_status (clone_and_report env config org_name repos w).1 = 1%Z.
Proof.
  intros Hitems Hperm Hin Hthere. unfold clone_and_report.
  destruct repos as [|repo0 repos0] eqn:Hrepos;
    [by apply elem_of_nil in Hin|].
  rewrite <-Hrepos in *.
  destruct (clone_all_repositories _ _ _ _ _ _ _ _ _) as [[results|e] w1]
    eqn:Hbatch; [|done].
  destruct (clone_all_repositories_existing _ _ _ _ (name repo) _ _ _ _ _ _ _
              Hperm ltac:(by apply list_elem_of_fmap_2)
              ltac:(by apply path_exists_true) Hbatch) as [d Hentry].
  destruct (if Config.run_setup config && _ then _ else _) as [setup w2].
  destruct setup as [[]|e]; [|done].
  destruct (fst <$> filter _ _) eqn:Hfailed; [|done].
  pose proof (proj1 (failed_repos_nil env results Hitems) Hfailed) as Hnone.
  by destruct (Hnone _ _ Hentry).
Qed.

Lemma existing_target_gives_exit_status_one_witness :
  exit_status
    (clone_and_report sample_environment sample_config "testorg"
       [repo_a; repo_b] repo_a_cloned).1 = 1%Z.
Proof.
  apply (existing_target_gives_exit_status_one sample_environment
           sample_config "testorg" [repo_a; repo_b] repo_a_cloned repo_a).
  - intros m. reflexivity.
  - intros _. apply perm_swap.
  - left.
  - vm_compute. reflexivity.
Defined.
